(** * Backpropagation visualizer core

    A shallow embedding of the core of the backpropagation playground
    (Matrix.ts, Loss.ts, ComputationGraph.ts and ExecutionEngine.ts) together
    with the properties stated of it.

    Conventions of the embedding.
    - A JavaScript number is an element of an abstract type [num] carrying
      the operations the code uses (class [JSNumber]).  Numbers are
      idealised: there is no NaN and no rounding.  The rationals [Qc] are the
      instance the numeric examples are evaluated in.
    - A JavaScript exception is a [Throw].  A computation into which an
      [undefined] array element enters (a read past the end of a row, which
      JavaScript turns into NaN without an exception) ends in [OffModel]: the
      model follows such a run no further.
    - Objects that are shared and mutated (computation nodes, the array handed
      to the Matrix constructor, the row arrays that copy() spreads) live in
      an explicit store and are named by their address. *)

From Stdlib Require Import QArith Qcanon Qround Qabs.
From stdpp Require Import gmap strings list fin_maps pretty.

#[local] Close Scope Q_scope.
#[local] Close Scope Qc_scope.
#[local] Open Scope nat_scope.
#[local] Set Warnings "-clear-no-such-hyp".

(** ** Numbers *)

Class JSNumber (num : Type) := {
  lit : Z → num;                 (* an integer literal, or an array length *)
  nadd : num → num → num;        (* a + b *)
  nsub : num → num → num;        (* a - b *)
  nmul : num → num → num;        (* a * b *)
  ndiv : num → num → num;        (* a / b *)
  nneg : num → num;              (* -a *)
  Math_exp : num → num;          (* Math.exp(a) *)
  gt : num → num → bool;         (* a > b *)
  toFixed3 : num → string        (* a.toFixed(3) *)
}.

(** ** Outcomes of a call *)

Inductive exn :=
  | Error (msg : string)
  | TypeError.

Inductive outcome (A : Type) :=
  | Ok (a : A)
  | Throw (e : exn)
  | OffModel.
Arguments Ok {A} a.
Arguments Throw {A} e.
Arguments OffModel {A}.

#[global] Instance outcome_ret : MRet outcome := λ A a, Ok a.
#[global] Instance outcome_bind : MBind outcome := λ A B f m,
  match m with
  | Ok a => f a
  | Throw e => Throw e
  | OffModel => OffModel
  end.

#[global] Instance outcome_fmap : FMap outcome := λ A B f m,
  match m with
  | Ok a => Ok (f a)
  | Throw e => Throw e
  | OffModel => OffModel
  end.

(** The call threw. *)
Definition throws {A} (r : outcome A) : Prop := ∃ e, r = Throw e.

(** Whether the call returned. *)
Definition returned {A} (r : outcome A) : bool :=
  match r with Ok _ => true | _ => false end.

(** [for (let i = 0; i < n; i++) body]: the loop state is threaded through
    the iterations; an exception ends the loop. *)
Definition for_ {S} (n : nat) (body : nat → S → outcome S) (s : S) : outcome S :=
  foldl (λ acc i, acc ≫= body i) (Ok s) (seq 0 n).

(** [s] occurs inside [msg]. *)
Definition contains (msg s : string) : Prop :=
  ∃ pre post, msg = pre +:+ s +:+ post.

(** ** Matrix.ts *)

Section Matrix.
Context {num : Type} `{JSNumber num}.

Record Matrix := mkMatrix {
  rows : nat;
  cols : nat;
  data : list (list num)
}.

(** [`${a}x${b}`] for two array lengths. *)
Definition dims (a b : nat) : string := pretty a +:+ "x" +:+ pretty b.

(** [data[0].length] *)
Definition first_row_length (d : list (list num)) : outcome nat :=
  match d with
  | [] => Throw TypeError
  | row :: _ => Ok (length row)
  end.

(** The checks of the constructor on an explicit [data] argument. *)
Definition check_data (rows cols : nat) (d : list (list num)) : outcome unit :=
  if decide (length d ≠ rows) then
    l0 ← first_row_length d;
    Throw (Error ("Data dimensions " +:+ dims (length d) l0 +:+
                  " don't match " +:+ dims rows cols))
  else
    l0 ← first_row_length d;
    if decide (l0 ≠ cols) then
      Throw (Error ("Data dimensions " +:+ dims (length d) l0 +:+
                    " don't match " +:+ dims rows cols))
    else Ok ().

(** [new Matrix(rows, cols, data?)], on the value of [data]. *)
Definition Matrix_new (rows cols : nat) (data : option (list (list num)))
  : outcome Matrix :=
  match data with
  | Some d => _ ← check_data rows cols d; Ok (mkMatrix rows cols d)
  | None => Ok (mkMatrix rows cols (replicate rows (replicate cols (lit 0))))
  end.

Definition zeros (rows cols : nat) : outcome Matrix := Matrix_new rows cols None.

(** [Matrix.fromArray(arr, asColumn)] *)
Definition fromArray (arr : list num) (asColumn : bool) : outcome Matrix :=
  if asColumn then Matrix_new (length arr) 1 (Some ((λ val, [val]) <$> arr))
  else Matrix_new 1 (length arr) (Some [arr]).

(** [this.data.flat()] *)
Definition toArray (this : Matrix) : list num := concat (data this).

(** [m.data[i][j]] read as an operand of arithmetic. *)
Definition rd (m : Matrix) (i j : nat) : outcome num :=
  match data m !! i with
  | None => Throw TypeError
  | Some row =>
      match row !! j with
      | None => OffModel
      | Some v => Ok v
      end
  end.

(** [m.data[i][j] = v] *)
Definition wr (m : Matrix) (i j : nat) (v : num) : outcome Matrix :=
  match data m !! i with
  | None => Throw TypeError
  | Some row =>
      if decide (j < length row) then
        Ok (mkMatrix (rows m) (cols m) (<[i := <[j := v]> row]> (data m)))
      else if decide (j = length row) then
        Ok (mkMatrix (rows m) (cols m) (<[i := row ++ [v]]> (data m)))
      else OffModel
  end.

(** The loop nest of every elementwise operation:
    [for i < rows, for j < cols: result.data[i][j] = cell i j]. *)
Definition fill (rows cols : nat) (cell : nat → nat → outcome num)
    (result : Matrix) : outcome Matrix :=
  for_ rows (λ i result,
    for_ cols (λ j result, v ← cell i j; wr result i j v) result) result.

Definition multiply (this other : Matrix) : outcome Matrix :=
  if decide (cols this ≠ rows other) then
    Throw (Error ("Cannot multiply " +:+ dims (rows this) (cols this) +:+
                  " with " +:+ dims (rows other) (cols other)))
  else
    result ← zeros (rows this) (cols other);
    fill (rows this) (cols other) (λ i j,
      for_ (cols this) (λ k sum,
        a ← rd this i k; b ← rd other k j; Ok (nadd sum (nmul a b))) (lit 0))
      result.

Definition hadamard (this other : Matrix) : outcome Matrix :=
  if decide (rows this ≠ rows other ∨ cols this ≠ cols other) then
    Throw (Error ("Cannot element-wise multiply " +:+
                  dims (rows this) (cols this) +:+
                  " with " +:+ dims (rows other) (cols other)))
  else
    result ← zeros (rows this) (cols this);
    fill (rows this) (cols this) (λ i j,
      a ← rd this i j; b ← rd other i j; Ok (nmul a b)) result.

(** [add] with a number argument. *)
Definition add_scalar (this : Matrix) (other : num) : outcome Matrix :=
  result ← zeros (rows this) (cols this);
  fill (rows this) (cols this) (λ i j,
    a ← rd this i j; Ok (nadd a other)) result.

(** [add] with a Matrix argument. *)
Definition add (this other : Matrix) : outcome Matrix :=
  if decide (rows this ≠ rows other ∨ cols this ≠ cols other) then
    Throw (Error ("Cannot add " +:+ dims (rows this) (cols this) +:+
                  " with " +:+ dims (rows other) (cols other)))
  else
    result ← zeros (rows this) (cols this);
    fill (rows this) (cols this) (λ i j,
      a ← rd this i j; b ← rd other i j; Ok (nadd a b)) result.

Definition scale (this : Matrix) (scalar : num) : outcome Matrix :=
  result ← zeros (rows this) (cols this);
  fill (rows this) (cols this) (λ i j,
    a ← rd this i j; Ok (nmul a scalar)) result.

(** [subtract] with a Matrix argument. *)
Definition subtract (this other : Matrix) : outcome Matrix :=
  negated ← scale other (lit (-1));
  add this negated.

(** *** The constructor on a shared array

    The caller's [data] array is an object: [store] maps its address to
    its current contents, and a Matrix object holds an address. *)

Record MatrixObj := mkMatrixObj {
  obj_rows : nat;
  obj_cols : nat;
  obj_data : nat
}.

Definition fresh_ref (store : gmap nat (list (list num))) : nat :=
  fresh (dom store).

Definition Matrix_constructor (store : gmap nat (list (list num)))
    (rows cols : nat) (data : option nat)
  : outcome (MatrixObj * gmap nat (list (list num))) :=
  match data with
  | Some ref =>
      match store !! ref with
      | None => OffModel
      | Some d =>
          _ ← check_data rows cols d;
          Ok (mkMatrixObj rows cols ref, store)
      end
  | None =>
      let ref := fresh_ref store in
      Ok (mkMatrixObj rows cols ref,
          <[ref := replicate rows (replicate cols (lit 0))]> store)
  end.

(** [m.get(row, col)], reading through the reference. *)
Definition Matrix_get (store : gmap nat (list (list num))) (m : MatrixObj)
    (row col : nat) : option num :=
  d ← store !! obj_data m; r ← d !! row; r !! col.

(** *** Loss.ts: mean squared error *)

Definition shape_error : exn :=
  Error "Predicted and target matrices must have the same shape".

Definition mse_forward (predicted target : Matrix) : outcome num :=
  if decide (rows predicted ≠ rows target ∨ cols predicted ≠ cols target) then
    Throw shape_error
  else
    diff ← subtract predicted target;
    squaredDiff ← hadamard diff diff;
    let sum := foldl nadd (lit 0) (toArray squaredDiff) in
    let n := lit (Z.of_nat (rows predicted * cols predicted)) in
    Ok (ndiv sum n).

Definition mse_backward (predicted target : Matrix) : outcome Matrix :=
  if decide (rows predicted ≠ rows target ∨ cols predicted ≠ cols target) then
    Throw shape_error
  else
    let n := lit (Z.of_nat (rows predicted * cols predicted)) in
    diff ← subtract predicted target;
    scale diff (ndiv (lit 2) n).

End Matrix.
Arguments Matrix num : clear implicits.
Arguments MatrixObj : clear implicits.

(** *** Matrix.ts: the other operations *)

Section MatrixOperations.
Context {num : Type} `{JSNumber num}.

(** [Matrix.ones(rows, cols)] *)
Definition ones (rows cols : nat) : outcome (Matrix num) :=
  let data := replicate rows (replicate cols (lit 1)) in
  Matrix_new rows cols (Some data).

(** [transpose()] *)
Definition transpose (this : Matrix num) : outcome (Matrix num) :=
  result ← zeros (cols this) (rows this);
  for_ (rows this) (λ i result,
    for_ (cols this) (λ j result, v ← rd this i j; wr result j i v) result)
    result.

(** [map(fn)].  The callback is a function of the element and its two
    indices, as every callback of the repository is. *)
Definition Matrix_map (this : Matrix num) (fn : num → nat → nat → num)
  : outcome (Matrix num) :=
  result ← zeros (rows this) (cols this);
  fill (rows this) (cols this) (λ i j, a ← rd this i j; Ok (fn a i j)) result.

(** [copy()], on the contents of the arrays. *)
Definition copy (this : Matrix num) : outcome (Matrix num) :=
  let dataCopy := (λ row : list num, row) <$> data this in
  Matrix_new (rows this) (cols this) (Some dataCopy).

End MatrixOperations.

(** *** Matrix.ts: copy(), get() and set() on a heap of arrays

    A [number[][]] is an array of references to row arrays.  To tell a deep
    copy from a shallow one every array has an address of its own here: a row
    is an array of numbers, the [data] of a matrix is an array of addresses of
    rows, and two matrices (or two rows of one matrix) can share a row. *)

Module ArrayHeap.
Section Arrays.
Context {num : Type} `{JSNumber num}.

Inductive array :=
  | Numbers (xs : list num)
  | Rows (refs : list nat).

Local Abbreviation heap := (gmap nat array).

Definition numbers_at (σ : heap) (a : nat) : option (list num) :=
  match σ !! a with Some (Numbers xs) => Some xs | _ => None end.

Definition rows_at (σ : heap) (a : nat) : option (list nat) :=
  match σ !! a with Some (Rows refs) => Some refs | _ => None end.

(** The elements of the array of arrays at address [a]. *)
Definition contents (σ : heap) (a : nat) : option (list (list num)) :=
  refs ← rows_at σ a; mapM (numbers_at σ) refs.

(** A new array: an address the heap does not use yet. *)
Definition alloc (σ : heap) (v : array) : nat * heap :=
  let a := fresh (dom σ) in (a, <[a := v]> σ).

(** [new Matrix(rows, cols, data)] with the array at address [data]: the
    object holds the address it was given. *)
Definition Matrix_constructor (σ : heap) (rows cols : nat) (data : nat)
  : outcome MatrixObj :=
  match contents σ data with
  | None => OffModel
  | Some d =>
      _ ← check_data rows cols d;
      Ok (mkMatrixObj rows cols data)
  end.

(** [rows.map(row => [...row])]: for every row, in order, a new array with
    the elements of the row; the result lists the new addresses. *)
Fixpoint spread_rows (σ : heap) (refs : list nat) : option (list nat * heap) :=
  match refs with
  | [] => Some ([], σ)
  | a :: refs =>
      match numbers_at σ a with
      | None => None
      | Some xs =>
          let (a', σ) := alloc σ (Numbers xs) in
          match spread_rows σ refs with
          | None => None
          | Some (refs', σ) => Some (a' :: refs', σ)
          end
      end
  end.

(** [copy()] *)
Definition Matrix_copy (σ : heap) (this : MatrixObj)
  : outcome (MatrixObj * heap) :=
  match rows_at σ (obj_data this) ≫= spread_rows σ with
  | None => OffModel
  | Some (refs', σ) =>
      let (dataCopy, σ) := alloc σ (Rows refs') in
      m ← Matrix_constructor σ (obj_rows this) (obj_cols this) dataCopy;
      Ok (m, σ)
  end.

(** [get(row, col)]: [this.data[row][col]], which is [undefined] ([None])
    past the end of the row and throws when there is no such row. *)
Definition Matrix_get (σ : heap) (this : MatrixObj) (row col : nat)
  : outcome (option num) :=
  match rows_at σ (obj_data this) with
  | None => OffModel
  | Some refs =>
      match refs !! row with
      | None => Throw TypeError
      | Some a =>
          match numbers_at σ a with
          | None => OffModel
          | Some xs => Ok (xs !! col)
          end
      end
  end.

(** [set(row, col, value)]: [this.data[row][col] = value] writes the row
    array in place (a write at the end of the row extends it; one further out
    would leave holes, which the lists of the model do not have). *)
Definition Matrix_set (σ : heap) (this : MatrixObj) (row col : nat)
    (value : num) : outcome heap :=
  match rows_at σ (obj_data this) with
  | None => OffModel
  | Some refs =>
      match refs !! row with
      | None => Throw TypeError
      | Some a =>
          match numbers_at σ a with
          | None => OffModel
          | Some xs =>
              if decide (col < length xs) then
                Ok (<[a := Numbers (<[col := value]> xs)]> σ)
              else if decide (col = length xs) then
                Ok (<[a := Numbers (xs ++ [value])]> σ)
              else OffModel
          end
      end
  end.

End Arrays.
Arguments array num : clear implicits.
Abbreviation heap num := (gmap nat (array num)).
End ArrayHeap.


(** ** ComputationGraph.ts *)

Section Graph.
Context {num : Type} `{JSNumber num}.

(** The node classes; an operation node holds references to its inputs
    (the [inputs] array its constructor fills). *)
Inductive NodeClass :=
  | InputNode
  | ParameterNode
  | MultiplyNode (input1 input2 : nat)
  | AddNode (input1 input2 : nat)
  | SigmoidNode (input : nat)
  | ReLUNode (input : nat)
  | SquareNode (input : nat)
  | SubtractNode (input1 input2 : nat)
  | MaxNode (input1 input2 : nat).

(** A node object.  The layout coordinates [x] and [y] are never read by
    the core and are left out; [maxIndex] is the private field of MaxNode. *)
Record ComputationNode := mkNode {
  id : string;
  class : NodeClass;
  name : string;
  value : num;
  gradient : num;
  isActive : bool;
  maxIndex : nat
}.

Definition inputs (n : ComputationNode) : list nat :=
  match class n with
  | InputNode | ParameterNode => []
  | MultiplyNode a b | AddNode a b | SubtractNode a b | MaxNode a b => [a; b]
  | SigmoidNode a | ReLUNode a | SquareNode a => [a]
  end.

Definition set_value (v : num) (n : ComputationNode) : ComputationNode :=
  mkNode (id n) (class n) (name n) v (gradient n) (isActive n) (maxIndex n).
Definition set_gradient (g : num) (n : ComputationNode) : ComputationNode :=
  mkNode (id n) (class n) (name n) (value n) g (isActive n) (maxIndex n).
Definition set_isActive (b : bool) (n : ComputationNode) : ComputationNode :=
  mkNode (id n) (class n) (name n) (value n) (gradient n) b (maxIndex n).
Definition set_maxIndex (i : nat) (n : ComputationNode) : ComputationNode :=
  mkNode (id n) (class n) (name n) (value n) (gradient n) (isActive n) i.

(** The node objects, by address.  A reference held by a node or by the
    graph is an address; [deref] follows it (a JavaScript reference always
    points to an object, so the default is never read on a closed heap). *)
Definition null_node : ComputationNode :=
  mkNode "" InputNode "" (lit 0) (lit 0) false 0.
Definition deref (h : list ComputationNode) (r : nat) : ComputationNode :=
  default null_node (h !! r).

(** The constructors: a fresh node has value and gradient 0 (leaves take
    their value as an argument), is inactive, and is appended to the heap. *)
Definition new_node (h : list ComputationNode) (i : string) (c : NodeClass)
    (nm : string) (v : num) : list ComputationNode * nat :=
  (h ++ [mkNode i c nm v (lit 0) false 0], length h).

(** [Math.max(a, b)] *)
Definition Math_max (a b : num) : num := if gt a b then a else b.

(** [node.forward()]: the new value and, for MaxNode, the new [maxIndex]. *)
Definition forward_node (h : list ComputationNode) (n : ComputationNode)
  : ComputationNode :=
  match class n with
  | InputNode | ParameterNode => n
  | MultiplyNode a b =>
      set_value (nmul (value (deref h a)) (value (deref h b))) n
  | AddNode a b =>
      set_value (nadd (value (deref h a)) (value (deref h b))) n
  | SigmoidNode a =>
      set_value (ndiv (lit 1) (nadd (lit 1) (Math_exp (nneg (value (deref h a)))))) n
  | ReLUNode a =>
      set_value (Math_max (lit 0) (value (deref h a))) n
  | SquareNode a =>
      set_value (nmul (value (deref h a)) (value (deref h a))) n
  | SubtractNode a b =>
      set_value (nsub (value (deref h a)) (value (deref h b))) n
  | MaxNode a b =>
      let val1 := value (deref h a) in
      let val2 := value (deref h b) in
      if gt val1 val2 then set_value val1 (set_maxIndex 0 n)
      else set_value val2 (set_maxIndex 1 n)
  end.

Definition forward (h : list ComputationNode) (r : nat) : list ComputationNode :=
  match h !! r with
  | Some n => <[r := forward_node h n]> h
  | None => h
  end.

(** [node.backward(upstreamGradient)]: the recursive backward pass.  The
    recursion follows the input references; [fuel] bounds its depth. *)
Fixpoint backward (fuel : nat) (h : list ComputationNode) (r : nat)
    (upstreamGradient : num) : list ComputationNode :=
  match fuel with
  | 0 => h
  | S fuel =>
      match h !! r with
      | None => h
      | Some n =>
          let h := <[r := set_gradient upstreamGradient n]> h in
          match class n with
          | InputNode | ParameterNode => h
          | MultiplyNode a b =>
              let gradInput1 := nmul (value (deref h b)) upstreamGradient in
              let gradInput2 := nmul (value (deref h a)) upstreamGradient in
              backward fuel (backward fuel h a gradInput1) b gradInput2
          | AddNode a b =>
              backward fuel (backward fuel h a upstreamGradient) b upstreamGradient
          | SigmoidNode a =>
              let localGrad := nmul (value n) (nsub (lit 1) (value n)) in
              backward fuel h a (nmul localGrad upstreamGradient)
          | ReLUNode a =>
              let localGrad := if gt (value (deref h a)) (lit 0) then lit 1 else lit 0 in
              backward fuel h a (nmul localGrad upstreamGradient)
          | SquareNode a =>
              let localGrad := nmul (lit 2) (value (deref h a)) in
              backward fuel h a (nmul localGrad upstreamGradient)
          | SubtractNode a b =>
              backward fuel (backward fuel h a upstreamGradient) b (nneg upstreamGradient)
          | MaxNode a b =>
              if decide (maxIndex n = 0) then
                backward fuel (backward fuel h a upstreamGradient) b (lit 0)
              else
                backward fuel (backward fuel h a (lit 0)) b upstreamGradient
          end
      end
  end.

(** The calls [input.backward(gradient)] that [node.backward(upstream)]
    makes, in their order: the local rule of each node class. *)
Definition local_gradients (h : list ComputationNode) (n : ComputationNode)
    (upstreamGradient : num) : list (nat * num) :=
  match class n with
  | InputNode | ParameterNode => []
  | MultiplyNode a b =>
      [(a, nmul (value (deref h b)) upstreamGradient);
       (b, nmul (value (deref h a)) upstreamGradient)]
  | AddNode a b => [(a, upstreamGradient); (b, upstreamGradient)]
  | SigmoidNode a =>
      [(a, nmul (nmul (value n) (nsub (lit 1) (value n))) upstreamGradient)]
  | ReLUNode a =>
      [(a, nmul (if gt (value (deref h a)) (lit 0) then lit 1 else lit 0)
                upstreamGradient)]
  | SquareNode a =>
      [(a, nmul (nmul (lit 2) (value (deref h a))) upstreamGradient)]
  | SubtractNode a b => [(a, upstreamGradient); (b, nneg upstreamGradient)]
  | MaxNode a b =>
      if decide (maxIndex n = 0) then [(a, upstreamGradient); (b, lit 0)]
      else [(a, lit 0); (b, upstreamGradient)]
  end.

Definition getForwardEquation (h : list ComputationNode) (n : ComputationNode)
  : string :=
  let nm r := name (deref h r) in
  let v r := toFixed3 (value (deref h r)) in
  match class n with
  | InputNode | ParameterNode => name n +:+ " = " +:+ toFixed3 (value n)
  | MultiplyNode x y =>
      name n +:+ " = " +:+ nm x +:+ " × " +:+ nm y +:+ " = " +:+
      v x +:+ " × " +:+ v y +:+ " = " +:+ toFixed3 (value n)
  | AddNode x y =>
      name n +:+ " = " +:+ nm x +:+ " + " +:+ nm y +:+ " = " +:+
      v x +:+ " + " +:+ v y +:+ " = " +:+ toFixed3 (value n)
  | SigmoidNode x =>
      name n +:+ " = σ(" +:+ nm x +:+ ") = 1/(1+e^(-" +:+ v x +:+ ")) = " +:+
      toFixed3 (value n)
  | ReLUNode x =>
      name n +:+ " = ReLU(" +:+ nm x +:+ ") = max(0, " +:+ v x +:+ ") = " +:+
      toFixed3 (value n)
  | SquareNode x =>
      name n +:+ " = " +:+ nm x +:+ "² = (" +:+ v x +:+ ")² = " +:+
      toFixed3 (value n)
  | SubtractNode x y =>
      name n +:+ " = " +:+ nm x +:+ " - " +:+ nm y +:+ " = " +:+
      v x +:+ " - " +:+ v y +:+ " = " +:+ toFixed3 (value n)
  | MaxNode x y =>
      name n +:+ " = max(" +:+ nm x +:+ ", " +:+ nm y +:+ ") = max(" +:+
      v x +:+ ", " +:+ v y +:+ ") = " +:+ toFixed3 (value n)
  end.

Definition getBackwardEquation (h : list ComputationNode) (n : ComputationNode)
  : string :=
  let nm r := name (deref h r) in
  let g := toFixed3 (gradient n) in
  match class n with
  | InputNode | ParameterNode => "∂L/∂" +:+ name n +:+ " = " +:+ g
  | MultiplyNode x y =>
      "∂L/∂" +:+ nm x +:+ " = " +:+ nm y +:+ " × ∂L/∂" +:+ name n +:+ " = " +:+
      toFixed3 (value (deref h y)) +:+ " × " +:+ g +:+ " = " +:+
      toFixed3 (nmul (value (deref h y)) (gradient n))
  | AddNode x _ =>
      "∂L/∂" +:+ nm x +:+ " = ∂L/∂" +:+ name n +:+ " = " +:+ g
  | SigmoidNode x =>
      let localGrad := nmul (value n) (nsub (lit 1) (value n)) in
      "∂L/∂" +:+ nm x +:+ " = σ'(" +:+ nm x +:+ ") × ∂L/∂" +:+ name n +:+ " = " +:+
      toFixed3 localGrad +:+ " × " +:+ g +:+ " = " +:+
      toFixed3 (nmul localGrad (gradient n))
  | ReLUNode x =>
      let positive := gt (value (deref h x)) (lit 0) in
      let localGrad := if positive then lit 1 else lit 0 in
      let shown : string := if positive then "1" else "0" in
      "∂L/∂" +:+ nm x +:+ " = " +:+ shown +:+ " × ∂L/∂" +:+ name n +:+ " = " +:+
      shown +:+ " × " +:+ g +:+ " = " +:+ toFixed3 (nmul localGrad (gradient n))
  | SquareNode x =>
      let localGrad := nmul (lit 2) (value (deref h x)) in
      "∂L/∂" +:+ nm x +:+ " = 2×" +:+ nm x +:+ " × ∂L/∂" +:+ name n +:+ " = " +:+
      toFixed3 localGrad +:+ " × " +:+ g +:+ " = " +:+
      toFixed3 (nmul localGrad (gradient n))
  | SubtractNode x y =>
      "∂L/∂" +:+ nm x +:+ " = " +:+ g +:+ ", ∂L/∂" +:+ nm y +:+ " = -" +:+ g
  | MaxNode x y =>
      let winner := if decide (maxIndex n = 0) then nm x else nm y in
      "∂L/∂" +:+ winner +:+ " = " +:+ g +:+ " (gradient flows to max input only)"
  end.

Definition getExplanation (h : list ComputationNode) (n : ComputationNode)
  : string :=
  match class n with
  | InputNode => "Input variable " +:+ name n
  | ParameterNode => "Parameter " +:+ name n +:+ " (trainable)"
  | MultiplyNode _ _ =>
      "Multiplication: output = input1 × input2. Gradient multiplies by the other input."
  | AddNode _ _ =>
      "Addition: output = input1 + input2. Gradient passes through unchanged."
  | SigmoidNode _ =>
      "Sigmoid activation: σ(x) = 1/(1+e^(-x)). Gradient: σ'(x) = σ(x)(1-σ(x))"
  | ReLUNode _ => "ReLU: max(0, x). Gradient: 1 if x > 0, else 0 (gate)"
  | SquareNode _ => "Square: x². Local gradient: 2x (power rule)"
  | SubtractNode _ _ =>
      "Subtraction: x - y. First input gets gradient, second gets negated gradient."
  | MaxNode x y =>
      let winner := if decide (maxIndex n = 0) then name (deref h x)
                    else name (deref h y) in
      "Max operation: Gradient flows only to the input that was larger (" +:+
      winner +:+ "), like a gate."
  end.

(** The graph object: [nodes] is the Map from id to node, [executionOrder]
    the array of nodes, [outputNode] the output or null. *)
Record ComputationGraph := mkGraph {
  nodes : gmap string nat;
  executionOrder : list nat;
  outputNode : option nat
}.

Definition new_graph : ComputationGraph := mkGraph ∅ [] None.

Definition addNode (h : list ComputationNode) (g : ComputationGraph) (node : nat)
  : ComputationGraph :=
  mkGraph (<[id (deref h node) := node]> (nodes g)) (executionOrder g) (outputNode g).

(** The closure [visit] of computeExecutionOrder; the state is the pair of
    [visited] and [order].  [fuel] bounds the depth of the recursion. *)
Fixpoint visit (fuel : nat) (h : list ComputationNode) (node : nat)
    (st : gset string * list nat) : gset string * list nat :=
  match fuel with
  | 0 => st
  | S fuel =>
      if decide (id (deref h node) ∈ st.1) then st
      else
        let st := ({[id (deref h node)]} ∪ st.1, st.2) in
        let st := foldl (λ st input, visit fuel h input st) st
                        (inputs (deref h node)) in
        (st.1, st.2 ++ [node])
  end.

Definition computeExecutionOrder (h : list ComputationNode)
    (outputNode : option nat) : list nat :=
  match outputNode with
  | Some node => (visit (length h) h node (∅, [])).2
  | None => []
  end.

Definition setOutput (h : list ComputationNode) (g : ComputationGraph) (node : nat)
  : ComputationGraph :=
  mkGraph (nodes g) (computeExecutionOrder h (Some node)) (Some node).

(** [graph.forward()]: the heap after the pass and the returned number. *)
Definition graph_forward (h : list ComputationNode) (g : ComputationGraph)
  : list ComputationNode * num :=
  let h := foldl forward h (executionOrder g) in
  (h, match outputNode g with Some o => value (deref h o) | None => lit 0 end).

(** [graph.backward()] *)
Definition graph_backward (h : list ComputationNode) (g : ComputationGraph)
  : list ComputationNode :=
  match outputNode g with
  | None => h
  | Some o => backward (length h) h o (lit 1)
  end.

Definition reset_node (n : ComputationNode) : ComputationNode :=
  set_isActive false (set_gradient (lit 0) n).

(** [graph.reset()]: a loop over [nodes.values()]. *)
Definition graph_reset (h : list ComputationNode) (g : ComputationGraph)
  : list ComputationNode :=
  map_fold (λ _ node h, alter reset_node node h) h (nodes g).

(** Every reference in the heap points to a node of the heap, as a
    JavaScript reference does. *)
Definition closed (h : list ComputationNode) : Prop :=
  ∀ r n, h !! r = Some n → ∀ i, i ∈ inputs n → i < length h.

(** [rank] decreases along every input reference. *)
Definition ranked (rank : nat → nat) (h : list ComputationNode) : Prop :=
  ∀ r n, h !! r = Some n → ∀ i, i ∈ inputs n → rank i < rank r.

(** No node is reachable from itself through its input chain: the nodes
    can be ranked so that every input ranks below its consumer.  (The order
    of construction is such a ranking, since a node constructor takes its
    inputs as arguments.) *)
Definition acyclic (h : list ComputationNode) : Prop := ∃ rank, ranked rank h.

(** The ids of the node objects are unique. *)
Definition unique_ids (h : list ComputationNode) : Prop :=
  ∀ r1 r2 n1 n2, h !! r1 = Some n1 → h !! r2 = Some n2 → id n1 = id n2 → r1 = r2.

(** [r] is reachable from [o] along input references. *)
Inductive reachable (h : list ComputationNode) (o : nat) : nat → Prop :=
  | reachable_refl : reachable h o o
  | reachable_input r i :
      reachable h o r → i ∈ inputs (deref h r) → reachable h o i.

End Graph.
Arguments NodeClass : clear implicits.
Arguments ComputationNode num : clear implicits.

(** ** Loss.ts: the other loss functions *)

Section Losses.
Context {num : Type} `{JSNumber num}.

(** [Math.log], a function of numbers. *)
Variable Math_log : num → num.

(** [Math.min(a, b)] *)
Definition Math_min (a b : num) : num := if gt a b then b else a.

(** [1e-15] *)
Definition epsilon : num := ndiv (lit 1) (lit 1000000000000000).

(** A loss function object. *)
Record LossFunction := mkLossFunction {
  loss_forward : Matrix num → Matrix num → outcome num;
  loss_backward : Matrix num → Matrix num → outcome (Matrix num);
  loss_name : string
}.

Definition meanSquaredError : LossFunction :=
  mkLossFunction mse_forward mse_backward "mse".

Definition bce_forward (predicted target : Matrix num) : outcome num :=
  if decide (rows predicted ≠ rows target ∨ cols predicted ≠ cols target) then
    Throw shape_error
  else
    let n := lit (Z.of_nat (rows predicted * cols predicted)) in
    loss ← for_ (rows predicted) (λ i loss,
              for_ (cols predicted) (λ j loss,
                y ← rd target i j;
                p ← rd predicted i j;
                let yHat := Math_max epsilon (Math_min (nsub (lit 1) epsilon) p) in
                Ok (nadd loss
                      (nadd (nmul y (Math_log yHat))
                            (nmul (nsub (lit 1) y)
                                  (Math_log (nsub (lit 1) yHat)))))) loss)
              (lit 0);
    Ok (ndiv (nneg loss) n).

Definition bce_backward (predicted target : Matrix num)
  : outcome (Matrix num) :=
  if decide (rows predicted ≠ rows target ∨ cols predicted ≠ cols target) then
    Throw shape_error
  else
    let n := lit (Z.of_nat (rows predicted * cols predicted)) in
    gradient ← zeros (rows predicted) (cols predicted);
    fill (rows predicted) (cols predicted) (λ i j,
      y ← rd target i j;
      p ← rd predicted i j;
      let yHat := Math_max epsilon (Math_min (nsub (lit 1) epsilon) p) in
      Ok (ndiv (nneg (nsub (ndiv y yHat)
                           (ndiv (nsub (lit 1) y) (nsub (lit 1) yHat)))) n))
      gradient.

Definition binaryCrossEntropy : LossFunction :=
  mkLossFunction bce_forward bce_backward "binary_crossentropy".

Definition cce_forward (predicted target : Matrix num) : outcome num :=
  if decide (rows predicted ≠ rows target ∨ cols predicted ≠ cols target) then
    Throw shape_error
  else
    let n := lit (Z.of_nat (rows predicted)) in
    loss ← for_ (rows predicted) (λ i loss,
              for_ (cols predicted) (λ j loss,
                y ← rd target i j;
                if gt y (lit 0) then
                  p ← rd predicted i j;
                  let yHat := Math_max epsilon p in
                  Ok (nadd loss (nmul y (Math_log yHat)))
                else Ok loss) loss)
              (lit 0);
    Ok (ndiv (nneg loss) n).

Definition cce_backward (predicted target : Matrix num)
  : outcome (Matrix num) :=
  if decide (rows predicted ≠ rows target ∨ cols predicted ≠ cols target) then
    Throw shape_error
  else
    let n := lit (Z.of_nat (rows predicted)) in
    gradient ← zeros (rows predicted) (cols predicted);
    fill (rows predicted) (cols predicted) (λ i j,
      y ← rd target i j;
      p ← rd predicted i j;
      let yHat := Math_max epsilon p in
      Ok (ndiv (nsub yHat y) n))
      gradient.

Definition categoricalCrossEntropy : LossFunction :=
  mkLossFunction cce_forward cce_backward "categorical_crossentropy".

(** [getLoss(name)] *)
Definition getLoss (name : string) : outcome LossFunction :=
  if decide (name = "mse") then Ok meanSquaredError
  else if decide (name = "binary_crossentropy") then Ok binaryCrossEntropy
  else if decide (name = "categorical_crossentropy") then
    Ok categoricalCrossEntropy
  else Throw (Error ("Unknown loss function: " +:+ name)).

End Losses.
Arguments LossFunction num : clear implicits.

(** ** Activation.ts *)

Section Activations.
Context {num : Type} `{JSNumber num}.

(** [Math.tanh], a function of numbers. *)
Variable Math_tanh : num → num.

(** An activation function object. *)
Record ActivationFunction := mkActivationFunction {
  act_forward : Matrix num → outcome (Matrix num);
  act_backward : Matrix num → outcome (Matrix num);
  act_name : string
}.

Definition sigmoid_forward (x : Matrix num) : outcome (Matrix num) :=
  Matrix_map x (λ val _ _, ndiv (lit 1) (nadd (lit 1) (Math_exp (nneg val)))).

Definition sigmoid_backward (x : Matrix num) : outcome (Matrix num) :=
  sig ← sigmoid_forward x;
  rest ← Matrix_map sig (λ val _ _, nsub (lit 1) val);
  hadamard sig rest.

Definition sigmoid : ActivationFunction :=
  mkActivationFunction sigmoid_forward sigmoid_backward "sigmoid".

Definition tanh_forward (x : Matrix num) : outcome (Matrix num) :=
  Matrix_map x (λ val _ _, Math_tanh val).

Definition tanh_backward (x : Matrix num) : outcome (Matrix num) :=
  tanhX ← tanh_forward x;
  Matrix_map tanhX (λ val _ _, nsub (lit 1) (nmul val val)).

Definition tanh : ActivationFunction :=
  mkActivationFunction tanh_forward tanh_backward "tanh".

Definition relu_forward (x : Matrix num) : outcome (Matrix num) :=
  Matrix_map x (λ val _ _, Math_max (lit 0) val).

Definition relu_backward (x : Matrix num) : outcome (Matrix num) :=
  Matrix_map x (λ val _ _, if gt val (lit 0) then lit 1 else lit 0).

Definition relu : ActivationFunction :=
  mkActivationFunction relu_forward relu_backward "relu".

(** [leakyRelu(alpha = 0.01)] *)
Definition leakyRelu (alpha : option num) : ActivationFunction :=
  let alpha := default (ndiv (lit 1) (lit 100)) alpha in
  mkActivationFunction
    (λ x, Matrix_map x (λ val _ _, if gt val (lit 0) then val else nmul alpha val))
    (λ x, Matrix_map x (λ val _ _, if gt val (lit 0) then lit 1 else alpha))
    "leaky_relu".

Definition linear : ActivationFunction :=
  mkActivationFunction (λ x, copy x) (λ x, ones (rows x) (cols x)) "linear".

(** [getActivation(name, alpha?)] *)
Definition getActivation (name : string) (alpha : option num)
  : outcome ActivationFunction :=
  if decide (name = "sigmoid") then Ok sigmoid
  else if decide (name = "tanh") then Ok tanh
  else if decide (name = "relu") then Ok relu
  else if decide (name = "leaky_relu") then Ok (leakyRelu alpha)
  else if decide (name = "linear") then Ok linear
  else Throw (Error ("Unknown activation function: " +:+ name)).

End Activations.
Arguments ActivationFunction num : clear implicits.

(** ** Layer.ts *)

Section Layers.
Context {num : Type} `{JSNumber num}.

(** A layer object.  Its weights and biases are whatever matrices the
    constructor drew; a method that throws leaves the model (the fields it
    had assigned before are not followed further). *)
Record Layer := mkLayer {
  inputSize : nat;
  outputSize : nat;
  weights : Matrix num;
  biases : Matrix num;
  activation : ActivationFunction num;
  useBias : bool;
  lastInput : option (Matrix num);
  lastZ : option (Matrix num);
  lastA : option (Matrix num);
  dWeights : option (Matrix num);
  dBiases : option (Matrix num)
}.

(** The loop of [forward] that adds the bias to every column of [z]. *)
Definition add_bias (biases z : Matrix num) : outcome (Matrix num) :=
  for_ (cols z) (λ col z,
    for_ (rows z) (λ row z,
      a ← rd z row col;
      b ← rd biases row 0;
      wr z row col (nadd a b)) z) z.

(** [layer.forward(input)]: the returned matrix and the layer after the
    call. *)
Definition Layer_forward (this : Layer) (input : Matrix num)
  : outcome (Matrix num * Layer) :=
  if decide (rows input ≠ inputSize this) then
    Throw (Error ("Input size mismatch: expected " +:+ pretty (inputSize this) +:+
                  ", got " +:+ pretty (rows input)))
  else
    lastInput ← copy input;
    z ← multiply (weights this) input;
    z ← (if useBias this then add_bias (biases this) z else Ok z);
    lastZ ← copy z;
    a ← act_forward (activation this) z;
    lastA ← copy a;
    Ok (a, mkLayer (inputSize this) (outputSize this) (weights this)
             (biases this) (activation this) (useBias this)
             (Some lastInput) (Some lastZ) (Some lastA)
             (dWeights this) (dBiases this)).

(** The loop of [backward] that sums every row of [dZ] over the batch. *)
Definition bias_gradient (batchSize : num) (dZ dBiases : Matrix num)
  : outcome (Matrix num) :=
  for_ (rows dZ) (λ row dBiases,
    sum ← for_ (cols dZ) (λ col sum, v ← rd dZ row col; Ok (nadd sum v)) (lit 0);
    wr dBiases row 0 (ndiv sum batchSize)) dBiases.

(** [layer.backward(dLoss)] *)
Definition Layer_backward (this : Layer) (dLoss : Matrix num)
  : outcome (Matrix num * Layer) :=
  match lastInput this, lastZ this, lastA this with
  | Some lastInput, Some lastZ, Some _ =>
      if decide (rows dLoss ≠ outputSize this) then
        Throw (Error ("Gradient size mismatch: expected " +:+
                      pretty (outputSize this) +:+ ", got " +:+
                      pretty (rows dLoss)))
      else
        let batchSize := lit (Z.of_nat (cols lastInput)) in
        activationGradient ← act_backward (activation this) lastZ;
        dZ ← hadamard dLoss activationGradient;
        transposed ← transpose lastInput;
        product ← multiply dZ transposed;
        dWeights ← scale product (ndiv (lit 1) batchSize);
        dBiases ← (if useBias this then
                     dBiases ← zeros (outputSize this) 1;
                     Some <$> bias_gradient batchSize dZ dBiases
                   else Ok (dBiases this));
        weightsT ← transpose (weights this);
        dInput ← multiply weightsT dZ;
        Ok (dInput, mkLayer (inputSize this) (outputSize this) (weights this)
                      (biases this) (activation this) (useBias this)
                      (Some lastInput) (Some lastZ) (lastA this)
                      (Some dWeights) dBiases)
  | _, _, _ =>
      Throw (Error "Forward pass must be called before backward pass")
  end.

(** [layer.updateWeights(learningRate)] *)
Definition updateWeights (this : Layer) (learningRate : num) : outcome Layer :=
  match dWeights this with
  | None => Throw (Error "Backward pass must be called before updating weights")
  | Some dW =>
      step ← scale dW learningRate;
      weights ← subtract (weights this) step;
      biases ← (if useBias this then
                  match dBiases this with
                  | Some dB =>
                      step ← scale dB learningRate;
                      subtract (biases this) step
                  | None => Ok (biases this)
                  end
                else Ok (biases this));
      Ok (mkLayer (inputSize this) (outputSize this) weights biases
            (activation this) (useBias this)
            (lastInput this) (lastZ this) (lastA this)
            (dWeights this) (dBiases this))
  end.

(** [layer.resetGradients()] *)
Definition resetGradients (this : Layer) : Layer :=
  mkLayer (inputSize this) (outputSize this) (weights this) (biases this)
    (activation this) (useBias this)
    (lastInput this) (lastZ this) (lastA this) None None.

End Layers.
Arguments Layer num : clear implicits.

(** ** ExecutionEngine.ts *)

Inductive ExecutionMode := Forward | Backward | Idle.

Section Engine.
Context {num : Type} `{JSNumber num}.

Record StepInfo := mkStep {
  step_mode : ExecutionMode;
  nodeId : string;
  nodeName : string;
  equation : string;
  explanation : string;
  values : gmap string num;
  activeNodeIds : list string;
  activeEdgeIds : list string
}.

Definition set_equation (eq : string) (vals : gmap string num) (s : StepInfo)
  : StepInfo :=
  mkStep (step_mode s) (nodeId s) (nodeName s) eq (explanation s) vals
         (activeNodeIds s) (activeEdgeIds s).

Record ExecutionState := mkState {
  state_mode : ExecutionMode;
  currentStep : Z;
  totalSteps : nat;
  activeNodes : gset string;
  steps : list StepInfo;
  isComplete : bool
}.

(** The engine object together with the graph it refers to and the node
    objects of that graph. *)
Record ExecutionEngine := mkEngine {
  heap : list (ComputationNode num);
  graph : ComputationGraph;
  forwardSteps : list StepInfo;
  backwardSteps : list StepInfo;
  currentStepIndex : Z;
  mode : ExecutionMode;
  pendingGradients : gmap string num
}.

(** [node.backwardLocal(upstreamGradient)], the method stepForward calls on
    the stepped node: it may update node objects and returns an object
    mapping input ids to gradients. *)
Variable backwardLocal :
  list (ComputationNode num) → nat → num →
  list (ComputationNode num) * gmap string num.

Definition forward_skeleton (h : list (ComputationNode num)) (node : nat)
  : StepInfo :=
  let n := deref h node in
  let inputNodeIds := (λ inp, id (deref h inp)) <$> inputs n in
  let edgeIds := (λ inputId, inputId +:+ "-" +:+ id n) <$> inputNodeIds in
  mkStep Forward (id n) (name n) "" (getExplanation h n) ∅
         (inputNodeIds ++ [id n]) edgeIds.

Definition backward_skeleton (h : list (ComputationNode num)) (node : nat)
  : StepInfo :=
  let n := deref h node in
  let inputNodeIds := (λ inp, id (deref h inp)) <$> inputs n in
  let edgeIds := (λ inputId, id n +:+ "-" +:+ inputId) <$> inputNodeIds in
  mkStep Backward (id n) (name n) ""
         ("Computing gradients: " +:+ getExplanation h n) ∅
         (id n :: inputNodeIds) edgeIds.

Definition generateSteps (e : ExecutionEngine) : ExecutionEngine :=
  mkEngine (heap e) (graph e)
    (forward_skeleton (heap e) <$> executionOrder (graph e))
    (backward_skeleton (heap e) <$> reverse (executionOrder (graph e)))
    (currentStepIndex e) (mode e) (pendingGradients e).

Definition reset (e : ExecutionEngine) : ExecutionEngine :=
  generateSteps
    (mkEngine (graph_reset (heap e) (graph e)) (graph e)
       (forwardSteps e) (backwardSteps e) (-1) Idle ∅).

(** [new ExecutionEngine(graph)] *)
Definition new_engine (h : list (ComputationNode num)) (g : ComputationGraph)
  : ExecutionEngine :=
  reset (mkEngine h g [] [] (-1) Idle ∅).

(** [{ output: node.value, ...Object.fromEntries(node.inputs.map(...)) }] *)
Definition forward_values (h : list (ComputationNode num))
    (n : ComputationNode num) : gmap string num :=
  foldl (λ vals inp, <[name (deref h inp) := value (deref h inp)]> vals)
        {["output" := value n]} (inputs n).

(** [map.get(key) || 0] *)
Definition get_or_0 (m : gmap string num) (key : string) : num :=
  default (lit 0) (m !! key).

Definition backward_values (h : list (ComputationNode num))
    (pending : gmap string num) (n : ComputationNode num) : gmap string num :=
  foldl (λ vals inp,
           <["grad_" +:+ name (deref h inp) := get_or_0 pending (id (deref h inp))]> vals)
        (<["value" := value n]> {["gradient" := gradient n]}) (inputs n).

(** The loop over [Object.entries(inputGradients)]. *)
Definition accumulate (pending inputGradients : gmap string num)
  : gmap string num :=
  map_fold (λ inputId grad pending,
              let currentGrad := get_or_0 pending inputId in
              <[inputId := nadd currentGrad grad]> pending)
           pending inputGradients.

(** The forward branch of stepForward, at step [i] on the node [node]. *)
Definition step_forward_phase (e : ExecutionEngine) (i : nat) (node : nat)
  : ExecutionEngine :=
  let h := forward (heap e) node in
  let h := alter (set_isActive true) node h in
  let n := deref h node in
  mkEngine h (graph e)
    (alter (set_equation (getForwardEquation h n) (forward_values h n)) i
           (forwardSteps e))
    (backwardSteps e) (currentStepIndex e) (mode e) (pendingGradients e).

(** The backward branch of stepForward, at backward step [backwardIndex]. *)
Definition step_backward_phase (e : ExecutionEngine) (backwardIndex : nat)
    (node : nat) : ExecutionEngine :=
  let pending :=
    if decide (backwardIndex = 0)
    then {[id (deref (heap e) node) := lit 1]}
    else pendingGradients e in
  let upstreamGradient := get_or_0 pending (id (deref (heap e) node)) in
  let '(h, inputGradients) := backwardLocal (heap e) node upstreamGradient in
  let pending := accumulate pending inputGradients in
  let h := alter (set_isActive true) node h in
  let n := deref h node in
  mkEngine h (graph e) (forwardSteps e)
    (alter (set_equation (getBackwardEquation h n) (backward_values h pending n))
           backwardIndex (backwardSteps e))
    (currentStepIndex e) (mode e) pending.

Definition stepForward (e : ExecutionEngine) : outcome (bool * ExecutionEngine) :=
  let allSteps := forwardSteps e ++ backwardSteps e in
  if decide (currentStepIndex e >= Z.of_nat (length allSteps) - 1)%Z then
    Ok (false, e)
  else
    let index := (currentStepIndex e + 1)%Z in
    match (if decide (0 ≤ index)%Z then allSteps !! Z.to_nat index else None) with
    | None => Throw TypeError
    | Some currentStep =>
        let e := mkEngine (heap e) (graph e) (forwardSteps e) (backwardSteps e)
                          index (step_mode currentStep) (pendingGradients e) in
        match nodes (graph e) !! nodeId currentStep with
        | None => Ok (true, e)
        | Some node =>
            if decide (Z.to_nat index < length (forwardSteps e)) then
              Ok (true, step_forward_phase e (Z.to_nat index) node)
            else
              let backwardIndex := Z.to_nat index - length (forwardSteps e) in
              Ok (true, step_backward_phase e backwardIndex node)
        end
    end.

(** [n] calls of stepForward in a row, the results discarded. *)
Definition stepForward_times (n : nat) (e : ExecutionEngine)
  : outcome ExecutionEngine :=
  for_ n (λ _ e, r ← stepForward e; Ok r.2) e.

Definition jumpToStep (e : ExecutionEngine) (stepIndex : Z)
  : outcome ExecutionEngine :=
  let allSteps := forwardSteps e ++ backwardSteps e in
  if decide (stepIndex < 0 ∨ stepIndex >= Z.of_nat (length allSteps))%Z then Ok e
  else
    let e := mkEngine (graph_reset (heap e) (graph e)) (graph e)
                      (forwardSteps e) (backwardSteps e) (-1) (mode e)
                      (pendingGradients e) in
    stepForward_times (Z.to_nat (stepIndex + 1)) e.

Definition getState (e : ExecutionEngine) : ExecutionState :=
  let allSteps := forwardSteps e ++ backwardSteps e in
  let currentStep :=
    if decide (currentStepIndex e >= 0)%Z
    then allSteps !! Z.to_nat (currentStepIndex e) else None in
  let activeNodes :=
    match currentStep with
    | Some s => list_to_set (activeNodeIds s)
    | None => ∅
    end in
  mkState (mode e) (currentStepIndex e) (length allSteps) activeNodes allSteps
          (bool_decide (currentStepIndex e = Z.of_nat (length allSteps) - 1)%Z).

End Engine.
Arguments StepInfo num : clear implicits.
Arguments ExecutionState num : clear implicits.
Arguments ExecutionEngine num : clear implicits.

(** *** ExecutionEngine.ts: the other methods *)

Section EngineNavigation.
Context {num : Type} `{JSNumber num}.

(** [executeForward()] *)
Definition executeForward (e : ExecutionEngine num) : ExecutionEngine num :=
  generateSteps
    (mkEngine (graph_forward (heap e) (graph e)).1 (graph e)
       (forwardSteps e) (backwardSteps e) (currentStepIndex e) (mode e)
       (pendingGradients e)).

(** [executeBackward()] *)
Definition executeBackward (e : ExecutionEngine num) : ExecutionEngine num :=
  generateSteps
    (mkEngine (graph_backward (heap e) (graph e)) (graph e)
       (forwardSteps e) (backwardSteps e) (currentStepIndex e) (mode e)
       (pendingGradients e)).

(** The loop of stepBackward over [currentStep.activeNodeIds]. *)
Definition deactivate (g : ComputationGraph) (h : list (ComputationNode num))
    (activeNodeIds : list string) : list (ComputationNode num) :=
  foldl (λ h nodeId,
           match nodes g !! nodeId with
           | Some node => alter (set_isActive false) node h
           | None => h
           end) h activeNodeIds.

Definition stepBackward (e : ExecutionEngine num)
  : outcome (bool * ExecutionEngine num) :=
  if decide (currentStepIndex e < 0)%Z then Ok (false, e)
  else
    let allSteps := forwardSteps e ++ backwardSteps e in
    match allSteps !! Z.to_nat (currentStepIndex e) with
    | None => Throw TypeError
    | Some currentStep =>
        let h := deactivate (graph e) (heap e) (activeNodeIds currentStep) in
        let index := (currentStepIndex e - 1)%Z in
        if decide (index < 0)%Z then
          Ok (true, mkEngine (graph_reset h (graph e)) (graph e)
                      (forwardSteps e) (backwardSteps e) index Idle
                      (pendingGradients e))
        else
          match allSteps !! Z.to_nat index with
          | None => Throw TypeError
          | Some newStep =>
              Ok (true, mkEngine h (graph e) (forwardSteps e) (backwardSteps e)
                          index (step_mode newStep) (pendingGradients e))
          end
    end.

(** [getCurrentStep()] *)
Definition getCurrentStep (e : ExecutionEngine num) : option (StepInfo num) :=
  let allSteps := forwardSteps e ++ backwardSteps e in
  if decide (currentStepIndex e >= 0 ∧
             currentStepIndex e < Z.of_nat (length allSteps))%Z
  then allSteps !! Z.to_nat (currentStepIndex e)
  else None.

(** [getAllSteps()] *)
Definition getAllSteps (e : ExecutionEngine num) : list (StepInfo num) :=
  forwardSteps e ++ backwardSteps e.

(** [isAtStart()] *)
Definition isAtStart (e : ExecutionEngine num) : bool :=
  bool_decide (currentStepIndex e < 0)%Z.

(** [isAtEnd()] *)
Definition isAtEnd (e : ExecutionEngine num) : bool :=
  let totalSteps := length (forwardSteps e) + length (backwardSteps e) in
  bool_decide (currentStepIndex e >= Z.of_nat totalSteps - 1)%Z.

End EngineNavigation.

Section EnginePlay.
Context {num : Type} `{JSNumber num}.
Variable backwardLocal :
  list (ComputationNode num) → nat → num →
  list (ComputationNode num) * gmap string num.

(** The loop of [playAll], [while (!this.isAtEnd()) this.stepForward()],
    when no [onStep] callback is given and nothing else touches the engine
    while the loop waits between two steps (the delay is not modelled).
    [fuel] bounds the number of iterations; the result is [None] when it
    runs out. *)
Fixpoint playAll (fuel : nat) (e : ExecutionEngine num)
  : outcome (option (ExecutionEngine num)) :=
  if isAtEnd e then Ok (Some e)
  else
    match fuel with
    | 0 => Ok None
    | S fuel => r ← stepForward backwardLocal e; playAll fuel r.2
    end.

End EnginePlay.

(** ** The local backward rule of the engine *)

Section BackwardLocal.
Context {num : Type} `{JSNumber num}.

(** Modelled from the spec: an entry of the object [backwardLocal] returns,
    keyed by the id of an input; the contributions to two inputs with one id
    add up in it. *)
Definition add_entry (key : string) (grad : num) (obj : gmap string num)
  : gmap string num :=
  <[key := match obj !! key with Some g => nadd g grad | None => grad end]> obj.

(** Modelled from the spec: the method [backwardLocal] of the node classes,
    which ExecutionEngine.stepForward calls, is missing from the sources (the
    node classes at hand define the recursive [backward] only).  Following
    section 4.5 it computes the local gradient contribution of the node to
    each of its inputs by the same per-variant rule as [backward]
    ([local_gradients]) and changes no node; the contributions are returned
    keyed by input id, as stepForward reads them. *)
Definition backwardLocal_spec (h : list (ComputationNode num)) (node : nat)
    (upstream : num) : list (ComputationNode num) * gmap string num :=
  (h, foldl (λ obj entry, add_entry (id (deref h entry.1)) entry.2 obj) ∅
            (local_gradients h (deref h node) upstream)).

End BackwardLocal.

(** ** The rationals as numbers *)

(** A polynomial stand-in for [Math.exp] on the rationals (the Taylor
    polynomial of degree 12); no example below contains a Sigmoid node. *)
Definition Qc_exp (x : Qc) : Qc :=
  foldr (λ k acc, 1 + x / Q2Qc (inject_Z k) * acc)%Qc 1%Qc (Z.of_nat <$> seq 1 12).

(** [x.toFixed(3)]: the sign, then the absolute value rounded to the nearest
    thousandth (the larger one on a tie). *)
Definition Qc_toFixed3 (x : Qc) : string :=
  let n := Qfloor (Qabs (this x) * 1000 + (1 # 2)) in
  let frac := (n mod 1000)%Z in
  (if bool_decide (x < 0)%Qc then "-" else "") +:+
  pretty (n / 1000)%Z +:+ "." +:+
  (if bool_decide (frac < 10)%Z then "00"
   else if bool_decide (frac < 100)%Z then "0" else "") +:+
  pretty frac.

#[global] Instance Qc_number : JSNumber Qc := {|
  lit z := Q2Qc (inject_Z z);
  nadd := Qcplus;
  nsub := Qcminus;
  nmul := Qcmult;
  ndiv := Qcdiv;
  nneg := Qcopp;
  Math_exp := Qc_exp;
  gt a b := bool_decide (b < a)%Qc;
  toFixed3 := Qc_toFixed3
|}.

(** ** Specification-side notions for matrices *)

Section MatrixSpec.
Context {num : Type} `{JSNumber num}.

(** The class invariant the constructor establishes on the outer array. *)
Definition has_rows (m : Matrix num) : Prop := length (data m) = rows m.

(** A rectangular [r] by [c] matrix. *)
Definition shaped (r c : nat) (m : Matrix num) : Prop :=
  rows m = r ∧ cols m = c ∧ length (data m) = r ∧
  Forall (λ row, length row = c) (data m).

(** The element in row [i] and column [j]. *)
Definition cellAt (m : Matrix num) (i j : nat) : num :=
  default (lit 0) (data m !! i ≫= (.!! j)).

(** The [r] by [c] array of the values [f i j]. *)
Definition tabulate (r c : nat) (f : nat → nat → num) : list (list num) :=
  (λ i, f i <$> seq 0 c) <$> seq 0 r.

(** A call ended without an exception, in a state satisfying [P] if it
    returned. *)
Definition no_throw {A} (P : A → Prop) (r : outcome A) : Prop :=
  match r with
  | Ok a => P a
  | Throw _ => False
  | OffModel => True
  end.

(** The message of a dimension error names both shapes. *)
Definition names_shapes (e : exn) (A B : Matrix num) : Prop :=
  ∃ msg, e = Error msg ∧
         contains msg (dims (rows A) (cols A)) ∧
         contains msg (dims (rows B) (cols B)).

(** [predicted - target], as the code computes it. *)
Definition difference (p t : Matrix num) (i j : nat) : num :=
  nadd (cellAt p i j) (nmul (cellAt t i j) (lit (-1))).

End MatrixSpec.

(** The mean of the elementwise squared differences, over the rationals. *)
Definition Qc_sum (l : list Qc) : Qc := foldr Qcplus (Q2Qc 0) l.

Definition squared_differences (p t : Matrix Qc) : list Qc :=
  i ← seq 0 (rows p); j ← seq 0 (cols p);
  [((cellAt p i j - cellAt t i j) ^ 2)%Qc].

Definition mean_squared_difference (p t : Matrix Qc) : Qc :=
  (Qc_sum (squared_differences p t) /
   Q2Qc (inject_Z (Z.of_nat (rows p * cols p))))%Qc.

(** ** Specification-side notions for graphs *)

Section GraphSpec.
Context {num : Type} `{JSNumber num}.

(** The ids of a list of nodes. *)
Definition ids_of (h : list (ComputationNode num)) (l : list nat) : gset string :=
  list_to_set ((λ r, id (deref h r)) <$> l).

(** Every node of [order] comes strictly after each of its inputs. *)
Definition inputs_first (h : list (ComputationNode num)) (order : list nat)
  : Prop :=
  ∀ k r, order !! k = Some r →
    ∀ i, i ∈ inputs (deref h r) → ∃ j, j < k ∧ order !! j = Some i.

(** What [visit] keeps true of [order] ... *)
Definition order_ok (h : list (ComputationNode num)) (order : list nat) : Prop :=
  NoDup order ∧ (∀ x, x ∈ order → x < length h) ∧ inputs_first h order.

(** ... and of [visited]: the nodes of [order] are visited, and a visited
    node that ranks below [bound] is in [order] (the nodes whose visit is
    under way rank at or above the bound). *)
Definition visited_ok (h : list (ComputationNode num)) (rank : nat → nat)
    (bound : nat) (st : gset string * list nat) : Prop :=
  (∀ x, x ∈ st.2 → id (deref h x) ∈ st.1) ∧
  (∀ x, rank x < bound → x < length h → id (deref h x) ∈ st.1 → x ∈ st.2).

(** The number of nodes of the heap that rank below [r]. *)
Definition height (h : list (ComputationNode num)) (rank : nat → nat) (r : nat)
  : nat :=
  length (filter (λ x, rank x < rank r) (seq 0 (length h))).

(** The value of node [r] agrees with the values of its inputs. *)
Definition settled (h : list (ComputationNode num)) (r : nat) : Prop :=
  ∀ n, h !! r = Some n → forward_node h n = n.

(** The graph has no output node: none was ever set. *)
Definition no_output (g : ComputationGraph) : Prop :=
  outputNode g = None ∧ executionOrder g = [].

End GraphSpec.

(** ** Specification-side notions for the further properties *)

Section MatrixProducts.
Context {num : Type} `{JSNumber num}.

(** The sum over [k < n] of [A[i][k] * B[k][j]], added up from 0 in the
    order of [k]. *)
Definition dot (A B : Matrix num) (n i j : nat) : num :=
  foldl (λ sum k, nadd sum (nmul (cellAt A i k) (cellAt B k j))) (lit 0)
        (seq 0 n).

End MatrixProducts.

Section LayerSpec.
Context {num : Type} `{JSNumber num}.

(** The sums of the backward pass of a layer: element [(i, j)] of the
    product of the transpose of [A] with [B] ... *)
Definition dot_transposed_l (A B : Matrix num) (n i j : nat) : num :=
  foldl (λ sum k, nadd sum (nmul (cellAt A k i) (cellAt B k j))) (lit 0)
        (seq 0 n).

(** ... of the product of [A] with the transpose of [B] ... *)
Definition dot_transposed_r (A B : Matrix num) (n i j : nat) : num :=
  foldl (λ sum k, nadd sum (nmul (cellAt A i k) (cellAt B j k))) (lit 0)
        (seq 0 n).

(** ... and the sum of row [i] of [A]. *)
Definition row_sum (A : Matrix num) (n i : nat) : num :=
  foldl (λ sum col, nadd sum (cellAt A i col)) (lit 0) (seq 0 n).

(** The pre-activation [W x + b] of a layer (without the bias when the
    layer does not use it). *)
Definition pre_activation (l : Layer num) (input : Matrix num) : Matrix num :=
  mkMatrix (outputSize l) (cols input)
    (if useBias l then
       tabulate (outputSize l) (cols input) (λ i j,
         nadd (dot (weights l) input (inputSize l) i j) (cellAt (biases l) i 0))
     else
       tabulate (outputSize l) (cols input)
         (dot (weights l) input (inputSize l))).

(** The gradient with respect to the pre-activation: the gradient of the
    loss times the derivative of the activation, elementwise. *)
Definition pre_activation_gradient (dLoss g : Matrix num) : Matrix num :=
  mkMatrix (rows dLoss) (cols dLoss)
    (tabulate (rows dLoss) (cols dLoss)
       (λ i j, nmul (cellAt dLoss i j) (cellAt g i j))).

End LayerSpec.

Section GraphSemantics.
Context {num : Type} `{JSNumber num}.

(** The value of the expression rooted at node [r]: the stored value of an
    input or parameter, and the operation of the node applied to the values
    of the expressions of its inputs.  [fuel] bounds the depth. *)
Fixpoint denote (fuel : nat) (h : list (ComputationNode num)) (r : nat) : num :=
  match fuel with
  | 0 => value (deref h r)
  | S fuel =>
      match class (deref h r) with
      | InputNode | ParameterNode => value (deref h r)
      | MultiplyNode a b => nmul (denote fuel h a) (denote fuel h b)
      | AddNode a b => nadd (denote fuel h a) (denote fuel h b)
      | SigmoidNode a =>
          ndiv (lit 1) (nadd (lit 1) (Math_exp (nneg (denote fuel h a))))
      | ReLUNode a => Math_max (lit 0) (denote fuel h a)
      | SquareNode a => nmul (denote fuel h a) (denote fuel h a)
      | SubtractNode a b => nsub (denote fuel h a) (denote fuel h b)
      | MaxNode a b => Math_max (denote fuel h a) (denote fuel h b)
      end
  end.

(** Two heaps hold the same nodes up to the fields the forward pass
    writes ... *)
Definition same_but_values (h h' : list (ComputationNode num)) : Prop :=
  (set_maxIndex 0 ∘ set_value (lit 0)) <$> h'
  = (set_maxIndex 0 ∘ set_value (lit 0)) <$> h.

(** ... up to the field the backward pass writes ... *)
Definition same_but_gradients (h h' : list (ComputationNode num)) : Prop :=
  set_gradient (lit 0) <$> h' = set_gradient (lit 0) <$> h.

(** ... and up to the highlighting flag. *)
Definition same_but_active (h h' : list (ComputationNode num)) : Prop :=
  set_isActive false <$> h' = set_isActive false <$> h.

End GraphSemantics.

Section EngineSpec.
Context {num : Type} `{JSNumber num}.

(** A step record without what executing the step writes into it. *)
Definition skeleton (s : StepInfo num) : StepInfo num := set_equation "" ∅ s.

(** The mode that goes with the position of the cursor. *)
Definition phase (e : ExecutionEngine num) : ExecutionMode :=
  if decide (currentStepIndex e < 0)%Z then Idle
  else if decide (currentStepIndex e < Z.of_nat (length (forwardSteps e)))%Z
       then Forward
       else Backward.

(** The step lists are as generateSteps builds them, and the cursor is
    before the first step or at a step. *)
Definition steps_ok (e : ExecutionEngine num) : Prop :=
  (-1 ≤ currentStepIndex e
   < Z.of_nat (length (forwardSteps e ++ backwardSteps e)))%Z ∧
  Forall (λ s, step_mode s = Forward) (forwardSteps e) ∧
  Forall (λ s, step_mode s = Backward) (backwardSteps e).

(** The engine is in step: moreover its mode is the one of the cursor
    position. *)
Definition in_step (e : ExecutionEngine num) : Prop :=
  steps_ok e ∧ mode e = phase e.

End EngineSpec.

(** ** Examples *)

(** [out = m + x] with [m = x * y], [x = 2], [y = 3]: the input [x] has the
    two consumers [m] and [out]. *)
Definition shared_heap : list (ComputationNode Qc) :=
  [ mkNode "x" InputNode "x" (lit 2) (lit 0) false 0;
    mkNode "y" InputNode "y" (lit 3) (lit 0) false 0;
    mkNode "m" (MultiplyNode 0 1) "m" (lit 0) (lit 0) false 0;
    mkNode "out" (AddNode 2 0) "out" (lit 0) (lit 0) false 0 ].

Definition shared_graph : ComputationGraph :=
  setOutput shared_heap
    (foldl (addNode shared_heap) new_graph [0; 1; 2; 3]) 3.

(** [z = max(a, b)] with [a = b = 2]. *)
Definition tie_heap : list (ComputationNode Qc) :=
  [ mkNode "a" InputNode "a" (lit 2) (lit 0) false 0;
    mkNode "b" InputNode "b" (lit 2) (lit 0) false 0;
    mkNode "z" (MaxNode 0 1) "z" (lit 0) (lit 0) false 0 ].

(** [m = max(z, w)] with [z = 2] and [w = -1]. *)
Definition max_heap : list (ComputationNode Qc) :=
  [ mkNode "z" InputNode "z" (lit 2) (lit 0) false 0;
    mkNode "w" InputNode "w" (lit (-1)) (lit 0) false 0;
    mkNode "m" (MaxNode 0 1) "m" (lit 0) (lit 0) false 0 ].

(** The gradient contributions a node receives from its consumers: for
    every node of the heap that has [x] among its inputs, the local rule
    applied to the gradient that consumer holds. *)
Definition consumer_contributions (h : list (ComputationNode Qc)) (x : nat)
  : list Qc :=
  consumer ← h;
  (filter (λ entry, entry.1 = x)
          (local_gradients h consumer (gradient consumer))).*2.

(** The engine of [shared_graph] after its four forward steps and the first
    backward step (of the output node). *)
Definition shared_engine_mid : outcome (ExecutionEngine Qc) :=
  stepForward_times backwardLocal_spec 5 (new_engine shared_heap shared_graph).


(** The engine of [shared_graph] after its first two steps, the forward
    steps of [x] and [y]; no backward step has run, so whatever
    [backwardLocal] does plays no part. *)
Definition shared_two_steps
    (backwardLocal : list (ComputationNode Qc) → nat → Qc →
                     list (ComputationNode Qc) * gmap string Qc)
  : outcome (ExecutionEngine Qc) :=
  stepForward_times backwardLocal 2 (new_engine shared_heap shared_graph).

(** [shared_two_steps], then [jumpToStep(0)]. *)
Definition shared_jumped
    (backwardLocal : list (ComputationNode Qc) → nat → Qc →
                     list (ComputationNode Qc) * gmap string Qc)
  : outcome (ExecutionEngine Qc) :=
  e ← shared_two_steps backwardLocal; jumpToStep backwardLocal e 0.

(** [shared_two_steps], then [reset()] and one [stepForward()]. *)
Definition shared_replayed
    (backwardLocal : list (ComputationNode Qc) → nat → Qc →
                     list (ComputationNode Qc) * gmap string Qc)
  : outcome (ExecutionEngine Qc) :=
  e ← shared_two_steps backwardLocal;
  stepForward_times backwardLocal 1 (reset e).

(** The state [shared_engine_mid] ends in. *)
Definition shared_engine_mid_state : ExecutionEngine Qc :=
  match shared_engine_mid with
  | Ok e => e
  | _ => new_engine shared_heap shared_graph
  end.

(** An engine on a graph of two registered nodes and no output. *)
Definition no_output_engine : ExecutionEngine Qc :=
  new_engine tie_heap (foldl (addNode tie_heap) new_graph [0; 1]).

(** * Properties *)

(** ** Loops *)

Section Loops.
Context {S : Type}.
Implicit Types (body : nat → S → outcome S) (s : S).

Lemma for_0 body s : for_ 0 body s = Ok s.
Proof. reflexivity. Qed.

Lemma for_S n body s : for_ (Datatypes.S n) body s = for_ n body s ≫= body n.
Proof. unfold for_. by rewrite seq_S, foldl_app. Qed.

(** An invariant that every iteration re-establishes holds after the loop. *)
Lemma for_invariant (P : nat → S → Prop) n body s :
  P 0 s →
  (∀ i s, i < n → P i s → ∃ s', body i s = Ok s' ∧ P (Datatypes.S i) s') →
  ∃ s', for_ n body s = Ok s' ∧ P n s'.
Proof.
  intros H0 Hstep. induction n as [|n IH].
  - exists s. by rewrite for_0.
  - destruct IH as (s1 & Hs1 & HP); [intros; apply Hstep; [lia|done]|].
    destruct (Hstep n s1) as (s2 & Hs2 & HP2); [lia|done|].
    exists s2. by rewrite for_S, Hs1.
Qed.

(** A loop whose iterations do not throw does not throw. *)
Lemma for_no_throw (P : S → Prop) n body s :
  P s →
  (∀ i s, i < n → P s → no_throw P (body i s)) →
  no_throw P (for_ n body s).
Proof.
  intros H0 Hstep. induction n as [|n IH]; [done|].
  rewrite for_S.
  assert (no_throw P (for_ n body s)) as Hn
    by (apply IH; intros; apply Hstep; [lia|done]).
  destruct (for_ n body s) as [s1| |]; [|done..].
  apply Hstep; [lia|done].
Qed.

End Loops.

(** ** Matrix.ts *)

Section MatrixFacts.
Context {num : Type} `{JSNumber num}.
Implicit Types (m : Matrix num) (f : nat → nat → num).

Lemma tabulate_length r c f : length (tabulate r c f) = r.
Proof. unfold tabulate. by rewrite length_fmap, length_seq. Qed.

Lemma tabulate_lookup r c f i :
  i < r → tabulate r c f !! i = Some (f i <$> seq 0 c).
Proof.
  intros Hi. unfold tabulate. rewrite list_lookup_fmap, lookup_seq_lt by done.
  done.
Qed.

Lemma shaped_tabulate r c f : shaped r c (mkMatrix r c (tabulate r c f)).
Proof.
  repeat split; simpl; [apply tabulate_length|].
  apply Forall_forall. intros row Hrow. unfold tabulate in Hrow.
  apply list_elem_of_fmap in Hrow as (i & -> & _).
  by rewrite length_fmap, length_seq.
Qed.

Lemma cellAt_tabulate r c f i j :
  i < r → j < c → cellAt (mkMatrix r c (tabulate r c f)) i j = f i j.
Proof.
  intros Hi Hj. unfold cellAt. simpl. rewrite tabulate_lookup by done. simpl.
  by rewrite list_lookup_fmap, lookup_seq_lt.
Qed.

Lemma shaped_zeros r c :
  shaped r c (mkMatrix r c (replicate r (replicate c (lit 0)))).
Proof.
  repeat split; simpl; [apply length_replicate|].
  apply Forall_forall. intros row Hrow.
  apply elem_of_replicate in Hrow as [-> _]. apply length_replicate.
Qed.

Lemma shaped_row r c m i :
  shaped r c m → i < r → ∃ row, data m !! i = Some row ∧ length row = c.
Proof.
  intros (_ & _ & Hlen & Hrows) Hi.
  destruct (lookup_lt_is_Some_2 (data m) i) as [row Hrow]; [lia|].
  exists row. split; [done|].
  by eapply (Forall_lookup_1 _ _ _ _ Hrows).
Qed.

Lemma rd_shaped r c m i j :
  shaped r c m → i < r → j < c → rd m i j = Ok (cellAt m i j).
Proof.
  intros Hm Hi Hj. destruct (shaped_row r c m i Hm Hi) as (row & Hrow & Hlen).
  destruct (lookup_lt_is_Some_2 row j) as [v Hv]; [lia|].
  unfold rd, cellAt. rewrite Hrow. simpl. by rewrite Hv.
Qed.

Lemma rd_no_throw m i j : has_rows m → i < rows m → no_throw (λ _, True) (rd m i j).
Proof.
  intros Hm Hi. unfold rd.
  destruct (lookup_lt_is_Some_2 (data m) i) as [row ->]; [by rewrite Hm|].
  by destruct (row !! j).
Qed.

Lemma wr_in_range m i j v row :
  data m !! i = Some row → j < length row →
  wr m i j v = Ok (mkMatrix (rows m) (cols m) (<[i := <[j := v]> row]> (data m))).
Proof. intros Hrow Hj. unfold wr. rewrite Hrow. by rewrite decide_True. Qed.

Lemma wr_shaped r c m i j v :
  shaped r c m → i < r → j < c → no_throw (shaped r c) (wr m i j v).
Proof.
  intros Hm Hi Hj. destruct (shaped_row r c m i Hm Hi) as (row & Hrow & Hlen).
  rewrite (wr_in_range m i j v row) by (done || lia).
  destruct Hm as (Hr & Hc & Hl & Hall). repeat split; simpl; [done..| |].
  - by rewrite length_insert.
  - apply Forall_insert; [done|]. by rewrite length_insert.
Qed.

(** The inner loop of [fill] writes row [i]. *)
Lemma fill_row c (cell : nat → nat → outcome num) f m i row :
  data m !! i = Some row → length row = c →
  (∀ j, j < c → cell i j = Ok (f i j)) →
  for_ c (λ j result, v ← cell i j; wr result i j v) m
  = Ok (mkMatrix (rows m) (cols m) (<[i := f i <$> seq 0 c]> (data m))).
Proof.
  intros Hrow Hlen Hcell.
  destruct (for_invariant
    (λ j m', m' = mkMatrix (rows m) (cols m)
                    (<[i := (f i <$> seq 0 j) ++ drop j row]> (data m)))
    c (λ j result, v ← cell i j; wr result i j v) m) as (m' & Hfor & ->).
  - simpl. rewrite drop_0, list_insert_id by done. by destruct m.
  - intros j m' Hj ->. rewrite Hcell by done.
    destruct (lookup_lt_is_Some_2 row j) as [x Hx]; [lia|].
    eexists. split; [|reflexivity].
    change (Ok (f i j) ≫= _) with
      (wr (mkMatrix (rows m) (cols m)
             (<[i := (f i <$> seq 0 j) ++ drop j row]> (data m))) i j (f i j)).
    rewrite (wr_in_range _ i j (f i j) ((f i <$> seq 0 j) ++ drop j row)).
    + cbn [rows cols data]. rewrite list_insert_insert_eq. do 2 f_equal.
      rewrite seq_S, fmap_app. cbn [fmap list_fmap Nat.add].
      rewrite insert_app_r_alt by (by rewrite length_fmap, length_seq).
      rewrite length_fmap, length_seq, Nat.sub_diag.
      rewrite (drop_S _ _ _ Hx). cbn [insert list_insert].
      by rewrite <- app_assoc.
    + apply list_lookup_insert_eq. by eapply lookup_lt_Some.
    + rewrite length_app, length_fmap, length_seq, length_drop. lia.
  - rewrite Hfor. rewrite drop_ge by lia. by rewrite app_nil_r.
Qed.

(** [fill] on a rectangular result computes the table of its cells. *)
Lemma fill_tabulate r c (cell : nat → nat → outcome num) f m :
  shaped r c m →
  (∀ i j, i < r → j < c → cell i j = Ok (f i j)) →
  fill r c cell m = Ok (mkMatrix r c (tabulate r c f)).
Proof.
  intros Hm Hcell. unfold fill.
  destruct (for_invariant
    (λ i m', m' = mkMatrix r c (tabulate i c f ++ drop i (data m)))
    r (λ i result, for_ c (λ j result, v ← cell i j; wr result i j v) result) m)
    as (m' & Hfor & ->).
  - simpl. rewrite drop_0. destruct Hm as (<- & <- & _). by destruct m.
  - intros i m' Hi ->.
    destruct (shaped_row r c m i Hm Hi) as (row & Hrow & Hlen).
    eexists. split; [|reflexivity].
    rewrite (fill_row c cell f _ i row); [|  |done|by auto].
    + cbn [rows cols data]. f_equal.
      rewrite insert_app_r_alt by (by rewrite tabulate_length).
      rewrite tabulate_length, Nat.sub_diag, (drop_S _ _ _ Hrow).
      cbn [insert list_insert].
      unfold tabulate at 2. rewrite seq_S, fmap_app. cbn [fmap list_fmap Nat.add].
      by rewrite <- app_assoc.
    + cbn [data]. rewrite lookup_app_r by (by rewrite tabulate_length).
      by rewrite tabulate_length, Nat.sub_diag, lookup_drop, Nat.add_0_r.
  - rewrite Hfor. destruct Hm as (_ & _ & Hl & _).
    rewrite drop_ge by lia. by rewrite app_nil_r.
Qed.

(** [fill] does not throw when its cells do not. *)
Lemma fill_no_throw r c (cell : nat → nat → outcome num) m :
  shaped r c m →
  (∀ i j, i < r → j < c → no_throw (λ _, True) (cell i j)) →
  no_throw (shaped r c) (fill r c cell m).
Proof.
  intros Hm Hcell. unfold fill. apply for_no_throw; [done|].
  intros i m1 Hi Hm1. apply for_no_throw; [done|].
  intros j m2 Hj Hm2. specialize (Hcell i j Hi Hj).
  destruct (cell i j) as [v| |]; simpl; [|done..].
  by apply wr_shaped.
Qed.

Lemma no_throw_not_throws {A} (P : A → Prop) (r : outcome A) :
  no_throw P r → ¬ throws r.
Proof. intros Hr [e ->]. done. Qed.

Lemma contains_middle (a s b : string) : contains (a +:+ s +:+ b) s.
Proof. by exists a, b. Qed.

Lemma contains_end (a s : string) : contains (a +:+ s) s.
Proof.
  exists a, "". f_equal. induction s as [|ch s IH]; [done|].
  change (String ch s = String ch (s +:+ "")). by rewrite <- IH.
Qed.

End MatrixFacts.

Section MatrixErrors.
Context {num : Type} `{JSNumber num}.
Implicit Types (A B : Matrix num).

Lemma zeros_ok r c :
  zeros r c = Ok (mkMatrix r c (replicate r (replicate c (lit 0)))).
Proof. reflexivity. Qed.

Lemma multiply_compatible A B :
  has_rows A → has_rows B → cols A = rows B →
  no_throw (shaped (rows A) (cols B)) (multiply A B).
Proof.
  intros HA HB Hdim. unfold multiply. rewrite decide_False by (by intros []).
  rewrite zeros_ok. apply fill_no_throw; [apply shaped_zeros|].
  intros i j Hi Hj. apply for_no_throw; [done|]. intros k sum Hk _.
  pose proof (rd_no_throw A i k HA Hi) as Ha.
  destruct (rd A i k) as [a| |]; [|done..].
  pose proof (rd_no_throw B k j HB) as Hb. rewrite <- Hdim in Hb.
  specialize (Hb Hk). simpl. by destruct (rd B k j).
Qed.

Lemma elementwise_no_throw A B (op : num → num → num) :
  has_rows A → has_rows B → rows A = rows B →
  no_throw (shaped (rows A) (cols A))
    (fill (rows A) (cols A)
       (λ i j, a ← rd A i j; b ← rd B i j; Ok (op a b))
       (mkMatrix (rows A) (cols A)
          (replicate (rows A) (replicate (cols A) (lit 0))))).
Proof.
  intros HA HB Hdim. apply fill_no_throw; [apply shaped_zeros|].
  intros i j Hi Hj.
  pose proof (rd_no_throw A i j HA Hi) as Ha.
  destruct (rd A i j) as [a| |]; [|done..].
  pose proof (rd_no_throw B i j HB) as Hb. rewrite <- Hdim in Hb.
  specialize (Hb Hi). simpl. by destruct (rd B i j).
Qed.

Lemma hadamard_compatible A B :
  has_rows A → has_rows B → rows A = rows B → cols A = cols B →
  no_throw (shaped (rows A) (cols A)) (hadamard A B).
Proof.
  intros HA HB Hr Hc. unfold hadamard. rewrite decide_False by (intros []; done).
  rewrite zeros_ok. by apply elementwise_no_throw.
Qed.

Lemma add_compatible A B :
  has_rows A → has_rows B → rows A = rows B → cols A = cols B →
  no_throw (shaped (rows A) (cols A)) (add A B).
Proof.
  intros HA HB Hr Hc. unfold add. rewrite decide_False by (intros []; done).
  rewrite zeros_ok. by apply elementwise_no_throw.
Qed.

Lemma append_assoc (a b c : string) : a +:+ b +:+ c = (a +:+ b) +:+ c.
Proof.
  induction a as [|ch a IH]; [done|].
  change (String ch (a +:+ b +:+ c) = String ch ((a +:+ b) +:+ c)).
  by rewrite IH.
Qed.

Lemma names_shapes_intro (what : string) A B :
  names_shapes
    (Error (what +:+ dims (rows A) (cols A) +:+ " with " +:+
            dims (rows B) (cols B))) A B.
Proof.
  eexists. split; [done|]. split; [apply contains_middle|].
  rewrite (append_assoc _ " with "), (append_assoc what).
  apply contains_end.
Qed.

(** C8: multiply raises exactly when the inner dimensions differ, hadamard
    and add (with a matrix argument) exactly when the shapes differ; the
    message of every such error contains both operand shapes; a call on
    compatible shapes does not raise.  The matrices are those the constructor
    builds, whose outer array has [rows] rows. *)
Theorem shape_errors A B :
  has_rows A → has_rows B →
  (throws (multiply A B) ↔ cols A ≠ rows B) ∧
  (throws (hadamard A B) ↔ rows A ≠ rows B ∨ cols A ≠ cols B) ∧
  (throws (add A B) ↔ rows A ≠ rows B ∨ cols A ≠ cols B) ∧
  (∀ e, multiply A B = Throw e ∨ hadamard A B = Throw e ∨ add A B = Throw e →
        names_shapes e A B).
Proof.
  intros HA HB.
  assert (∀ e, multiply A B = Throw e → cols A ≠ rows B ∧ names_shapes e A B)
    as Hmul.
  { intros e He. destruct (decide (cols A = rows B)) as [Heq|Hne].
    - by destruct (no_throw_not_throws _ _ (multiply_compatible A B HA HB Heq));
        exists e.
    - split; [done|]. unfold multiply in He. rewrite decide_True in He by done.
      injection He as <-. apply names_shapes_intro. }
  assert (∀ e, hadamard A B = Throw e →
               (rows A ≠ rows B ∨ cols A ≠ cols B) ∧ names_shapes e A B)
    as Hhad.
  { intros e He.
    destruct (decide (rows A ≠ rows B ∨ cols A ≠ cols B)) as [Hne|Heq].
    - split; [done|]. unfold hadamard in He. rewrite decide_True in He by done.
      injection He as <-. apply names_shapes_intro.
    - destruct (decide (rows A = rows B)) as [Hr|Hr]; [|by destruct Heq; left].
      destruct (decide (cols A = cols B)) as [Hc|Hc]; [|by destruct Heq; right].
      by destruct (no_throw_not_throws _ _ (hadamard_compatible A B HA HB Hr Hc));
        exists e. }
  assert (∀ e, add A B = Throw e →
               (rows A ≠ rows B ∨ cols A ≠ cols B) ∧ names_shapes e A B)
    as Hadd.
  { intros e He.
    destruct (decide (rows A ≠ rows B ∨ cols A ≠ cols B)) as [Hne|Heq].
    - split; [done|]. unfold add in He. rewrite decide_True in He by done.
      injection He as <-. apply names_shapes_intro.
    - destruct (decide (rows A = rows B)) as [Hr|Hr]; [|by destruct Heq; left].
      destruct (decide (cols A = cols B)) as [Hc|Hc]; [|by destruct Heq; right].
      by destruct (no_throw_not_throws _ _ (add_compatible A B HA HB Hr Hc));
        exists e. }
  repeat split.
  - intros [e He]. by apply Hmul in He as [? _].
  - intros Hne. unfold multiply. rewrite decide_True by done. by eexists.
  - intros [e He]. by apply Hhad in He as [? _].
  - intros Hne. unfold hadamard. rewrite decide_True by done. by eexists.
  - intros [e He]. by apply Hadd in He as [? _].
  - intros Hne. unfold add. rewrite decide_True by done. by eexists.
  - intros e [He|[He|He]]; [by apply Hmul|by apply Hhad|by apply Hadd].
Qed.

End MatrixErrors.

Section MatrixConstructor.
Context {num : Type} `{JSNumber num}.

Lemma check_data_empty rows cols :
  check_data rows cols ([] : list (list num)) = Throw TypeError.
Proof. unfold check_data. by destruct (decide _). Qed.

Lemma check_data_cons rows cols (row0 : list num) rest :
  (length (row0 :: rest) = rows ∧ length row0 = cols ∧
   check_data rows cols (row0 :: rest) = Ok ()) ∨
  ((length (row0 :: rest) ≠ rows ∨ length row0 ≠ cols) ∧
   throws (check_data rows cols (row0 :: rest))).
Proof.
  unfold check_data.
  destruct (decide (length (row0 :: rest) ≠ rows)) as [Hr|Hr%dec_stable].
  - right. split; [by left|]. by eexists.
  - cbn [first_row_length mbind outcome_bind].
    destruct (decide (length row0 ≠ cols)) as [Hc|Hc%dec_stable].
    + right. split; [by right|]. by eexists.
    + by left.
Qed.

(** The constructor on an explicit [data] array.  With a first row it
    throws exactly when [data.length] differs from [rows] or the length of the
    first row differs from [cols]; rows after the first are never checked, so
    a ragged array is accepted; and the accepted array is stored by reference:
    the new Matrix holds the caller's array itself, no store cell is
    allocated, and what the caller later writes to the array is what the
    Matrix reads.  Without a first row the read of [data[0].length] fails. *)
Theorem constructor_checks (store : gmap nat (list (list num)))
    (rows cols ref : nat) (d : list (list num)) :
  store !! ref = Some d →
  let call := Matrix_constructor store rows cols (Some ref) in
  (d = [] → call = Throw TypeError) ∧
  (d ≠ [] →
     (throws call ↔
      length d ≠ rows ∨ ∃ row0, head d = Some row0 ∧ length row0 ≠ cols)) ∧
  (∀ row0 rest, d = row0 :: rest → length d = rows → length row0 = cols →
     call = Ok (mkMatrixObj rows cols ref, store)) ∧
  (∀ m store', call = Ok (m, store') →
     obj_data m = ref ∧ store' = store ∧
     ∀ d' row col,
       Matrix_get (<[ref := d']> store') m row col = d' !! row ≫= (.!! col)).
Proof.
  intros Hd call. subst call. unfold Matrix_constructor. rewrite Hd.
  split; [|split; [|split]].
  - intros ->. by rewrite check_data_empty.
  - intros Hne. destruct d as [|row0 rest]; [done|].
    destruct (check_data_cons rows cols row0 rest)
      as [(Hr & Hc & ->)|(Hbad & [e ->])].
    + split.
      * by intros [e He].
      * intros [Hbad|(row & [= <-] & Hbad)]; done.
    + split; [|by eexists]. intros _.
      destruct Hbad as [?|?]; [by left|right]. by exists row0.
  - intros row0 rest -> Hr Hc.
    destruct (check_data_cons rows cols row0 rest)
      as [(_ & _ & ->)|([?|?] & _)]; done.
  - intros m store' Hcall.
    destruct (check_data rows cols d); [|done..].
    injection Hcall as <- <-. repeat split.
    intros d' row col. unfold Matrix_get. cbn [obj_data].
    by rewrite lookup_insert_eq.
Qed.

End MatrixConstructor.

(** C9 on the code: [new Matrix(0, 0, [])] throws, and what it throws is a
    TypeError from reading [data[0].length], although [data.length] equals
    [rows] and there is no first row whose length could differ from [cols].
    The matrix without rows is one the class builds elsewhere:
    [new Matrix(0, 0)] holds the empty array and [Matrix.zeros(0, 3)] returns;
    [copy()] of that matrix then fails in the same read. *)
Lemma constructor_throws_on_empty_data :
  Matrix_constructor (num := Qc) {[0 := []]} 0 0 (Some 0) = Throw TypeError ∧
  ¬ (throws (Matrix_constructor (num := Qc) {[0 := []]} 0 0 (Some 0)) ↔
     (length ([] : list (list Qc)) ≠ 0 ∨
      ∃ row0, head ([] : list (list Qc)) = Some row0 ∧ length row0 ≠ 0)) ∧
  (∃ m store,
     Matrix_constructor (num := Qc) ∅ 0 0 None = Ok (m, store) ∧
     store !! obj_data m = Some []) ∧
  zeros (num := Qc) 0 3 = Ok (mkMatrix 0 3 []) ∧
  zeros (num := Qc) 0 3 ≫= copy = Throw TypeError.
Proof.
  split; [reflexivity|]. split.
  - intros [Hthrow _].
    destruct Hthrow as [?|(row0 & ? & _)]; [|done..].
    by exists TypeError.
  - split; [|split; reflexivity].
    eexists _, _. split; [reflexivity|]. apply lookup_insert_eq.
Qed.

(** A ragged array whose first row has [cols] elements is accepted. *)
Lemma constructor_checks_witness :
  let d : list (list Qc) := [[lit 1; lit 2]; [lit 3]] in
  Matrix_constructor {[7 := d]} 2 2 (Some 7)
  = Ok (mkMatrixObj 2 2 7, {[7 := d]}).
Proof.
  intros d.
  exact (proj1 (proj2 (proj2
    (constructor_checks {[7 := d]} 2 2 7 d (lookup_singleton_eq 7 d))))
    [lit 1; lit 2] [[lit 3]] eq_refl eq_refl eq_refl).
Defined.

(** The 2 by 3 and 3 by 2 matrices of the multiplication example. *)
Lemma shape_errors_witness :
  let A : Matrix Qc := mkMatrix 2 3 [[lit 1; lit 2; lit 3]; [lit 4; lit 5; lit 6]] in
  let B : Matrix Qc := mkMatrix 3 2 [[lit 7; lit 8]; [lit 9; lit 10]; [lit 11; lit 12]] in
  ¬ throws (multiply A B) ∧ throws (hadamard A B) ∧ throws (add A B).
Proof.
  intros A B.
  destruct (shape_errors A B eq_refl eq_refl) as (Hmul & Hhad & Hadd & _).
  split; [|split].
  - intros Ht. by apply Hmul in Ht.
  - apply Hhad. left. cbn. lia.
  - apply Hadd. left. cbn. lia.
Defined.

(** The product of the 2 by 3 and 3 by 2 matrices above. *)
Example multiply_example :
  multiply (num := Qc)
    (mkMatrix 2 3 [[lit 1; lit 2; lit 3]; [lit 4; lit 5; lit 6]])
    (mkMatrix 3 2 [[lit 7; lit 8]; [lit 9; lit 10]; [lit 11; lit 12]])
  = Ok (mkMatrix 2 2 [[lit 58; lit 64]; [lit 139; lit 154]]).
Proof. reflexivity. Qed.

(** ** Loss.ts: mean squared error *)

Section Elementwise.
Context {num : Type} `{JSNumber num}.
Implicit Types (m p t : Matrix num).

Lemma scale_shaped r c m k :
  shaped r c m →
  scale m k = Ok (mkMatrix r c (tabulate r c (λ i j, nmul (cellAt m i j) k))).
Proof.
  intros Hm. unfold scale. destruct Hm as (Hr & Hc & Hrest).
  rewrite zeros_ok, Hr, Hc.
  apply (fill_tabulate r c _ (λ i j, nmul (cellAt m i j) k));
    [apply shaped_zeros|].
  intros i j Hi Hj. by rewrite (rd_shaped r c).
Qed.

Lemma add_shaped r c p t :
  shaped r c p → shaped r c t →
  add p t
  = Ok (mkMatrix r c (tabulate r c (λ i j, nadd (cellAt p i j) (cellAt t i j)))).
Proof.
  intros Hp Ht. unfold add.
  pose proof Hp as (Hr & Hc & _). pose proof Ht as (Hr' & Hc' & _).
  rewrite decide_False by (intros [?|?]; congruence).
  rewrite zeros_ok, Hr, Hc.
  apply (fill_tabulate r c _ (λ i j, nadd (cellAt p i j) (cellAt t i j)));
    [apply shaped_zeros|].
  intros i j Hi Hj. by rewrite (rd_shaped r c), (rd_shaped r c).
Qed.

Lemma hadamard_shaped r c p t :
  shaped r c p → shaped r c t →
  hadamard p t
  = Ok (mkMatrix r c (tabulate r c (λ i j, nmul (cellAt p i j) (cellAt t i j)))).
Proof.
  intros Hp Ht. unfold hadamard.
  pose proof Hp as (Hr & Hc & _). pose proof Ht as (Hr' & Hc' & _).
  rewrite decide_False by (intros [?|?]; congruence).
  rewrite zeros_ok, Hr, Hc.
  apply (fill_tabulate r c _ (λ i j, nmul (cellAt p i j) (cellAt t i j)));
    [apply shaped_zeros|].
  intros i j Hi Hj. by rewrite (rd_shaped r c), (rd_shaped r c).
Qed.

Lemma tabulate_ext r c (f g : nat → nat → num) :
  (∀ i j, i < r → j < c → f i j = g i j) → tabulate r c f = tabulate r c g.
Proof.
  intros Hfg. unfold tabulate. apply list_eq. intros i.
  rewrite !list_lookup_fmap. destruct (decide (i < r)) as [Hi|Hi].
  - rewrite lookup_seq_lt by done. simpl. f_equal. apply list_eq. intros j.
    rewrite !list_lookup_fmap. destruct (decide (j < c)) as [Hj|Hj].
    + rewrite lookup_seq_lt by done. simpl. f_equal. by apply Hfg.
    + by rewrite lookup_seq_ge by lia.
  - by rewrite lookup_seq_ge by lia.
Qed.

Lemma subtract_shaped r c p t :
  shaped r c p → shaped r c t →
  subtract p t = Ok (mkMatrix r c (tabulate r c (difference p t))).
Proof.
  intros Hp Ht. unfold subtract. rewrite (scale_shaped r c) by done.
  cbn [mbind outcome_bind].
  rewrite (add_shaped r c) by (done || apply shaped_tabulate).
  do 2 f_equal. apply tabulate_ext. intros i j Hi Hj.
  by rewrite cellAt_tabulate.
Qed.

Lemma mse_forward_shaped r c p t :
  shaped r c p → shaped r c t →
  mse_forward p t
  = Ok (ndiv (foldl nadd (lit 0)
                (concat (tabulate r c
                   (λ i j, nmul (difference p t i j) (difference p t i j)))))
             (lit (Z.of_nat (r * c)))).
Proof.
  intros Hp Ht. unfold mse_forward.
  pose proof Hp as (Hr & Hc & _). pose proof Ht as (Hr' & Hc' & _).
  rewrite decide_False by (intros [?|?]; congruence).
  rewrite (subtract_shaped r c) by done. cbn [mbind outcome_bind].
  rewrite (hadamard_shaped r c) by apply shaped_tabulate.
  cbn [mbind outcome_bind]. rewrite Hr, Hc. unfold toArray. cbn [data].
  do 4 f_equal. apply tabulate_ext. intros i j Hi Hj.
  by rewrite cellAt_tabulate.
Qed.

Lemma mse_backward_shaped r c p t :
  shaped r c p → shaped r c t →
  mse_backward p t
  = Ok (mkMatrix r c (tabulate r c
          (λ i j, nmul (difference p t i j)
                       (ndiv (lit 2) (lit (Z.of_nat (r * c))))))).
Proof.
  intros Hp Ht. unfold mse_backward.
  pose proof Hp as (Hr & Hc & _). pose proof Ht as (Hr' & Hc' & _).
  rewrite decide_False by (intros [?|?]; congruence).
  rewrite (subtract_shaped r c) by done. cbn [mbind outcome_bind].
  rewrite (scale_shaped r c) by apply shaped_tabulate. rewrite Hr, Hc.
  do 2 f_equal. apply tabulate_ext. intros i j Hi Hj.
  by rewrite cellAt_tabulate.
Qed.

Lemma concat_tabulate r c (f : nat → nat → num) :
  concat (tabulate r c f) = i ← seq 0 r; j ← seq 0 c; [f i j].
Proof.
  unfold tabulate. generalize (seq 0 r). intros l.
  induction l as [|i l IH]; [done|]. cbn. rewrite IH. by f_equal.
Qed.

End Elementwise.

Section MeanSquaredError.
Local Open Scope Qc_scope.

Lemma foldl_Qcplus (a : Qc) (l : list Qc) : foldl Qcplus a l = a + Qc_sum l.
Proof.
  revert a. induction l as [|x l IH]; intros a; simpl.
  - unfold Qc_sum. simpl. ring.
  - rewrite IH. unfold Qc_sum. simpl. ring.
Qed.

Lemma difference_Qc (p t : Matrix Qc) i j :
  difference p t i j = cellAt p i j - cellAt t i j.
Proof.
  unfold difference. cbn [nadd nmul lit Qc_number].
  replace (Q2Qc (inject_Z (-1))) with (- (1)) by (by apply Qc_is_canon).
  ring.
Qed.

Lemma bind_ext_in {A B} (f g : A → list B) (l : list A) :
  (∀ x, x ∈ l → f x = g x) → l ≫= f = l ≫= g.
Proof.
  induction l as [|x l IH]; intros Hfg; [done|]. cbn.
  rewrite (Hfg x) by left. f_equal. apply IH. intros y Hy. apply Hfg. by right.
Qed.

(** C7: on equal-shaped (rectangular) matrices MSE forward returns the mean
    of the elementwise squared differences and MSE backward returns the
    matrix of [(2/n) * (predicted - target)], [n] the number of elements.
    Numbers are exact rationals. *)
Theorem mse_mean_squared_error (r c : nat) (predicted target : Matrix Qc) :
  shaped r c predicted → shaped r c target →
  mse_forward predicted target
  = Ok (mean_squared_difference predicted target) ∧
  ∃ g, mse_backward predicted target = Ok g ∧ shaped r c g ∧
       ∀ i j, (i < r)%nat → (j < c)%nat →
         cellAt g i j
         = Q2Qc 2 / Q2Qc (inject_Z (Z.of_nat (r * c)))
           * (cellAt predicted i j - cellAt target i j).
Proof.
  intros Hp Ht. split.
  - rewrite (mse_forward_shaped r c) by done. f_equal.
    unfold mean_squared_difference, squared_differences.
    pose proof Hp as (-> & -> & _).
    cbn [ndiv lit Qc_number]. f_equal.
    rewrite foldl_Qcplus, concat_tabulate.
    replace (Q2Qc (inject_Z 0)) with (Q2Qc 0) by (by apply Qc_is_canon).
    rewrite Qcplus_0_l. f_equal.
    apply bind_ext_in. intros i _. apply bind_ext_in. intros j _.
    f_equal. cbn [nmul Qc_number]. rewrite difference_Qc. simpl. ring.
  - eexists. split; [by apply (mse_backward_shaped r c)|].
    split; [apply shaped_tabulate|].
    intros i j Hi Hj. rewrite cellAt_tabulate by done.
    rewrite difference_Qc. cbn [nmul ndiv lit Qc_number].
    replace (Q2Qc (inject_Z 2)) with (Q2Qc 2) by (by apply Qc_is_canon).
    ring.
Qed.

End MeanSquaredError.

(** The example of the claim: predicted = [0.7, 0.2, 0.1] and
    target = [1, 0, 0] as column vectors.  The loss is
    ((0.3)^2 + (0.2)^2 + (0.1)^2) / 3 and the gradient (2/3) * [-0.3, 0.2, 0.1]. *)
Lemma mse_mean_squared_error_witness :
  let predicted := mkMatrix 3 1 [[Q2Qc (7 # 10)]; [Q2Qc (2 # 10)]; [Q2Qc (1 # 10)]] in
  let target := mkMatrix 3 1 [[Q2Qc 1]; [Q2Qc 0]; [Q2Qc 0]] in
  fromArray [Q2Qc (7 # 10); Q2Qc (2 # 10); Q2Qc (1 # 10)] true = Ok predicted ∧
  fromArray [Q2Qc 1; Q2Qc 0; Q2Qc 0] true = Ok target ∧
  mse_forward predicted target
  = Ok ((Q2Qc (3 # 10) ^ 2 + Q2Qc (2 # 10) ^ 2 + Q2Qc (1 # 10) ^ 2) / Q2Qc 3)%Qc ∧
  ∃ g, mse_backward predicted target = Ok g ∧
       cellAt g 0 0 = (Q2Qc (2 # 3) * - Q2Qc (3 # 10))%Qc ∧
       cellAt g 1 0 = (Q2Qc (2 # 3) * Q2Qc (2 # 10))%Qc ∧
       cellAt g 2 0 = (Q2Qc (2 # 3) * Q2Qc (1 # 10))%Qc.
Proof.
  intros predicted target.
  assert (shaped 3 1 predicted) as Hp by (by repeat constructor).
  assert (shaped 3 1 target) as Ht by (by repeat constructor).
  destruct (mse_mean_squared_error 3 1 predicted target Hp Ht)
    as (Hfwd & g & Hbwd & _ & Hg).
  split; [reflexivity|]. split; [reflexivity|]. split.
  - rewrite Hfwd. f_equal; by apply Qc_is_canon.
  - exists g. split; [exact Hbwd|].
    rewrite !Hg by lia. repeat split; by apply Qc_is_canon.
Defined.

(** ** ComputationGraph.ts: nodes *)

Section NodeFacts.
Context {num : Type} `{JSNumber num}.
Implicit Types (h : list (ComputationNode num)) (n : ComputationNode num).

Lemma deref_lookup h r n : h !! r = Some n → deref h r = n.
Proof. unfold deref. by intros ->. Qed.

Lemma deref_insert_eq h r n : r < length h → deref (<[r := n]> h) r = n.
Proof. intros Hr. unfold deref. by rewrite list_lookup_insert_eq. Qed.

Lemma deref_insert_ne h r r' n : r ≠ r' → deref (<[r := n]> h) r' = deref h r'.
Proof. intros Hr. unfold deref. by rewrite list_lookup_insert_ne. Qed.

(** [backward] on a leaf stores the upstream gradient and stops. *)
Lemma backward_leaf fuel h r n g :
  h !! r = Some n → inputs n = [] →
  backward (S fuel) h r g = <[r := set_gradient g n]> h.
Proof.
  intros Hr Hin. simpl. rewrite Hr. unfold inputs in Hin.
  by destruct (class n).
Qed.

(** [backward] stores the upstream gradient and then makes the calls of
    [local_gradients]. *)
Lemma backward_calls fuel h r n g :
  h !! r = Some n →
  backward (S fuel) h r g =
  let h' := <[r := set_gradient g n]> h in
  foldl (λ h call, backward fuel h call.1 call.2) h' (local_gradients h' n g).
Proof.
  intros Hr. simpl. rewrite Hr. unfold local_gradients.
  destruct (class n); try done. by destruct (decide _).
Qed.

Lemma ranked_insert rank h r n n' :
  h !! r = Some n → inputs n' = inputs n → ranked rank h →
  ranked rank (<[r := n']> h).
Proof.
  intros Hr Hin Hrank r' m Hm i Hi. destruct (decide (r = r')) as [<-|Hne].
  - rewrite list_lookup_insert_eq in Hm by (by eapply lookup_lt_Some).
    injection Hm as <-. rewrite Hin in Hi. by eapply Hrank.
  - rewrite list_lookup_insert_ne in Hm by done. by eapply Hrank.
Qed.

Lemma backward_ranked rank fuel h r g :
  ranked rank h → ranked rank (backward fuel h r g).
Proof.
  revert h r g. induction fuel as [|fuel IH]; intros h r g Hrank; [done|].
  destruct (h !! r) as [n|] eqn:Hr; [|by simpl; rewrite Hr].
  rewrite (backward_calls fuel h r n g Hr). cbv zeta.
  assert (ranked rank (<[r := set_gradient g n]> h)) as Hrank'
    by (by apply (ranked_insert rank h r n)).
  revert Hrank'.
  generalize (local_gradients (<[r := set_gradient g n]> h) n g).
  generalize (<[r := set_gradient g n]> h).
  intros h' calls. revert h'.
  induction calls as [|call calls IHc]; intros h' Hh'; [done|].
  simpl. apply IHc. by apply IH.
Qed.

(** The recursion of [backward] from a node is no deeper than the rank of
    the node: any fuel above the rank gives the same heap. *)
Lemma backward_fuel rank fuel fuel' h r g :
  ranked rank h → rank r < fuel → rank r < fuel' →
  backward fuel h r g = backward fuel' h r g.
Proof.
  revert fuel' h r g. induction fuel as [|fuel IH];
    intros fuel' h r g Hrank Hf Hf'; [lia|].
  destruct fuel' as [|fuel']; [lia|].
  destruct (h !! r) as [n|] eqn:Hr; [|by simpl; rewrite Hr].
  rewrite !(backward_calls _ h r n g Hr). cbv zeta.
  assert (ranked rank (<[r := set_gradient g n]> h)) as Hrank'
    by (by apply (ranked_insert rank h r n)).
  assert (∀ call, call ∈ local_gradients (<[r := set_gradient g n]> h) n g →
                  rank call.1 < rank r) as Hcalls.
  { intros [i gi] Hcall. apply (Hrank r n Hr). simpl.
    unfold local_gradients in Hcall. unfold inputs.
    destruct (class n); try destruct (decide _); set_solver. }
  revert Hrank' Hcalls.
  generalize (local_gradients (<[r := set_gradient g n]> h) n g).
  generalize (<[r := set_gradient g n]> h).
  intros h' calls. revert h'.
  induction calls as [|call calls IHc]; intros h' Hh' Hcalls; [done|].
  simpl. rewrite (IH fuel' h' call.1 call.2 Hh').
  - apply IHc; [by apply backward_ranked|].
    intros c Hc. apply Hcalls. by right.
  - specialize (Hcalls call (list_elem_of_here _ _)). lia.
  - specialize (Hcalls call (list_elem_of_here _ _)). lia.
Qed.

(** A node built by a constructor from existing nodes keeps the heap closed
    and ranked by the order of construction. *)
Lemma new_node_ranked h (i : string) (c : NodeClass) (nm : string) (v : num) :
  closed h → ranked (λ r, r) h →
  (∀ r, r ∈ inputs (mkNode i c nm v (lit 0) false 0) → r < length h) →
  closed (new_node h i c nm v).1 ∧ ranked (λ r, r) (new_node h i c nm v).1.
Proof.
  intros Hclosed Hrank Hin. split; intros r n Hr j Hj; simpl in *.
  - rewrite length_app. simpl.
    destruct (decide (r < length h)) as [Hlt|Hge].
    + rewrite lookup_app_l in Hr by done. specialize (Hclosed r n Hr j Hj). lia.
    + rewrite lookup_app_r in Hr by lia.
      apply list_lookup_singleton_Some in Hr as [Hr0 <-].
      specialize (Hin j Hj). lia.
  - destruct (decide (r < length h)) as [Hlt|Hge].
    + rewrite lookup_app_l in Hr by done. by eapply Hrank.
    + rewrite lookup_app_r in Hr by lia.
      apply list_lookup_singleton_Some in Hr as [Hr0 <-].
      specialize (Hin j Hj). lia.
Qed.

Lemma backward_max fuel h r n a b g :
  h !! r = Some n → class n = MaxNode a b →
  backward (S fuel) h r g =
  let h2 := <[r := set_gradient g n]> h in
  if decide (maxIndex n = 0)
  then backward fuel (backward fuel h2 a g) b (lit 0)
  else backward fuel (backward fuel h2 a (lit 0)) b g.
Proof. intros Hr Hclass. simpl. by rewrite Hr, Hclass. Qed.

(** A Max node as the code has it: forward returns the maximum of its two
    inputs and records the winner, which is the first operand only when it
    is strictly greater.  backward then
    calls backward of the recorded winner with the full upstream gradient and
    backward of the other input with 0; when the inputs are two distinct
    leaves, these are the gradients they hold afterwards. *)
Theorem max_node_forward_backward h (r a b : nat) n na nb (upstream : num) :
  (∀ x y, gt x y = true → gt y x = false) →
  h !! r = Some n → class n = MaxNode a b →
  h !! a = Some na → h !! b = Some nb →
  let val1 := value na in
  let val2 := value nb in
  let h1 := forward h r in
  let n1 := deref h1 r in
  ((value n1 = val1 ∨ value n1 = val2) ∧
   gt val1 (value n1) = false ∧ gt val2 (value n1) = false) ∧
  maxIndex n1 = (if gt val1 val2 then 0 else 1) ∧
  (val1 = val2 → maxIndex n1 = 1) ∧
  (∀ fuel,
     backward (S fuel) h1 r upstream =
     let h2 := <[r := set_gradient upstream n1]> h1 in
     if decide (maxIndex n1 = 0)
     then backward fuel (backward fuel h2 a upstream) b (lit 0)
     else backward fuel (backward fuel h2 a (lit 0)) b upstream) ∧
  (inputs na = [] → inputs nb = [] → a ≠ b →
     let h3 := backward (length h1) h1 r upstream in
     gradient (deref h3 a) = (if decide (maxIndex n1 = 0) then upstream else lit 0) ∧
     gradient (deref h3 b) = (if decide (maxIndex n1 = 0) then lit 0 else upstream)).
Proof.
  intros Hasym Hr Hclass Ha Hb val1 val2 h1 n1.
  assert (r < length h) as Hlt by (by eapply lookup_lt_Some).
  assert (∀ x, gt x x = false) as Hirrefl.
  { intros x. destruct (gt x x) eqn:Hx; [|done]. by rewrite (Hasym x x Hx) in Hx. }
  assert (h1 = <[r := forward_node h n]> h) as Hh1
    by (subst h1; unfold forward; by rewrite Hr).
  assert (n1 = forward_node h n) as Hn1
    by (subst n1; rewrite Hh1; by apply deref_insert_eq).
  assert (forward_node h n
          = if gt val1 val2 then set_value val1 (set_maxIndex 0 n)
            else set_value val2 (set_maxIndex 1 n)) as Hfwd.
  { unfold forward_node. rewrite Hclass.
    by rewrite (deref_lookup h a na), (deref_lookup h b nb). }
  assert (h1 !! r = Some n1) as Hr1
    by (rewrite Hh1, Hn1; by apply list_lookup_insert_eq).
  assert (class n1 = MaxNode a b) as Hclass1
    by (rewrite Hn1, Hfwd; by destruct (gt val1 val2)).
  split; [|split; [|split; [|split]]].
  - rewrite Hn1, Hfwd. destruct (gt val1 val2) eqn:Hgt; simpl.
    + repeat split; [by left|apply Hirrefl|by apply Hasym].
    + repeat split; [by right|done|apply Hirrefl].
  - rewrite Hn1, Hfwd. by destruct (gt val1 val2).
  - intros Heq. rewrite Hn1, Hfwd, Heq, Hirrefl. done.
  - intros fuel. by apply backward_max.
  - intros Hina Hinb Hab h3.
    assert (a ≠ r) as Har.
    { intros ->. rewrite Hr in Ha. injection Ha as <-.
      unfold inputs in Hina. by rewrite Hclass in Hina. }
    assert (b ≠ r) as Hbr.
    { intros ->. rewrite Hr in Hb. injection Hb as <-.
      unfold inputs in Hinb. by rewrite Hclass in Hinb. }
    assert (a < length h ∧ b < length h) as [Hla Hlb]
      by (split; by eapply lookup_lt_Some).
    assert (∃ fuel, length h1 = S (S fuel)) as [fuel Hfuel].
    { rewrite Hh1, length_insert. destruct h as [|? [|? ?]]; simpl in *;
        [lia| |by eexists].
      destruct a, b, r; simpl in *; lia. }
    subst h3. rewrite Hfuel, (backward_max _ _ _ _ a b upstream Hr1 Hclass1).
    cbv zeta. set (h2 := <[r := set_gradient upstream n1]> h1).
    assert (h2 !! a = Some na) as Ha2
      by (subst h2; rewrite list_lookup_insert_ne, Hh1, list_lookup_insert_ne; done).
    assert (∀ g, backward (S fuel) h2 a g = <[a := set_gradient g na]> h2) as Hba
      by (intros g; by apply backward_leaf).
    assert (∀ g, (<[a := set_gradient g na]> h2) !! b = Some nb) as Hb2.
    { intros g. subst h2.
      rewrite !list_lookup_insert_ne, Hh1, list_lookup_insert_ne; done. }
    assert (a < length h2 ∧ b < length h2) as [Hla2 Hlb2]
      by (subst h2; rewrite length_insert, Hh1, length_insert; done).
    destruct (decide (maxIndex n1 = 0)); rewrite Hba;
      rewrite (backward_leaf _ _ b nb) by done;
      (split;
       [rewrite deref_insert_ne, deref_insert_eq by done; done
       |rewrite deref_insert_eq by (by rewrite length_insert); done]).
Qed.

End NodeFacts.

Lemma Qc_gt_asym (x y : Qc) : gt x y = true → gt y x = false.
Proof.
  cbn [gt Qc_number]. intros Hxy%bool_decide_eq_true.
  apply bool_decide_eq_false. by apply Qcle_not_lt, Qclt_le_weak.
Qed.

(** The Max node of the scenario [z = 2], [w = -1]: [z] wins and receives
    the whole upstream gradient. *)
Lemma max_node_forward_backward_witness :
  let h3 := backward 3 (forward max_heap 2) 2 (lit 1) in
  value (deref (forward max_heap 2) 2) = lit 2 ∧
  gradient (deref h3 0) = lit 1 ∧ gradient (deref h3 1) = lit 0.
Proof.
  intros h3.
  destruct (max_node_forward_backward max_heap 2 0 1
              (mkNode "m" (MaxNode 0 1) "m" (lit 0) (lit 0) false 0)
              (mkNode "z" InputNode "z" (lit 2) (lit 0) false 0)
              (mkNode "w" InputNode "w" (lit (-1)) (lit 0) false 0)
              (lit 1) Qc_gt_asym eq_refl eq_refl eq_refl eq_refl)
    as (_ & _ & _ & _ & Hleaf).
  destruct (Hleaf eq_refl eq_refl) as [Hz Hw]; [lia|].
  split; [reflexivity|]. split; [exact Hz|exact Hw].
Defined.

(** C3 on the code: on a tie, [a = b = 2], the Max node records the second
    operand, and backward with upstream gradient 1 leaves gradient 0 on the
    first operand and 1 on the second, although the second is not greater
    than the first. *)
Lemma max_tie_goes_to_second_operand :
  let h1 := forward tie_heap 2 in
  let h3 := backward 3 h1 2 (lit 1) in
  value (deref tie_heap 0) = value (deref tie_heap 1) ∧
  maxIndex (deref h1 2) = 1 ∧
  gradient (deref h3 0) = lit 0 ∧ gradient (deref h3 0) ≠ lit 1 ∧
  gradient (deref h3 1) = lit 1.
Proof. repeat split; done. Qed.

(** C2 on the code: in [out = x * y + x] with [x = 2] and [y = 3] the input
    [x] has two consumers, whose contributions 3 and 1 sum to 4, but after
    [graph.forward()] and [graph.backward()] its gradient field holds 1, the
    contribution of the consumer that called [x.backward] last. *)
Lemma backward_overwrites_shared_gradient :
  let h := graph_backward (graph_forward shared_heap shared_graph).1 shared_graph in
  consumer_contributions h 0 = [lit 3; lit 1] ∧
  Qc_sum (consumer_contributions h 0) = lit 4 ∧
  gradient (deref h 0) = lit 1 ∧
  gradient (deref h 0) ≠ Qc_sum (consumer_contributions h 0).
Proof.
  split; [reflexivity|]. split; [reflexivity|]. split; [reflexivity|].
  intros Heq. apply (f_equal this) in Heq. vm_compute in Heq. done.
Qed.

(** ** ComputationGraph.ts: the execution order *)

Section ExecutionOrder.
Context {num : Type} `{JSNumber num}.
Implicit Types (h : list (ComputationNode num)) (V : gset string)
               (O new : list nat) (rank : nat → nat).

Lemma lookup_deref h r : r < length h → h !! r = Some (deref h r).
Proof.
  intros Hr. destruct (lookup_lt_is_Some_2 h r Hr) as [n Hn].
  by rewrite (deref_lookup h r n).
Qed.

Lemma closed_inputs h r i :
  closed h → r < length h → i ∈ inputs (deref h r) → i < length h.
Proof. intros Hclosed Hr Hi. by eapply Hclosed; [apply lookup_deref|]. Qed.

Lemma ranked_inputs rank h r i :
  ranked rank h → r < length h → i ∈ inputs (deref h r) → rank i < rank r.
Proof. intros Hrank Hr Hi. by eapply Hrank; [apply lookup_deref|]. Qed.

(** The heights are a ranking too, and they stay below the number of
    nodes. *)
Lemma height_ranked rank h :
  closed h → ranked rank h → ranked (height h rank) h.
Proof.
  intros Hclosed Hrank r n Hr i Hi. unfold height.
  pose proof (Hrank r n Hr i Hi) as Hlt.
  rewrite <- (list_filter_filter_l (λ x, rank x < rank i) (λ x, rank x < rank r))
    by (intros x; lia).
  apply (length_filter_lt _ _ i); [|lia].
  apply list_elem_of_filter. split; [done|].
  apply elem_of_seq. specialize (Hclosed r n Hr i Hi). lia.
Qed.

Lemma height_bound rank h r : r < length h → height h rank r < length h.
Proof.
  intros Hr. unfold height.
  pose proof (length_filter_lt (λ x, rank x < rank r) (seq 0 (length h)) r)
    as Hlt.
  rewrite length_seq in Hlt. apply Hlt; [|lia]. apply elem_of_seq. lia.
Qed.

Lemma unique_ids_deref h x y :
  unique_ids h → x < length h → y < length h →
  id (deref h x) = id (deref h y) → x = y.
Proof. intros Hu Hx Hy Hid. eapply Hu; [by apply lookup_deref..|done]. Qed.

Lemma reachable_trans h a b c :
  reachable h a b → reachable h b c → reachable h a c.
Proof.
  intros Hab Hbc. induction Hbc as [|r i _ IH Hi]; [done|].
  by eapply reachable_input.
Qed.

Lemma ids_of_nil h : ids_of h [] = ∅.
Proof. done. Qed.

Lemma ids_of_app h l1 l2 : ids_of h (l1 ++ l2) = ids_of h l1 ∪ ids_of h l2.
Proof. unfold ids_of. by rewrite fmap_app, list_to_set_app_L. Qed.

Lemma elem_of_ids_of h l s : s ∈ ids_of h l ↔ ∃ x, x ∈ l ∧ id (deref h x) = s.
Proof.
  unfold ids_of. rewrite elem_of_list_to_set, list_elem_of_fmap. split.
  - intros (x & -> & Hx). by exists x.
  - intros (x & Hx & <-). by exists x.
Qed.

Lemma visited_ok_mono h rank b b' st :
  b' ≤ b → visited_ok h rank b st → visited_ok h rank b' st.
Proof. intros Hb [H1 H2]. split; [done|]. intros x Hx. apply H2. lia. Qed.

Lemma visited_ok_extend h rank b V O new :
  unique_ids h → (∀ x, x ∈ new → x < length h) →
  visited_ok h rank b (V, O) → visited_ok h rank b (ids_of h new ∪ V, O ++ new).
Proof.
  intros Hu Hnew [H1 H2]. split; simpl in *.
  - intros x [Hx|Hx]%elem_of_app; apply elem_of_union.
    + right. by apply H1.
    + left. apply elem_of_ids_of. by exists x.
  - intros x Hb Hx [Hid|Hid]%elem_of_union; apply elem_of_app.
    + right. apply elem_of_ids_of in Hid as (y & Hy & Hid).
      by rewrite (unique_ids_deref h x y Hu Hx (Hnew y Hy)).
    + left. by apply H2.
Qed.

Lemma inputs_first_snoc h O r :
  inputs_first h O → (∀ i, i ∈ inputs (deref h r) → i ∈ O) →
  inputs_first h (O ++ [r]).
Proof.
  intros HO Hr k x Hk i Hi.
  destruct (decide (k < length O)) as [Hlt|Hge].
  - rewrite lookup_app_l in Hk by done.
    destruct (HO k x Hk i Hi) as (j & Hj & Hlook).
    exists j. split; [done|]. rewrite lookup_app_l by lia. done.
  - rewrite lookup_app_r in Hk by lia.
    apply list_lookup_singleton_Some in Hk as [Hk0 <-].
    apply Hr, list_elem_of_lookup in Hi as [j Hj].
    exists j. split; [apply lookup_lt_Some in Hj; lia|].
    by apply lookup_app_l_Some.
Qed.

(** The loop of [visit] over the inputs of a node [r], given what [visit]
    with fuel [fuel] does on one node. *)
Lemma visit_inputs h rank fuel r :
  unique_ids h →
  (∀ r' V O, rank r' < fuel → r' < length h → order_ok h O →
     visited_ok h rank (S (rank r')) (V, O) →
     ∃ new, visit fuel h r' (V, O) = (ids_of h new ∪ V, O ++ new) ∧
            r' ∈ O ++ new ∧
            (∀ x, x ∈ new → rank x ≤ rank r' ∧ reachable h r' x) ∧
            order_ok h (O ++ new)) →
  ∀ l V O,
    (∀ i, i ∈ l → rank i < rank r ∧ rank i < fuel ∧ i < length h) →
    order_ok h O → visited_ok h rank (rank r) (V, O) →
    ∃ new, foldl (λ st input, visit fuel h input st) (V, O) l
           = (ids_of h new ∪ V, O ++ new) ∧
           (∀ i, i ∈ l → i ∈ O ++ new) ∧
           (∀ x, x ∈ new → rank x < rank r ∧ ∃ i, i ∈ l ∧ reachable h i x) ∧
           order_ok h (O ++ new).
Proof.
  intros Hu Hvisit l. induction l as [|i l IH]; intros V O Hl HO HV.
  - exists []. rewrite ids_of_nil, app_nil_r, (left_id_L ∅ (∪)).
    split; [done|]. split; [by intros ? ?%elem_of_nil|].
    split; [by intros ? ?%elem_of_nil|done].
  - destruct (Hl i) as (Hir & Hif & Hih); [by left|].
    destruct (Hvisit i V O Hif Hih HO) as (new1 & Hv1 & Hi1 & Hnew1 & HO1).
    { eapply visited_ok_mono; [|done]. lia. }
    assert (visited_ok h rank (rank r) (ids_of h new1 ∪ V, O ++ new1)) as HV1.
    { apply visited_ok_extend; [done| |done].
      intros x Hx. apply HO1, elem_of_app. by right. }
    destruct (IH (ids_of h new1 ∪ V) (O ++ new1)) as (new2 & Hv2 & Hi2 & Hnew2 & HO2);
      [by intros j Hj; apply Hl; right|done..|].
    exists (new1 ++ new2). simpl. rewrite Hv1, Hv2.
    rewrite ids_of_app, (assoc_L (++)). split; [f_equal; set_solver|].
    split; [|split; [|done]].
    + intros j [->|Hj]%elem_of_cons; [|by apply Hi2].
      apply elem_of_app. by left.
    + intros x [Hx|Hx]%elem_of_app.
      * destruct (Hnew1 x Hx) as [Hle Hreach]. split; [lia|].
        exists i. split; [by left|done].
      * destruct (Hnew2 x Hx) as (Hlt & j & Hj & Hreach). split; [done|].
        exists j. split; [by right|done].
Qed.

(** [visit] on a node that ranks below the fuel appends the nodes it newly
    reaches, the node itself last, and keeps the order well formed. *)
Lemma visit_spec h rank :
  closed h → ranked rank h → unique_ids h →
  ∀ fuel r V O, rank r < fuel → r < length h → order_ok h O →
    visited_ok h rank (S (rank r)) (V, O) →
    ∃ new, visit fuel h r (V, O) = (ids_of h new ∪ V, O ++ new) ∧
           r ∈ O ++ new ∧
           (∀ x, x ∈ new → rank x ≤ rank r ∧ reachable h r x) ∧
           order_ok h (O ++ new).
Proof.
  intros Hclosed Hrank Hu fuel.
  induction fuel as [|fuel IH]; intros r V O Hf Hr HO HV; [lia|].
  simpl. destruct (decide (id (deref h r) ∈ V)) as [Hin|Hnotin].
  - exists []. rewrite ids_of_nil, app_nil_r, (left_id_L ∅ (∪)).
    split; [done|]. split; [apply HV; simpl; [lia|done..]|].
    split; [by intros ? ?%elem_of_nil|done].
  - destruct HV as [HV1 HV2]. simpl in HV1, HV2.
    destruct (visit_inputs h rank fuel r Hu IH (inputs (deref h r))
                ({[id (deref h r)]} ∪ V) O)
      as (new & Hfold & Hins & Hnew & HOnew); [|done|..].
    { intros i Hi. pose proof (ranked_inputs rank h r i Hrank Hr Hi).
      pose proof (closed_inputs h r i Hclosed Hr Hi). lia. }
    { split; simpl.
      - intros x Hx. apply elem_of_union. right. by apply HV1.
      - intros x Hxr Hx [Hid%elem_of_singleton|Hid]%elem_of_union.
        + apply (unique_ids_deref h x r Hu Hx Hr) in Hid. subst x. lia.
        + apply HV2; [lia|done..]. }
    rewrite Hfold. simpl. exists (new ++ [r]).
    assert (r ∉ O ++ new) as Hfresh.
    { intros [Hx|Hx]%elem_of_app; [by apply Hnotin, HV1|].
      destruct (Hnew r Hx). lia. }
    split; [|split; [|split]].
    + rewrite ids_of_app, (assoc_L (++)). f_equal.
      unfold ids_of at 2. simpl. set_solver.
    + rewrite (assoc_L (++)). apply elem_of_app. right. by left.
    + intros x [Hx|Hx%list_elem_of_singleton]%elem_of_app.
      * destruct (Hnew x Hx) as (Hlt & i & Hi & Hreach). split; [lia|].
        eapply reachable_trans; [|done].
        by eapply reachable_input; [apply reachable_refl|].
      * subst x. split; [done|apply reachable_refl].
    + rewrite (assoc_L (++)). destruct HOnew as (Hnd & Hvalid & Htopo).
      split; [|split].
      * apply NoDup_app. split; [done|]. split; [|apply NoDup_singleton].
        intros x Hx Hxr%list_elem_of_singleton. by subst x.
      * intros x [Hx|Hx%list_elem_of_singleton]%elem_of_app;
          [by apply Hvalid|by subst x].
      * by apply inputs_first_snoc.
Qed.

Lemma computeExecutionOrder_spec h (output : nat) :
  closed h → acyclic h → unique_ids h → output < length h →
  order_ok h (computeExecutionOrder h (Some output)) ∧
  ∀ r, r ∈ computeExecutionOrder h (Some output) ↔ reachable h output r.
Proof.
  intros Hclosed [rank Hrank] Hu Hout. simpl.
  destruct (visit_spec h (height h rank) Hclosed
              (height_ranked rank h Hclosed Hrank) Hu (length h) output ∅ [])
    as (new & Hvisit & Hin & Hnew & Hok); [by apply height_bound|done| | |].
  { split; [apply NoDup_nil_2|]. split; [by intros ? ?%elem_of_nil|].
    by intros k r Hk. }
  { split; simpl; [by intros ? ?%elem_of_nil|by intros ? _ _ ?%elem_of_empty]. }
  rewrite Hvisit. simpl in *. split; [done|].
  destruct Hok as (_ & _ & Htopo). intros r. split.
  - intros Hr. by apply Hnew.
  - intros Hreach. induction Hreach as [|r i _ IH Hi]; [done|].
    apply list_elem_of_lookup in IH as [k Hk].
    destruct (Htopo k r Hk i Hi) as (j & _ & Hj).
    by eapply list_elem_of_lookup_2.
Qed.

(** C5: on an acyclic graph (of node objects with unique ids), after
    setOutput the execution order contains every node reachable from the
    output node exactly once, and every node has a strictly greater index
    than each of its inputs. *)
Theorem execution_order_topological h (g : ComputationGraph) (output : nat) :
  closed h → acyclic h → unique_ids h → output < length h →
  let order := executionOrder (setOutput h g output) in
  NoDup order ∧
  (∀ r, r ∈ order ↔ reachable h output r) ∧
  (∀ k r, order !! k = Some r →
     ∀ i, i ∈ inputs (deref h r) → ∃ j, j < k ∧ order !! j = Some i).
Proof.
  intros Hclosed Hacyc Hu Hout order. subst order.
  cbn [executionOrder setOutput].
  destruct (computeExecutionOrder_spec h output Hclosed Hacyc Hu Hout)
    as ((Hnd & _ & Htopo) & Hreach).
  split; [done|]. split; done.
Qed.

(** With a fuel of the number of nodes, [graph.backward()] runs its
    recursion to the end: more fuel changes nothing. *)
Lemma graph_backward_fuel h (output : nat) (g : num) fuel :
  closed h → acyclic h → output < length h → length h ≤ fuel →
  backward fuel h output g = backward (length h) h output g.
Proof.
  intros Hclosed [rank Hrank] Hout Hfuel.
  apply (backward_fuel (height h rank)); [by apply height_ranked|..];
    pose proof (height_bound rank h output Hout); lia.
Qed.

End ExecutionOrder.

Lemma shared_heap_ranked : ranked (λ r, r) shared_heap.
Proof.
  intros r n Hr i Hi.
  do 4 (destruct r as [|r]; [injection Hr as <-; set_solver by lia|]).
  done.
Qed.

Lemma shared_heap_closed : closed shared_heap.
Proof.
  intros r n Hr i Hi. pose proof (shared_heap_ranked r n Hr i Hi).
  apply lookup_lt_Some in Hr. lia.
Qed.

Lemma shared_heap_acyclic : acyclic shared_heap.
Proof. exists (λ r, r). apply shared_heap_ranked. Qed.

Lemma shared_heap_unique_ids : unique_ids shared_heap.
Proof.
  intros r1 r2 n1 n2 H1 H2 Hid.
  do 4 (destruct r1 as [|r1];
        [do 4 (destruct r2 as [|r2]; [by simplify_eq/=|]); done|]).
  done.
Qed.

(** The graph [out = x * y + x]: the order is [x, y, m, out]. *)
Lemma execution_order_topological_witness :
  executionOrder shared_graph = [0; 1; 2; 3] ∧
  NoDup (executionOrder shared_graph) ∧
  ∀ r, r ∈ executionOrder shared_graph ↔ reachable shared_heap 3 r.
Proof.
  split; [reflexivity|].
  destruct (execution_order_topological shared_heap
              (foldl (addNode shared_heap) new_graph [0; 1; 2; 3]) 3
              shared_heap_closed shared_heap_acyclic shared_heap_unique_ids)
    as (Hnd & Hreach & _); [simpl; lia|].
  split; [exact Hnd|exact Hreach].
Defined.

(** ** ComputationGraph.ts: forward and reset *)

Section ForwardReset.
Context {num : Type} `{JSNumber num}.
Implicit Types (h : list (ComputationNode num)) (n : ComputationNode num)
               (g : ComputationGraph).

Lemma forward_node_inputs h n : inputs (forward_node h n) = inputs n.
Proof.
  unfold forward_node, inputs.
  destruct (class n) eqn:Hc; simpl; rewrite ?Hc; try done.
  destruct (gt _ _); simpl; by rewrite Hc.
Qed.

(** [node.forward()] reads nothing but the values of the inputs. *)
Lemma forward_node_ext h h' n :
  (∀ i, i ∈ inputs n → value (deref h i) = value (deref h' i)) →
  forward_node h n = forward_node h' n.
Proof.
  unfold forward_node, inputs. intros Hval.
  destruct (class n); try done;
    rewrite ?(Hval input1), ?(Hval input2), ?(Hval input); try done;
    set_solver.
Qed.

Lemma forward_node_idem h n : forward_node h (forward_node h n) = forward_node h n.
Proof.
  unfold forward_node. destruct n as [i c nm v gr act mi]. simpl.
  destruct c; simpl; try done.
  destruct (gt _ _) eqn:Hgt; simpl; by rewrite Hgt.
Qed.

Lemma forward_node_reset h h' n :
  (∀ i, value (deref h' i) = value (deref h i)) →
  forward_node h' (reset_node n) = reset_node (forward_node h n).
Proof.
  intros Hval. unfold forward_node. destruct n as [i c nm v gr act mi]. simpl.
  destruct c; simpl; rewrite ?Hval; try done.
  by destruct (gt _ _).
Qed.

Lemma forward_length h x : length (forward h x) = length h.
Proof. unfold forward. destruct (h !! x); [apply length_insert|done]. Qed.

Lemma forward_deref_ne h x r : r ≠ x → deref (forward h x) r = deref h r.
Proof.
  intros Hne. unfold forward. destruct (h !! x); [|done].
  by apply deref_insert_ne.
Qed.

Lemma forward_lookup_ne h x r : r ≠ x → forward h x !! r = h !! r.
Proof.
  intros Hne. unfold forward. destruct (h !! x); [|done].
  by apply list_lookup_insert_ne.
Qed.

Lemma forward_inputs h x r : inputs (deref (forward h x) r) = inputs (deref h r).
Proof.
  destruct (decide (r = x)) as [->|Hne]; [|by rewrite forward_deref_ne].
  unfold forward. destruct (h !! x) as [n|] eqn:Hx; [|done].
  rewrite deref_insert_eq by (by eapply lookup_lt_Some).
  by rewrite forward_node_inputs, (deref_lookup h x n).
Qed.

Lemma foldl_forward_inputs h l r :
  inputs (deref (foldl forward h l) r) = inputs (deref h r).
Proof.
  revert h. induction l as [|x l IH]; intros h; [done|].
  simpl. by rewrite IH, forward_inputs.
Qed.

Lemma forward_settles_other h x r :
  r ≠ x → x ∉ inputs (deref h r) → settled h r → settled (forward h x) r.
Proof.
  intros Hne Hx Hset n Hn. rewrite forward_lookup_ne in Hn by done.
  trans (forward_node h n); [|by apply Hset].
  apply forward_node_ext. intros i Hi.
  rewrite forward_deref_ne; [done|]. intros ->.
  by rewrite (deref_lookup h r n) in Hx.
Qed.

Lemma forward_settles_self h x :
  x ∉ inputs (deref h x) → settled (forward h x) x.
Proof.
  intros Hx n' Hn'. unfold forward in *.
  destruct (h !! x) as [n|] eqn:Hn; [|by rewrite Hn in Hn'].
  rewrite list_lookup_insert_eq in Hn' by (by eapply lookup_lt_Some).
  injection Hn' as <-.
  trans (forward_node h (forward_node h n)); [|apply forward_node_idem].
  apply forward_node_ext. intros i Hi. rewrite forward_node_inputs in Hi.
  rewrite deref_insert_ne; [done|]. intros <-.
  by rewrite (deref_lookup h x n) in Hx.
Qed.

(** After a forward pass in a topological order every node of the order is
    settled. *)
Lemma forward_pass_settled h order :
  NoDup order → inputs_first h order →
  ∀ r, r ∈ order → settled (foldl forward h order) r.
Proof.
  induction order as [|x l IH] using rev_ind; intros Hnd Htopo r Hr;
    [by apply elem_of_nil in Hr|].
  rewrite foldl_app. simpl.
  apply NoDup_app in Hnd as (Hndl & Hfresh & _).
  assert (∀ r, r ∈ l → x ∉ inputs (deref h r)) as Hlater.
  { intros r' [k Hk]%list_elem_of_lookup Hin.
    destruct (Htopo k r' (lookup_app_l_Some _ _ _ _ Hk) x Hin) as (j & Hj & Hjx).
    rewrite lookup_app_l in Hjx by (apply lookup_lt_Some in Hk; lia).
    apply (Hfresh x); [by eapply list_elem_of_lookup_2|by left]. }
  assert (x ∉ inputs (deref h x)) as Hself.
  { intros Hin.
    destruct (Htopo (length l) x) with (i := x) as (j & Hj & Hjx);
      [by rewrite lookup_app_r, Nat.sub_diag by lia|done|].
    rewrite lookup_app_l in Hjx by done.
    apply (Hfresh x); [by eapply list_elem_of_lookup_2|by left]. }
  apply elem_of_app in Hr as [Hr|Hr%list_elem_of_singleton].
  - apply forward_settles_other.
    + intros ->. apply (Hfresh x); [done|by left].
    + rewrite foldl_forward_inputs. by apply Hlater.
    + apply IH; [done| |done].
      intros k r' Hk i Hi.
      destruct (Htopo k r' (lookup_app_l_Some _ _ _ _ Hk) i Hi) as (j & Hj & Hji).
      exists j. split; [done|].
      by rewrite lookup_app_l in Hji by (apply lookup_lt_Some in Hk; lia).
  - subst r. apply forward_settles_self. by rewrite foldl_forward_inputs.
Qed.

(** A pass over settled nodes changes nothing. *)
Lemma forward_settled h x : settled h x → forward h x = h.
Proof.
  intros Hset. unfold forward. destruct (h !! x) as [n|] eqn:Hn; [|done].
  rewrite (Hset n Hn). by apply list_insert_id.
Qed.

Lemma foldl_forward_settled h l :
  (∀ r, r ∈ l → settled h r) → foldl forward h l = h.
Proof.
  induction l as [|x l IH]; intros Hset; [done|]. simpl.
  rewrite forward_settled by (apply Hset; by left).
  apply IH. intros r Hr. apply Hset. by right.
Qed.

(** [graph.reset()] resets exactly the registered nodes. *)
Lemma graph_reset_lookup h g r :
  graph_reset h g !! r
  = (if decide (r ∈ (map_img (nodes g) : gset nat)) then reset_node else λ n, n)
      <$> h !! r.
Proof.
  set (P := λ (h' : list (ComputationNode num)) (m : gmap string nat),
    ∀ r : nat,
      h' !! r = (if decide (r ∈ (map_img m : gset nat)) then reset_node
                 else λ n, n) <$> h !! r).
  assert (P (graph_reset h g) (nodes g)) as HP; [|exact (HP r)].
  unfold graph_reset. apply (map_fold_weak_ind P); subst P; cbv beta.
  - intros r'. rewrite map_img_empty_L.
    destruct (decide (r' ∈ (∅ : gset nat))) as [Hin|_]; [set_solver|].
    by rewrite option_fmap_id.
  - intros k x m h' Hk IH r'. rewrite map_img_insert_notin_L by done.
    rewrite list_lookup_alter.
    destruct (decide (x = r')) as [->|Hne]; rewrite IH.
    + destruct (decide (r' ∈ {[r']} ∪ (map_img m : gset nat))) as [_|Hn];
        [|set_solver].
      destruct (decide (r' ∈ (map_img m : gset nat)));
        destruct (h !! r') as [[]|]; done.
    + destruct (decide (r' ∈ (map_img m : gset nat))) as [Hin|Hn];
        destruct (decide (r' ∈ {[x]} ∪ (map_img m : gset nat))) as [Hin'|Hn'];
        [done|set_solver|set_solver|done].
Qed.

Lemma graph_reset_value h g r :
  value (deref (graph_reset h g) r) = value (deref h r).
Proof.
  unfold deref. rewrite graph_reset_lookup.
  destruct (h !! r) as [n|]; [|done]. simpl. by destruct (decide _).
Qed.

Lemma settled_reset h g r : settled h r → settled (graph_reset h g) r.
Proof.
  intros Hset n' Hn'. rewrite graph_reset_lookup in Hn'.
  destruct (h !! r) as [n|] eqn:Hn; [|done]. simpl in Hn'.
  injection Hn' as <-. pose proof (Hset n Hn) as Hfix.
  destruct (decide _).
  - rewrite (forward_node_reset h) by (intros; apply graph_reset_value).
    by rewrite Hfix.
  - simpl. trans (forward_node h n); [|done]. apply forward_node_ext.
    intros i _. apply graph_reset_value.
Qed.

Lemma graph_reset_idem h g : graph_reset (graph_reset h g) g = graph_reset h g.
Proof.
  apply list_eq. intros r. rewrite !graph_reset_lookup.
  destruct (h !! r) as [n|]; [|done]. simpl.
  by destruct (decide _).
Qed.

(** C6: after a forward pass of a graph (acyclic, with unique ids, its
    execution order the one setOutput computed), reset followed by a second
    forward pass reproduces the value of every node and the output value. *)
Theorem reset_then_forward h g :
  closed h → acyclic h → unique_ids h →
  (∀ o, outputNode g = Some o → o < length h) →
  executionOrder g = computeExecutionOrder h (outputNode g) →
  let first := graph_forward h g in
  let second := graph_forward (graph_reset first.1 g) g in
  second.2 = first.2 ∧
  ∀ r, value (deref second.1 r) = value (deref first.1 r).
Proof.
  intros Hclosed Hacyc Hu Hout Horder first second.
  assert (NoDup (executionOrder g) ∧ inputs_first h (executionOrder g))
    as [Hnd Htopo].
  { rewrite Horder. destruct (outputNode g) as [o|].
    - by destruct (computeExecutionOrder_spec h o Hclosed Hacyc Hu
                     (Hout o eq_refl))
        as ((? & _ & ?) & _).
    - split; [apply NoDup_nil_2|by intros k r Hk]. }
  assert (second.1 = graph_reset first.1 g) as Hsecond.
  { subst second first. unfold graph_forward. cbn [fst].
    apply foldl_forward_settled. intros r Hr.
    by apply settled_reset, forward_pass_settled. }
  split.
  - subst second first. unfold graph_forward in *. cbn [fst snd] in *.
    rewrite Hsecond. destruct (outputNode g); [|done].
    apply graph_reset_value.
  - intros r. rewrite Hsecond. apply graph_reset_value.
Qed.

End ForwardReset.

(** The graph [out = x * y + x]: both passes leave [x, y, m, out] at
    [2, 3, 6, 8] and return 8. *)
Lemma reset_then_forward_witness :
  let first := graph_forward shared_heap shared_graph in
  let second := graph_forward (graph_reset first.1 shared_graph) shared_graph in
  first.2 = lit 8 ∧ second.2 = first.2 ∧
  ∀ r, value (deref second.1 r) = value (deref first.1 r).
Proof.
  intros first second. split; [reflexivity|].
  apply (reset_then_forward shared_heap shared_graph
           shared_heap_closed shared_heap_acyclic shared_heap_unique_ids).
  - intros o [= <-]. simpl. lia.
  - reflexivity.
Defined.

(** ** ExecutionEngine.ts *)

Section EngineFacts.
Context {num : Type} `{JSNumber num}.
Variable backwardLocal :
  list (ComputationNode num) → nat → num →
  list (ComputationNode num) * gmap string num.
Implicit Types (e : ExecutionEngine num).

Lemma reset_fields e :
  currentStepIndex (reset e) = (-1)%Z ∧ mode (reset e) = Idle ∧
  pendingGradients (reset e) = ∅ ∧ graph (reset e) = graph e ∧
  heap (reset e) = graph_reset (heap e) (graph e).
Proof. done. Qed.

Lemma stepForward_at_end e :
  (currentStepIndex e >= Z.of_nat (length (forwardSteps e ++ backwardSteps e)) - 1)%Z →
  stepForward backwardLocal e = Ok (false, e).
Proof. intros Hend. unfold stepForward. by rewrite decide_True. Qed.

Lemma step_backward_phase_fields e i node :
  let e' := step_backward_phase backwardLocal e i node in
  currentStepIndex e' = currentStepIndex e ∧
  length (forwardSteps e') = length (forwardSteps e) ∧
  length (backwardSteps e') = length (backwardSteps e).
Proof.
  unfold step_backward_phase. destruct (backwardLocal _ _ _). simpl.
  by rewrite length_alter.
Qed.

(** Before the last step, stepForward advances the cursor by one. *)
Lemma stepForward_advance e :
  (-1 ≤ currentStepIndex e)%Z →
  (currentStepIndex e < Z.of_nat (length (forwardSteps e ++ backwardSteps e)) - 1)%Z →
  ∃ e', stepForward backwardLocal e = Ok (true, e') ∧
        currentStepIndex e' = (currentStepIndex e + 1)%Z ∧
        length (forwardSteps e') = length (forwardSteps e) ∧
        length (backwardSteps e') = length (backwardSteps e).
Proof.
  intros Hlo Hhi. unfold stepForward.
  rewrite decide_False by lia. rewrite decide_True by lia.
  destruct (lookup_lt_is_Some_2 (forwardSteps e ++ backwardSteps e)
              (Z.to_nat (currentStepIndex e + 1))) as [step ->]; [lia|].
  cbn [nodes graph forwardSteps].
  destruct (nodes (graph e) !! nodeId step) as [node|]; [|by eexists].
  destruct (decide _).
  - eexists. split; [done|]. simpl. by rewrite length_alter.
  - eexists. split; [done|].
    by destruct (step_backward_phase_fields
      (mkEngine (heap e) (graph e) (forwardSteps e) (backwardSteps e)
                (currentStepIndex e + 1) (step_mode step) (pendingGradients e))
      (Z.to_nat (currentStepIndex e + 1) - length (forwardSteps e)) node)
      as (-> & -> & ->).
Qed.

(** From the start, [k] steps within the step list leave the cursor at
    [k - 1]. *)
Lemma stepForward_times_cursor e k :
  currentStepIndex e = (-1)%Z →
  k ≤ length (forwardSteps e ++ backwardSteps e) →
  ∃ e', stepForward_times backwardLocal k e = Ok e' ∧
        currentStepIndex e' = (Z.of_nat k - 1)%Z ∧
        length (forwardSteps e' ++ backwardSteps e')
        = length (forwardSteps e ++ backwardSteps e).
Proof.
  intros Hstart Hk. unfold stepForward_times.
  destruct (for_invariant
    (λ i e', currentStepIndex e' = (Z.of_nat i - 1)%Z ∧
             length (forwardSteps e') = length (forwardSteps e) ∧
             length (backwardSteps e') = length (backwardSteps e))
    k (λ _ e, r ← stepForward backwardLocal e; Ok r.2) e)
    as (e' & Hfor & Hc & Hf & Hb).
  - split; [by rewrite Hstart|done].
  - intros i e1 Hi (Hc & Hf & Hb).
    destruct (stepForward_advance e1) as (e2 & -> & Hc2 & Hf2 & Hb2).
    + lia.
    + rewrite length_app, Hf, Hb, <- length_app. lia.
    + exists e2. split; [done|]. split; [lia|]. by rewrite Hf2, Hb2.
  - exists e'. split; [done|]. split; [done|]. by rewrite !length_app, Hf, Hb.
Qed.

(** C10: an engine whose graph has no output node has an empty step list;
    freshly reset (a new engine is) its state is [currentStep = -1],
    [totalSteps = 0], [mode = idle], [isComplete = true], and stepForward
    returns false and changes nothing. *)
Theorem engine_without_output e :
  no_output (graph e) →
  getState (reset e) = mkState Idle (-1) 0 ∅ [] true ∧
  stepForward backwardLocal (reset e) = Ok (false, reset e) ∧
  (∀ h, getState (new_engine h (graph e)) = mkState Idle (-1) 0 ∅ [] true ∧
        stepForward backwardLocal (new_engine h (graph e))
        = Ok (false, new_engine h (graph e))).
Proof.
  intros [_ Horder].
  assert (∀ e0, graph e0 = graph e →
            getState (reset e0) = mkState Idle (-1) 0 ∅ [] true ∧
            stepForward backwardLocal (reset e0) = Ok (false, reset e0)) as Hany.
  { intros e0 Hg. unfold reset, generateSteps, getState, stepForward. simpl.
    rewrite Hg, Horder. done. }
  split; [by apply Hany|]. split; [by apply Hany|].
  intros h. by apply (Hany (mkEngine h (graph e) [] [] (-1) Idle ∅)).
Qed.

End EngineFacts.

(** An engine on a graph without output node. *)
Lemma engine_without_output_witness :
  getState no_output_engine = mkState Idle (-1) 0 ∅ [] true ∧
  stepForward backwardLocal_spec no_output_engine = Ok (false, no_output_engine).
Proof.
  destruct (engine_without_output backwardLocal_spec no_output_engine)
    as (Hstate & Hstep & _); [by split|].
  split; [exact Hstate|exact Hstep].
Defined.

(** C4 on the code: after the first two steps of [out = x * y + x] (the
    forward steps of [x] and [y]), [jumpToStep(0)] and [reset()] followed by
    one [stepForward()] both return and agree on mode, cursor, number of
    steps, active nodes and completion, but not on the step records:
    [jumpToStep] leaves the equation of step 1 from the earlier run in place,
    where the replay from a reset has the blank text of a step not yet run.
    No backward step is involved, so this holds whatever [backwardLocal]
    does. *)
Lemma jump_keeps_text_of_later_steps
    (backwardLocal : list (ComputationNode Qc) → nat → Qc →
                     list (ComputationNode Qc) * gmap string Qc) :
  let jumped := getState <$> shared_jumped backwardLocal in
  let replayed := getState <$> shared_replayed backwardLocal in
  returned jumped = true ∧ returned replayed = true ∧
  jumped ≠ replayed ∧
  (λ s, (state_mode s, currentStep s, totalSteps s, activeNodes s, isComplete s))
    <$> jumped
  = (λ s, (state_mode s, currentStep s, totalSteps s, activeNodes s, isComplete s))
    <$> replayed ∧
  (λ s, equation <$> steps s !! 1) <$> jumped = Ok (Some "y = 3.000") ∧
  (λ s, equation <$> steps s !! 1) <$> replayed = Ok (Some "").
Proof.
  cbv zeta. split; [reflexivity|]. split; [reflexivity|].
  split; [|split; [|split]; reflexivity].
  intros Heq.
  apply (f_equal (fmap (λ s, equation <$> steps s !! 1))) in Heq.
  vm_compute in Heq. discriminate Heq.
Qed.

(** ** ExecutionEngine.ts: gradient accumulation *)

Section Accumulation.
Context {num : Type} `{JSNumber num}.
Implicit Types (e : ExecutionEngine num) (pending grads : gmap string num).

(** The loop over the returned entries adds each gradient to the pending
    entry of its key and touches no other entry. *)
Lemma accumulate_lookup pending grads (key : string) :
  accumulate pending grads !! key
  = match grads !! key with
    | Some grad => Some (nadd (get_or_0 pending key) grad)
    | None => pending !! key
    end.
Proof.
  set (P := λ (p : gmap string num) (m : gmap string num),
    ∀ key : string,
      p !! key = match m !! key with
                 | Some grad => Some (nadd (get_or_0 pending key) grad)
                 | None => pending !! key
                 end).
  assert (P (accumulate pending grads) grads) as HP; [|exact (HP key)].
  unfold accumulate. apply (map_fold_weak_ind P); subst P; cbv beta.
  - intros k. by rewrite lookup_empty.
  - intros i x m p Hi IH k. destruct (decide (i = k)) as [->|Hne].
    + rewrite !lookup_insert_eq. do 2 f_equal. unfold get_or_0.
      by rewrite IH, Hi.
    + rewrite !lookup_insert_ne by done. apply IH.
Qed.

(** C1: a backward-phase step of stepForward after the first, on a
    registered node, reads the pending gradient of the stepped node (0 when
    there is none) as its upstream gradient, obtains from [backwardLocal] the
    local contribution of the node to each of its inputs (the per-variant
    rule, whatever else the method does to the node objects), and adds each
    contribution to the pending entry of that input (0 when there is none);
    every other entry is left as it was, so the contributions of several
    consumers add up. *)
Theorem backward_step_accumulates
    (backwardLocal : list (ComputationNode num) → nat → num →
                     list (ComputationNode num) * gmap string num)
    e (step : StepInfo num) (node : nat) :
  (∀ h r upstream,
     (backwardLocal h r upstream).2 = (backwardLocal_spec h r upstream).2) →
  let allSteps := forwardSteps e ++ backwardSteps e in
  let index := Z.to_nat (currentStepIndex e + 1) in
  length (forwardSteps e) < index →
  allSteps !! index = Some step →
  nodes (graph e) !! nodeId step = Some node →
  let upstream := get_or_0 (pendingGradients e) (id (deref (heap e) node)) in
  let contributions := (backwardLocal_spec (heap e) node upstream).2 in
  ∃ e', stepForward backwardLocal e = Ok (true, e') ∧
        ∀ inputId,
          pendingGradients e' !! inputId
          = match contributions !! inputId with
            | Some grad =>
                Some (nadd (get_or_0 (pendingGradients e) inputId) grad)
            | None => pendingGradients e !! inputId
            end.
Proof.
  intros Hlocal allSteps index Hback Hstep Hnode upstream contributions.
  assert (index < length allSteps) as Hlt by (by eapply lookup_lt_Some).
  unfold stepForward. fold allSteps.
  rewrite decide_False by lia. rewrite decide_True by lia.
  fold index. rewrite Hstep. cbn [nodes graph forwardSteps]. rewrite Hnode.
  rewrite decide_False by lia.
  eexists. split; [reflexivity|]. intros inputId.
  unfold step_backward_phase. cbn [heap pendingGradients].
  rewrite decide_False by lia. fold upstream.
  pose proof (Hlocal (heap e) node upstream) as Hgrads.
  destruct (backwardLocal (heap e) node upstream) as [h' grads].
  cbn [snd] in Hgrads. subst grads. cbn [pendingGradients].
  apply accumulate_lookup.
Qed.

End Accumulation.

(** The graph [out = x * y + x] after the backward step of [out], which
    left 1 pending on [x]: the backward step of [m] adds its contribution 3,
    so [x] holds the sum 4 of the contributions of both its consumers. *)
Lemma backward_step_accumulates_witness :
  pendingGradients shared_engine_mid_state !! "x" = Some (lit 1) ∧
  ∃ e', stepForward backwardLocal_spec shared_engine_mid_state = Ok (true, e') ∧
        pendingGradients e' !! "x" = Some (lit 4).
Proof.
  split; [reflexivity|].
  destruct (backward_step_accumulates backwardLocal_spec
              shared_engine_mid_state (backward_skeleton shared_heap 2) 2)
    as (e' & Hstep & Hpending).
  - reflexivity.
  - vm_compute. lia.
  - reflexivity.
  - reflexivity.
  - exists e'. split; [exact Hstep|]. rewrite Hpending. reflexivity.
Defined.

(** * Further properties *)

(** ** Matrix.ts: the other operations *)

Section Tables.
Context {num : Type} `{JSNumber num}.
Implicit Types (m : Matrix num) (f g : nat → nat → num).

Lemma replicate_tabulate r c (v : num) :
  replicate r (replicate c v) = tabulate r c (λ _ _, v).
Proof.
  assert (∀ (A B : Type) (x : B) (l : list A), (λ _, x) <$> l = replicate (length l) x)
    as Hconst.
  { intros A B x l. induction l as [|a l IH]; [done|]. simpl. f_equal. exact IH. }
  unfold tabulate. cbv beta. by rewrite !Hconst, !length_seq.
Qed.

(** A rectangular matrix is the table of its cells. *)
Lemma shaped_data_tabulate r c m : shaped r c m → data m = tabulate r c (cellAt m).
Proof.
  intros Hm. apply list_eq. intros i.
  destruct (decide (i < r)) as [Hi|Hi].
  - rewrite tabulate_lookup by done.
    destruct (shaped_row r c m i Hm Hi) as (row & Hrow & Hlen).
    rewrite Hrow. f_equal. apply list_eq. intros j.
    rewrite list_lookup_fmap. destruct (decide (j < c)) as [Hj|Hj].
    + rewrite lookup_seq_lt by done. simpl. unfold cellAt. rewrite Hrow. simpl.
      destruct (lookup_lt_is_Some_2 row j) as [v Hv]; [lia|]. by rewrite Hv.
    + rewrite lookup_seq_ge by lia. simpl. apply lookup_ge_None. lia.
  - destruct Hm as (_ & _ & Hl & _).
    rewrite (proj2 (lookup_ge_None _ _)) by lia.
    symmetry. apply lookup_ge_None. rewrite tabulate_length. lia.
Qed.

Lemma shaped_eq r c m : shaped r c m → m = mkMatrix r c (tabulate r c (cellAt m)).
Proof.
  intros Hm. rewrite <- (shaped_data_tabulate r c m Hm).
  destruct Hm as (<- & <- & _). by destruct m.
Qed.

(** Writing one cell of a table. *)
Lemma wr_tabulate r c g i j (v : num) :
  i < r → j < c →
  wr (mkMatrix r c (tabulate r c g)) i j v
  = Ok (mkMatrix r c
          (tabulate r c (λ i' j', if decide (i' = i ∧ j' = j) then v else g i' j'))).
Proof.
  intros Hi Hj.
  rewrite (wr_in_range _ i j v (g i <$> seq 0 c));
    [|by apply tabulate_lookup|by rewrite length_fmap, length_seq].
  cbn [rows cols data]. do 2 f_equal. apply list_eq. intros i'.
  destruct (decide (i' < r)) as [Hi'|Hi'].
  - rewrite tabulate_lookup by done.
    destruct (decide (i' = i)) as [->|Hne].
    + rewrite list_lookup_insert_eq by (by rewrite tabulate_length).
      f_equal. apply list_eq. intros j'. rewrite list_lookup_fmap.
      destruct (decide (j' < c)) as [Hj'|Hj'].
      * rewrite lookup_seq_lt by done. simpl.
        destruct (decide (j' = j)) as [->|Hnej].
        -- rewrite list_lookup_insert_eq by (by rewrite length_fmap, length_seq).
           by rewrite decide_True.
        -- rewrite list_lookup_insert_ne by done.
           rewrite list_lookup_fmap, lookup_seq_lt by done. simpl.
           rewrite decide_False by (intros [_ ?]; done). done.
      * rewrite lookup_seq_ge by lia. simpl. apply lookup_ge_None.
        rewrite length_insert, length_fmap, length_seq. lia.
    + rewrite list_lookup_insert_ne by done. rewrite tabulate_lookup by done.
      f_equal. apply list_fmap_ext. intros _ j' _.
      rewrite decide_False by (intros [? _]; done). done.
  - rewrite (proj2 (lookup_ge_None _ _))
      by (rewrite length_insert, tabulate_length; lia).
    symmetry. apply lookup_ge_None. rewrite tabulate_length. lia.
Qed.

End Tables.

Section Transposition.
Context {num : Type} `{JSNumber num}.
Implicit Types (m : Matrix num).

(** The loop nest of [transpose] writes the table of the swapped cells. *)
Lemma transpose_tabulate r c m :
  shaped r c m →
  transpose m = Ok (mkMatrix c r (tabulate c r (λ j i, cellAt m i j))).
Proof.
  intros Hm. pose proof Hm as (Hr & Hc & _).
  unfold transpose. rewrite zeros_ok, Hr, Hc, replicate_tabulate.
  change (Ok ?x ≫= ?f) with (f x). cbv beta.
  destruct (for_invariant
    (λ i res, res = mkMatrix c r (tabulate c r
       (λ j i', if decide (i' < i) then cellAt m i' j else lit 0)))
    r (λ i result,
         for_ c (λ j result, v ← rd m i j; wr result j i v) result)
    (mkMatrix c r (tabulate c r (λ _ _, lit 0)))) as (res & Hfor & ->).
  - reflexivity.
  - intros i res Hi ->.
    destruct (for_invariant
      (λ j res, res = mkMatrix c r (tabulate c r
         (λ j' i', if decide (i' < i ∨ (i' = i ∧ j' < j))
                   then cellAt m i' j' else lit 0)))
      c (λ j result, v ← rd m i j; wr result j i v)
      (mkMatrix c r (tabulate c r
         (λ j i', if decide (i' < i) then cellAt m i' j else lit 0))))
      as (res & Hin & ->).
    + f_equal. apply tabulate_ext. intros j' i' _ _.
      repeat case_decide; try done; exfalso; lia.
    + intros j res Hj ->. rewrite (rd_shaped r c) by done.
      change (Ok ?x ≫= ?f) with (f x). cbv beta.
      rewrite wr_tabulate by done.
      eexists. split; [reflexivity|]. f_equal. apply tabulate_ext.
      intros j' i' _ _.
      repeat case_decide; destruct_and?; subst; try done; exfalso; lia.
    + eexists. split; [exact Hin|]. f_equal. apply tabulate_ext.
      intros j' i' Hj' _.
      repeat case_decide; try done; exfalso; lia.
  - rewrite Hfor. do 2 f_equal. apply tabulate_ext. intros j i' _ Hi'.
    by rewrite decide_True.
Qed.

(** X1: on a rectangular [r] by [c] matrix, transpose returns the [c] by [r]
    matrix whose element in row [j] and column [i] is the element of the
    original in row [i] and column [j]. *)
Theorem transpose_cells r c m :
  shaped r c m →
  ∃ t, transpose m = Ok t ∧ shaped c r t ∧
       ∀ i j, i < r → j < c → cellAt t j i = cellAt m i j.
Proof.
  intros Hm. eexists. split; [by apply transpose_tabulate|].
  split; [apply shaped_tabulate|].
  intros i j Hi Hj. by rewrite cellAt_tabulate.
Qed.

(** X2: transposing a rectangular matrix twice gives the matrix back, also
    when it has no rows or no columns. *)
Theorem transpose_involutive r c m :
  shaped r c m → transpose m ≫= transpose = Ok m.
Proof.
  intros Hm. rewrite (transpose_tabulate r c m Hm).
  change (Ok ?x ≫= ?f) with (f x).
  rewrite (transpose_tabulate c r) by apply shaped_tabulate.
  symmetry. rewrite (shaped_eq r c m Hm) at 1. do 2 f_equal.
  apply tabulate_ext. intros i j Hi Hj. by rewrite cellAt_tabulate.
Qed.

End Transposition.

Lemma transpose_cells_witness :
  ∃ t, transpose (num := Qc)
         (mkMatrix 2 3 [[lit 1; lit 2; lit 3]; [lit 4; lit 5; lit 6]]) = Ok t ∧
       cellAt t 2 0 = lit 3 ∧ cellAt t 0 1 = lit 4.
Proof.
  destruct (transpose_cells (num := Qc) 2 3
              (mkMatrix 2 3 [[lit 1; lit 2; lit 3]; [lit 4; lit 5; lit 6]]))
    as (t & Ht & _ & Hcells); [by repeat constructor|].
  exists t. split; [exact Ht|].
  split; [by rewrite (Hcells 0 2) by lia|by rewrite (Hcells 1 0) by lia].
Defined.

Lemma transpose_involutive_witness :
  transpose (num := Qc) (mkMatrix 0 3 []) ≫= transpose = Ok (mkMatrix 0 3 []) ∧
  transpose (num := Qc) (mkMatrix 2 1 [[lit 1]; [lit 2]]) ≫= transpose
  = Ok (mkMatrix 2 1 [[lit 1]; [lit 2]]).
Proof.
  split.
  - apply (transpose_involutive (num := Qc) 0 3). by repeat constructor.
  - apply (transpose_involutive (num := Qc) 2 1). by repeat constructor.
Defined.

Section MapAndMultiply.
Context {num : Type} `{JSNumber num}.
Implicit Types (m A B : Matrix num).

Lemma map_tabulate r c m (fn : num → nat → nat → num) :
  shaped r c m →
  Matrix_map m fn
  = Ok (mkMatrix r c (tabulate r c (λ i j, fn (cellAt m i j) i j))).
Proof.
  intros Hm. pose proof Hm as (Hr & Hc & _).
  unfold Matrix_map. rewrite zeros_ok, Hr, Hc.
  change (Ok ?x ≫= ?f) with (f x). cbv beta.
  apply fill_tabulate; [apply shaped_zeros|].
  intros i j Hi Hj. by rewrite (rd_shaped r c).
Qed.

(** X3: map on a rectangular matrix returns the matrix of the same shape
    whose elements are the callback applied to the elements and their
    indices, and two maps in a row are the map of the composed callback. *)
Theorem map_cells r c m (f g : num → nat → nat → num) :
  shaped r c m →
  (∃ t, Matrix_map m f = Ok t ∧ shaped r c t ∧
        ∀ i j, i < r → j < c → cellAt t i j = f (cellAt m i j) i j) ∧
  Matrix_map m f ≫= (λ t, Matrix_map t g)
  = Matrix_map m (λ v i j, g (f v i j) i j).
Proof.
  intros Hm. rewrite !(map_tabulate r c m) by done. split.
  - eexists. split; [reflexivity|]. split; [apply shaped_tabulate|].
    intros i j Hi Hj. by rewrite cellAt_tabulate.
  - change (Ok ?x ≫= ?f) with (f x). cbv beta.
    rewrite (map_tabulate r c) by apply shaped_tabulate.
    do 2 f_equal. apply tabulate_ext. intros i j Hi Hj.
    by rewrite cellAt_tabulate.
Qed.

(** A loop that only updates an accumulator is a left fold. *)
Lemma for_foldl {S} n (body : nat → S → outcome S) (f : S → nat → S) s :
  (∀ k s, k < n → body k s = Ok (f s k)) →
  for_ n body s = Ok (foldl f s (seq 0 n)).
Proof.
  intros Hbody. induction n as [|n IH]; [done|].
  rewrite for_S, IH by (intros; apply Hbody; lia).
  rewrite seq_S, foldl_app. simpl. apply Hbody. lia.
Qed.

Lemma foldl_ext_in {S K} (f g : S → K → S) (l : list K) s :
  (∀ s k, k ∈ l → f s k = g s k) → foldl f s l = foldl g s l.
Proof.
  revert s. induction l as [|k l IH]; intros s Hfg; [done|].
  simpl. rewrite Hfg by left. apply IH. intros s' k' Hk'. apply Hfg. by right.
Qed.

Lemma multiply_tabulate r n c A B :
  shaped r n A → shaped n c B →
  multiply A B = Ok (mkMatrix r c (tabulate r c (dot A B n))).
Proof.
  intros HA HB. pose proof HA as (Hr & Hn & _). pose proof HB as (Hn' & Hc & _).
  unfold multiply. rewrite decide_False by (intros ?; congruence).
  rewrite zeros_ok, Hr, Hc, Hn.
  change (Ok ?x ≫= ?f) with (f x). cbv beta.
  apply fill_tabulate; [apply shaped_zeros|].
  intros i j Hi Hj. unfold dot. apply for_foldl.
  intros k sum Hk.
  by rewrite (rd_shaped r n A), (rd_shaped n c B).
Qed.

(** X4: the product of an [r] by [n] and an [n] by [c] rectangular matrix
    is the [r] by [c] matrix whose element in row [i] and column [j] is the
    sum over [k] of [A[i][k] * B[k][j]]. *)
Theorem multiply_cells r n c A B :
  shaped r n A → shaped n c B →
  ∃ C, multiply A B = Ok C ∧ shaped r c C ∧
       ∀ i j, i < r → j < c → cellAt C i j = dot A B n i j.
Proof.
  intros HA HB. eexists. split; [by apply multiply_tabulate|].
  split; [apply shaped_tabulate|].
  intros i j Hi Hj. by rewrite cellAt_tabulate.
Qed.

(** X5: when the multiplication of numbers commutes, the transpose of a
    product is the product of the transposes in the opposite order. *)
Theorem transpose_multiply r n c A B :
  (∀ a b : num, nmul a b = nmul b a) →
  shaped r n A → shaped n c B →
  multiply A B ≫= transpose
  = (tB ← transpose B; tA ← transpose A; multiply tB tA).
Proof.
  intros Hcomm HA HB.
  rewrite (multiply_tabulate r n c A B), (transpose_tabulate n c B),
    (transpose_tabulate r n A) by done.
  change (Ok ?x ≫= ?f) with (f x). cbv beta.
  rewrite (transpose_tabulate r c) by apply shaped_tabulate.
  change (Ok ?x ≫= ?f) with (f x). cbv beta.
  rewrite (multiply_tabulate c n r) by apply shaped_tabulate.
  do 2 f_equal. apply tabulate_ext. intros j i Hj Hi.
  rewrite cellAt_tabulate by done. unfold dot.
  apply foldl_ext_in. intros sum k Hk%elem_of_seq.
  rewrite !cellAt_tabulate by lia. by rewrite Hcomm.
Qed.

End MapAndMultiply.

Section Construction.
Context {num : Type} `{JSNumber num}.
Implicit Types (m : Matrix num) (arr : list num)
               (store : gmap nat (list (list num))).

(** The constructor accepts a rectangular array that has a row. *)
Lemma Matrix_new_shaped r c (d : list (list num)) :
  0 < r → shaped r c (mkMatrix r c d) →
  Matrix_new r c (Some d) = Ok (mkMatrix r c d).
Proof.
  intros Hr (_ & _ & Hlen & Hrows). cbn in Hlen, Hrows.
  destruct d as [|row0 rest]; [cbn in Hlen; lia|].
  unfold Matrix_new.
  destruct (check_data_cons r c row0 rest) as [(_ & _ & ->)|([?|Hne] & _)];
    [done|done|].
  by apply Forall_cons_1 in Hrows as [? _].
Qed.

Lemma ones_tabulate r c :
  0 < r → ones r c = Ok (mkMatrix r c (tabulate r c (λ _ _, lit 1))).
Proof.
  intros Hr. unfold ones. cbv zeta. rewrite replicate_tabulate.
  apply Matrix_new_shaped; [done|apply shaped_tabulate].
Qed.

(** X6: Matrix.ones(r, c) with at least one row returns the [r] by [c]
    matrix of ones; with no rows it throws a TypeError (the constructor reads
    the length of a first row), although Matrix.zeros(0, c) returns the empty
    matrix. *)
Theorem ones_cells r c :
  (∀ t, ones r c = Ok t →
        shaped r c t ∧ ∀ i j, i < r → j < c → cellAt t i j = lit 1) ∧
  (returned (ones r c) = true ↔ 0 < r) ∧
  ones 0 c = Throw TypeError ∧
  zeros 0 c = Ok (mkMatrix 0 c []).
Proof.
  pose proof (ones_tabulate r c) as Hpos.
  split; [|split; [|split]]; [| |done..].
  - intros t Ht. destruct (decide (0 < r)) as [Hr|Hr].
    + rewrite Hpos in Ht by done. injection Ht as <-.
      split; [apply shaped_tabulate|]. intros i j Hi Hj.
      by rewrite cellAt_tabulate.
    + by replace r with 0 in Ht by lia.
  - split.
    + intros Hret. destruct r; [done|lia].
    + intros Hr. by rewrite Hpos.
Qed.

(** X7: Matrix.fromArray(arr, false).toArray() is [arr] for every array;
    Matrix.fromArray(arr) as a column followed by toArray() is [arr] for a
    non-empty array, and on the empty array fromArray throws a TypeError. *)
Theorem fromArray_toArray arr :
  (∃ m, fromArray arr false = Ok m ∧ shaped 1 (length arr) m ∧ toArray m = arr) ∧
  (arr ≠ [] →
   ∃ m, fromArray arr true = Ok m ∧ shaped (length arr) 1 m ∧ toArray m = arr) ∧
  (arr = [] → fromArray arr true = Throw TypeError).
Proof.
  split; [|split].
  - exists (mkMatrix 1 (length arr) [arr]). split; [|split].
    + unfold fromArray. apply Matrix_new_shaped; [lia|by repeat constructor].
    + by repeat constructor.
    + unfold toArray. cbn. apply app_nil_r.
  - intros Harr. exists (mkMatrix (length arr) 1 ((λ val, [val]) <$> arr)).
    assert (shaped (length arr) 1
              (mkMatrix (length arr) 1 ((λ val, [val]) <$> arr))) as Hshaped.
    { repeat split; cbn; [by rewrite length_fmap|].
      apply Forall_fmap, Forall_forall. by intros. }
    split; [|split]; [|done|].
    + unfold fromArray. apply Matrix_new_shaped; [|done].
      destruct arr; [done|cbn; lia].
    + unfold toArray. cbn. clear Harr Hshaped.
      induction arr as [|a arr IH]; [done|]. cbn. f_equal. exact IH.
  - by intros ->.
Qed.

End Construction.

Lemma map_cells_witness :
  Matrix_map (num := Qc) (mkMatrix 1 2 [[lit 1; lit 2]])
             (λ v _ _, nadd v (lit 1))
  ≫= (λ t, Matrix_map t (λ v _ _, nmul v (lit 2)))
  = Ok (mkMatrix 1 2 [[lit 4; lit 6]]).
Proof.
  rewrite (proj2 (map_cells (num := Qc) 1 2 (mkMatrix 1 2 [[lit 1; lit 2]])
            (λ v _ _, nadd v (lit 1)) (λ v _ _, nmul v (lit 2))
            ltac:(by repeat constructor))).
  reflexivity.
Defined.

Lemma multiply_cells_witness :
  ∃ C, multiply (num := Qc)
         (mkMatrix 2 3 [[lit 1; lit 2; lit 3]; [lit 4; lit 5; lit 6]])
         (mkMatrix 3 2 [[lit 7; lit 8]; [lit 9; lit 10]; [lit 11; lit 12]])
       = Ok C ∧ cellAt C 1 0 = lit 139.
Proof.
  destruct (multiply_cells (num := Qc) 2 3 2
              (mkMatrix 2 3 [[lit 1; lit 2; lit 3]; [lit 4; lit 5; lit 6]])
              (mkMatrix 3 2 [[lit 7; lit 8]; [lit 9; lit 10]; [lit 11; lit 12]]))
    as (C & HC & _ & Hcells); [by repeat constructor..|].
  exists C. split; [exact HC|]. by rewrite (Hcells 1 0) by lia.
Defined.

Lemma transpose_multiply_witness :
  let A : Matrix Qc := mkMatrix 1 2 [[lit 1; lit 2]] in
  let B : Matrix Qc := mkMatrix 2 1 [[lit 3]; [lit 4]] in
  multiply A B ≫= transpose
  = (tB ← transpose B; tA ← transpose A; multiply tB tA).
Proof.
  intros A B.
  apply (transpose_multiply (num := Qc) 1 2 1 A B);
    [exact Qcmult_comm|by repeat constructor..].
Defined.

(** ** Matrix.ts: copy() on the heap of arrays *)

Section DeepCopy.
Context {num : Type} `{JSNumber num}.
Implicit Types (σ : ArrayHeap.heap num) (m : MatrixObj) (refs : list nat)
               (d : list (list num)).

Lemma numbers_at_mono σ σ' a xs :
  σ ⊆ σ' → ArrayHeap.numbers_at σ a = Some xs →
  ArrayHeap.numbers_at σ' a = Some xs.
Proof.
  unfold ArrayHeap.numbers_at. intros Hsub Ha.
  destruct (σ !! a) as [[ys|?]|] eqn:E; try done.
  by rewrite (lookup_weaken _ _ _ _ E Hsub).
Qed.

Lemma rows_at_mono σ σ' a refs :
  σ ⊆ σ' → ArrayHeap.rows_at σ a = Some refs →
  ArrayHeap.rows_at σ' a = Some refs.
Proof.
  unfold ArrayHeap.rows_at. intros Hsub Ha.
  destruct (σ !! a) as [[?|ys]|] eqn:E; try done.
  by rewrite (lookup_weaken _ _ _ _ E Hsub).
Qed.

Lemma numbers_at_dom σ a xs : ArrayHeap.numbers_at σ a = Some xs → a ∈ dom σ.
Proof.
  unfold ArrayHeap.numbers_at. intros Ha. apply elem_of_dom.
  destruct (σ !! a); [by eexists|done].
Qed.

Lemma rows_at_dom σ a refs : ArrayHeap.rows_at σ a = Some refs → a ∈ dom σ.
Proof.
  unfold ArrayHeap.rows_at. intros Ha. apply elem_of_dom.
  destruct (σ !! a); [by eexists|done].
Qed.

Lemma rows_mono σ σ' refs d :
  σ ⊆ σ' → mapM (ArrayHeap.numbers_at σ) refs = Some d →
  mapM (ArrayHeap.numbers_at σ') refs = Some d.
Proof.
  intros Hsub Hd%mapM_Some. apply mapM_Some.
  eapply Forall2_impl; [exact Hd|]. intros a xs. by apply numbers_at_mono.
Qed.

Lemma contents_mono σ σ' a d :
  σ ⊆ σ' → ArrayHeap.contents σ a = Some d → ArrayHeap.contents σ' a = Some d.
Proof.
  unfold ArrayHeap.contents. intros Hsub Hc.
  destruct (ArrayHeap.rows_at σ a) as [refs|] eqn:E; [|done].
  rewrite (rows_at_mono _ _ _ _ Hsub E). simpl in *. by eapply rows_mono.
Qed.

(** Writing an array that is not among the rows leaves the rows as they
    are. *)
Lemma rows_insert_ne σ refs d a v :
  a ∉ refs → mapM (ArrayHeap.numbers_at σ) refs = Some d →
  mapM (ArrayHeap.numbers_at (<[a := v]> σ)) refs = Some d.
Proof.
  intros Hnin Hd%mapM_Some. apply mapM_Some.
  induction Hd as [|b xs refs d Hb _ IH]; constructor.
  - unfold ArrayHeap.numbers_at in *. rewrite lookup_insert_ne; [done|].
    set_solver.
  - apply IH. set_solver.
Qed.

Lemma insert_fresh_subseteq σ v : σ ⊆ <[fresh (dom σ) := v]> σ.
Proof. apply insert_subseteq, not_elem_of_dom, is_fresh. Qed.

(** The spread of the rows allocates one new array per row, all different
    and none of the old heap, with the elements of the rows. *)
Lemma spread_rows_spec refs : ∀ σ d,
  mapM (ArrayHeap.numbers_at σ) refs = Some d →
  ∃ refs' σ',
    ArrayHeap.spread_rows σ refs = Some (refs', σ') ∧ σ ⊆ σ' ∧
    Forall (λ a, a ∉ dom σ) refs' ∧ NoDup refs' ∧
    mapM (ArrayHeap.numbers_at σ') refs' = Some d.
Proof.
  induction refs as [|a refs IH]; intros σ d Hd.
  - injection Hd as <-. exists [], σ.
    split; [done|]. split; [done|]. split; [constructor|].
    split; [constructor|done].
  - apply mapM_Some in Hd.
    apply Forall2_cons_inv_l in Hd as (xs & d0 & Ha & Hrest & ->).
    pose proof (insert_fresh_subseteq σ (ArrayHeap.Numbers xs)) as Hsub1.
    destruct (IH (<[fresh (dom σ) := ArrayHeap.Numbers xs]> σ) d0)
      as (refs' & σ' & Hs & Hsub & Hnew & Hnd & Hd').
    { eapply rows_mono; [exact Hsub1|]. by apply mapM_Some. }
    exists (fresh (dom σ) :: refs'), σ'. split.
    { cbn [ArrayHeap.spread_rows ArrayHeap.alloc]. by rewrite Ha, Hs. }
    split; [by etrans|]. split.
    { constructor; [apply is_fresh|].
      eapply Forall_impl; [exact Hnew|]. intros b Hb Hin. apply Hb.
      rewrite dom_insert. set_solver. }
    split.
    { constructor; [|done]. intros Hin. rewrite Forall_forall in Hnew.
      apply (Hnew _ Hin). rewrite dom_insert. set_solver. }
    apply mapM_Some. constructor; [|by apply mapM_Some].
    eapply numbers_at_mono; [exact Hsub|].
    unfold ArrayHeap.numbers_at. by rewrite lookup_insert_eq.
Qed.

(** get() reads the contents. *)
Lemma get_contents σ m d i j :
  ArrayHeap.contents σ (obj_data m) = Some d →
  ArrayHeap.Matrix_get σ m i j
  = match d !! i with
    | None => Throw TypeError
    | Some xs => Ok (xs !! j)
    end.
Proof.
  unfold ArrayHeap.contents, ArrayHeap.Matrix_get. intros Hc.
  destruct (ArrayHeap.rows_at σ (obj_data m)) as [refs|]; [|done].
  simpl in Hc. apply mapM_Some in Hc.
  destruct (refs !! i) as [a|] eqn:E.
  - destruct (Forall2_lookup_l _ _ _ _ _ Hc E) as (xs & Hxs & Ha).
    by rewrite Hxs, Ha.
  - apply lookup_ge_None in E. rewrite (Forall2_length _ _ _ Hc) in E.
    by rewrite (proj2 (lookup_ge_None d i) E).
Qed.

(** set() writes one row array of the matrix and nothing else. *)
Lemma set_writes_a_row σ m row col v σ'' refs :
  ArrayHeap.rows_at σ (obj_data m) = Some refs →
  ArrayHeap.Matrix_set σ m row col v = Ok σ'' →
  ∃ a xs, refs !! row = Some a ∧ σ'' = <[a := ArrayHeap.Numbers xs]> σ.
Proof.
  unfold ArrayHeap.Matrix_set. intros -> Hset.
  destruct (refs !! row) as [a|]; [|done].
  destruct (ArrayHeap.numbers_at σ a) as [xs|]; [|done].
  repeat case_decide; try done; injection Hset as <-; by eexists _, _.
Qed.

(** X8: copy() is a deep copy.  On a matrix whose [data] has [rows] rows
    and a first row of [cols] elements it returns a matrix with the same
    elements whose [data] array and whose row arrays are all new arrays, the
    rows pairwise different, and it leaves every array that existed as it
    was.  So a later set() on the copy changes no array that existed before
    (the original reads as before), and a later set() on the original leaves
    the copy as it was.  A matrix that the constructor builds on the same
    [data] shares its rows instead: a set() through it is read back through
    the original.  On a matrix without rows copy() throws a TypeError. *)
Theorem copy_is_deep σ m d :
  ArrayHeap.contents σ (obj_data m) = Some d →
  (d = [] → ArrayHeap.Matrix_copy σ m = Throw TypeError) ∧
  (length d = obj_rows m →
   (∃ row0, head d = Some row0 ∧ length row0 = obj_cols m) →
   (∃ m' σ' refs',
      ArrayHeap.Matrix_copy σ m = Ok (m', σ') ∧
      obj_rows m' = obj_rows m ∧ obj_cols m' = obj_cols m ∧
      σ ⊆ σ' ∧
      (obj_data m' ∉ dom σ) ∧
      ArrayHeap.rows_at σ' (obj_data m') = Some refs' ∧
      Forall (λ a, a ∉ dom σ) refs' ∧ NoDup refs' ∧
      ArrayHeap.contents σ' (obj_data m') = Some d ∧
      (∀ row col v σ'',
         ArrayHeap.Matrix_set σ' m' row col v = Ok σ'' →
         σ ⊆ σ'' ∧
         ∀ i j, ArrayHeap.Matrix_get σ'' m i j = ArrayHeap.Matrix_get σ m i j) ∧
      (∀ row col v σ'',
         ArrayHeap.Matrix_set σ' m row col v = Ok σ'' →
         ∀ i j, ArrayHeap.Matrix_get σ'' m' i j = ArrayHeap.Matrix_get σ m i j)) ∧
   (∃ shared,
      ArrayHeap.Matrix_constructor σ (obj_rows m) (obj_cols m) (obj_data m)
      = Ok shared ∧
      (0 < obj_cols m →
       ∀ v, ∃ σ'',
         ArrayHeap.Matrix_set σ shared 0 0 v = Ok σ'' ∧
         ArrayHeap.Matrix_get σ'' m 0 0 = Ok (Some v)))).
Proof.
  intros Hc. pose proof Hc as Hc0. unfold ArrayHeap.contents in Hc0.
  destruct (ArrayHeap.rows_at σ (obj_data m)) as [refs|] eqn:Hrefs; [|done].
  simpl in Hc0.
  destruct (spread_rows_spec refs σ d Hc0)
    as (refs' & σ1 & Hs & Hsub1 & Hnew & Hnd & Hd').
  set (o := fresh (dom σ1)).
  set (σ' := <[o := ArrayHeap.Rows refs']> σ1).
  assert (σ1 ⊆ σ') as Hsub2 by apply insert_fresh_subseteq.
  assert (σ ⊆ σ') as Hsub by (by etrans).
  assert (o ∉ dom σ) as Ho.
  { intros Hin. apply (is_fresh (dom σ1)). fold o.
    by apply (subseteq_dom _ _ Hsub1). }
  assert (ArrayHeap.rows_at σ' o = Some refs') as Hrows'.
  { unfold ArrayHeap.rows_at, σ'. by rewrite lookup_insert_eq. }
  assert (ArrayHeap.contents σ' o = Some d) as Hc'.
  { unfold ArrayHeap.contents. rewrite Hrows'. simpl.
    exact (rows_mono _ _ _ _ Hsub2 Hd'). }
  assert (ArrayHeap.Matrix_copy σ m
          = (m' ← ArrayHeap.Matrix_constructor σ' (obj_rows m) (obj_cols m) o;
             Ok (m', σ'))) as Hcopy.
  { unfold ArrayHeap.Matrix_copy. rewrite Hrefs. simpl. by rewrite Hs. }
  split.
  - intros ->. rewrite Hcopy. unfold ArrayHeap.Matrix_constructor.
    rewrite Hc'. by rewrite check_data_empty.
  - intros Hrows (row0 & Hhead & Hcols).
    destruct d as [|row rest]; [done|]. injection Hhead as ->.
    assert (∀ data, check_data (obj_rows m) (obj_cols m) (row0 :: rest)
                    ≫= (λ _, Ok (mkMatrixObj (obj_rows m) (obj_cols m) data))
                    = Ok (mkMatrixObj (obj_rows m) (obj_cols m) data)) as Hcheck.
    { intros data.
      destruct (check_data_cons (obj_rows m) (obj_cols m) row0 rest)
        as [(_ & _ & ->)|([?|?] & _)]; done. }
    split.
    + exists (mkMatrixObj (obj_rows m) (obj_cols m) o), σ', refs'.
      split.
      { rewrite Hcopy. unfold ArrayHeap.Matrix_constructor.
        by rewrite Hc', Hcheck. }
      repeat (split; [done|]). split.
      * intros r c v σ'' Hset.
        destruct (set_writes_a_row σ' (mkMatrixObj (obj_rows m) (obj_cols m) o)
                    _ _ _ _ refs' Hrows' Hset)
          as (a & xs & Ha & ->).
        assert (σ ⊆ <[a := ArrayHeap.Numbers xs]> σ') as Hsub''.
        { apply insert_subseteq_r; [|done]. apply not_elem_of_dom.
          rewrite Forall_forall in Hnew. apply Hnew.
          by eapply list_elem_of_lookup_2. }
        split; [done|]. intros i j.
        by rewrite (get_contents _ m _ i j (contents_mono _ _ _ _ Hsub'' Hc)),
                   (get_contents _ m _ i j Hc).
      * intros r c v σ'' Hset.
        destruct (set_writes_a_row σ' m _ _ _ _ refs
                    (rows_at_mono _ _ _ _ Hsub Hrefs) Hset)
          as (a & xs & Ha & ->).
        assert (a ∈ dom σ) as Hdom.
        { apply mapM_Some in Hc0.
          destruct (Forall2_lookup_l _ _ _ _ _ Hc0 Ha) as (ys & _ & Hys).
          by eapply numbers_at_dom. }
        intros i j.
        rewrite (get_contents _ m _ i j Hc).
        apply (get_contents _ (mkMatrixObj (obj_rows m) (obj_cols m) o)).
        cbn [obj_data]. unfold ArrayHeap.contents.
        assert (ArrayHeap.rows_at (<[a := ArrayHeap.Numbers xs]> σ') o
                = Some refs') as ->.
        { unfold ArrayHeap.rows_at. rewrite lookup_insert_ne; [done|].
          by intros ->. }
        simpl. apply rows_insert_ne; [|exact (rows_mono _ _ _ _ Hsub2 Hd')].
        intros Hin. rewrite Forall_forall in Hnew. by apply (Hnew _ Hin).
    + exists (mkMatrixObj (obj_rows m) (obj_cols m) (obj_data m)). split.
      { unfold ArrayHeap.Matrix_constructor. by rewrite Hc, Hcheck. }
      intros Hpos v. apply mapM_Some in Hc0.
      apply Forall2_cons_inv_r in Hc0 as (a0 & refs0 & Ha0 & _ & ->).
      assert (a0 ≠ obj_data m) as Hne.
      { intros ->. unfold ArrayHeap.numbers_at, ArrayHeap.rows_at in *.
        by destruct (σ !! obj_data m) as [[?|?]|]. }
      exists (<[a0 := ArrayHeap.Numbers (<[0 := v]> row0)]> σ). split.
      * unfold ArrayHeap.Matrix_set. cbn [obj_data]. rewrite Hrefs.
        cbn [lookup list_lookup]. rewrite Ha0.
        by rewrite decide_True by lia.
      * unfold ArrayHeap.Matrix_get.
        assert (ArrayHeap.rows_at
                  (<[a0 := ArrayHeap.Numbers (<[0 := v]> row0)]> σ) (obj_data m)
                = Some (a0 :: refs0)) as ->.
        { unfold ArrayHeap.rows_at in *. by rewrite lookup_insert_ne. }
        cbn [lookup list_lookup]. unfold ArrayHeap.numbers_at.
        rewrite lookup_insert_eq. f_equal.
        apply list_lookup_insert_eq. lia.
Qed.

End DeepCopy.

(** A one-row matrix on a heap of two arrays. *)
Lemma copy_is_deep_witness :
  let σ : ArrayHeap.heap Qc :=
    <[7 := ArrayHeap.Rows [8]]> {[8 := ArrayHeap.Numbers [lit 1; lit 2]]} in
  ∃ m' σ' refs',
    ArrayHeap.Matrix_copy σ (mkMatrixObj 1 2 7) = Ok (m', σ') ∧
    ArrayHeap.rows_at σ' (obj_data m') = Some refs' ∧
    (obj_data m' ∉ dom σ) ∧ Forall (λ a, a ∉ dom σ) refs' ∧
    ArrayHeap.contents σ' (obj_data m') = Some [[lit 1; lit 2]].
Proof.
  intros σ.
  destruct (proj1 (proj2 (copy_is_deep σ (mkMatrixObj 1 2 7) [[lit 1; lit 2]]
                            eq_refl) eq_refl
                         (ex_intro _ [lit 1; lit 2] (conj eq_refl eq_refl))))
    as (m' & σ' & refs' & Hcopy & _ & _ & _ & Ho & Hrows & Hnew & _ & Hc & _).
  by exists m', σ', refs'.
Defined.

(** ** ComputationGraph.ts: the forward pass *)

Section ForwardPass.
Context {num : Type} `{JSNumber num}.
Implicit Types (h : list (ComputationNode num)) (n : ComputationNode num)
               (g : ComputationGraph).

Lemma forward_node_erase h n :
  (set_maxIndex 0 ∘ set_value (lit 0)) (forward_node h n)
  = (set_maxIndex 0 ∘ set_value (lit 0)) n.
Proof.
  unfold forward_node. destruct (class n); try done.
  by destruct (gt _ _).
Qed.

Lemma forward_same h x : same_but_values h (forward h x).
Proof.
  unfold same_but_values, forward. destruct (h !! x) as [n|] eqn:Hn; [|done].
  rewrite list_fmap_insert, forward_node_erase.
  apply list_insert_id. by rewrite list_lookup_fmap, Hn.
Qed.

Lemma foldl_forward_same h l : same_but_values h (foldl forward h l).
Proof.
  revert h. induction l as [|x l IH]; intros h; [done|]. simpl.
  unfold same_but_values in *. by rewrite IH, forward_same.
Qed.

Lemma same_but_values_deref h h' r :
  same_but_values h h' →
  (set_maxIndex 0 ∘ set_value (lit 0)) (deref h' r)
  = (set_maxIndex 0 ∘ set_value (lit 0)) (deref h r).
Proof.
  intros Hsame. apply (f_equal (λ l, l !! r)) in Hsame.
  rewrite !list_lookup_fmap in Hsame. unfold deref.
  destruct (h' !! r), (h !! r); simpl in *; congruence.
Qed.

Lemma forward_leaf h x r :
  inputs (deref h r) = [] → deref (forward h x) r = deref h r.
Proof.
  intros Hleaf. destruct (decide (r = x)) as [->|Hne];
    [|by apply forward_deref_ne].
  unfold forward. destruct (h !! x) as [n|] eqn:Hn; [|done].
  rewrite (deref_lookup h x n Hn) in Hleaf |- *.
  rewrite deref_insert_eq by (by eapply lookup_lt_Some).
  unfold forward_node, inputs in *. by destruct (class n).
Qed.

Lemma foldl_forward_leaf h l r :
  inputs (deref h r) = [] → deref (foldl forward h l) r = deref h r.
Proof.
  revert h. induction l as [|x l IH]; intros h Hleaf; [done|]. simpl.
  rewrite IH by (by rewrite forward_inputs). by apply forward_leaf.
Qed.

Lemma foldl_forward_lookup_ne h l r :
  r ∉ l → foldl forward h l !! r = h !! r.
Proof.
  revert h. induction l as [|x l IH]; intros h Hr; [done|]. simpl.
  rewrite IH by set_solver. apply forward_lookup_ne. set_solver.
Qed.

(** X9: graph.forward() writes nothing but the value (and, for a Max node,
    the recorded winner) of the nodes of the execution order: the id, the
    name, the class with its inputs, the gradient and the active flag of
    every node stay as they are, a node outside the execution order is not
    touched, and neither is an input or parameter node. *)
Theorem forward_writes_values_only h g :
  let h' := (graph_forward h g).1 in
  length h' = length h ∧
  (∀ r, id (deref h' r) = id (deref h r) ∧
        name (deref h' r) = name (deref h r) ∧
        class (deref h' r) = class (deref h r) ∧
        gradient (deref h' r) = gradient (deref h r) ∧
        isActive (deref h' r) = isActive (deref h r)) ∧
  (∀ r, r ∉ executionOrder g → h' !! r = h !! r) ∧
  (∀ r, inputs (deref h r) = [] → deref h' r = deref h r).
Proof.
  cbn [graph_forward fst]. split; [|split; [|split]].
  - pose proof (foldl_forward_same h (executionOrder g)) as Hsame.
    apply (f_equal length) in Hsame. by rewrite !length_fmap in Hsame.
  - intros r.
    pose proof (same_but_values_deref h _ r
                  (foldl_forward_same h (executionOrder g))) as Hr.
    destruct (deref (foldl forward h (executionOrder g)) r), (deref h r).
    by injection Hr as -> -> -> -> ->.
  - intros r Hr. by apply foldl_forward_lookup_ne.
  - intros r Hr. by apply foldl_forward_leaf.
Qed.

Lemma foldl_forward_class h l r :
  class (deref (foldl forward h l) r) = class (deref h r).
Proof.
  pose proof (same_but_values_deref h _ r (foldl_forward_same h l)) as Hr.
  destruct (deref (foldl forward h l) r), (deref h r).
  by injection Hr as -> -> -> -> ->.
Qed.

(** In a settled heap the value of a node is the value of its expression. *)
Lemma settled_denote rank h h' (order : list nat) :
  ranked rank h →
  (∀ r, r ∈ order → r < length h') →
  (∀ r, r ∈ order → settled h' r) →
  (∀ r i, r ∈ order → i ∈ inputs (deref h r) → i ∈ order) →
  (∀ r, class (deref h' r) = class (deref h r)) →
  (∀ r, inputs (deref h r) = [] → deref h' r = deref h r) →
  length h' = length h →
  ∀ fuel r, r ∈ order → rank r < fuel →
    value (deref h' r) = denote fuel h r.
Proof.
  intros Hrank Hvalid Hset Hclosed Hclass Hleaf Hlen fuel.
  induction fuel as [|fuel IH]; intros r Hr Hfuel; [lia|].
  assert (h' !! r = Some (deref h' r)) as Hlook
    by (apply lookup_deref; by apply Hvalid).
  pose proof (Hset r Hr _ Hlook) as Hfix.
  assert (∀ i, i ∈ inputs (deref h r) →
            value (deref h' i) = denote fuel h i) as Hin.
  { intros i Hi. apply IH; [by eapply Hclosed|].
    assert (rank i < rank r); [|lia].
    eapply (ranked_inputs rank h r i); [done| |done].
    rewrite <- Hlen. by apply Hvalid. }
  pose proof (Hclass r) as Hc. cbn [denote].
  unfold inputs in Hin, Hleaf. specialize (Hleaf r).
  rewrite <- Hfix. unfold forward_node. rewrite Hc.
  destruct (class (deref h r)) eqn:Hcr; rewrite ?Hc;
    try (by rewrite Hleaf);
    cbn [value set_value];
    rewrite ?(Hin input1), ?(Hin input2), ?(Hin input) by set_solver;
    try done.
  unfold Math_max. by destruct (gt _ _).
Qed.

(** X10: on an acyclic graph of nodes with unique ids, graph.forward()
    after setOutput returns the value of the expression rooted at the output
    node, every node reachable from the output holds the value of its own
    expression, and a second forward() changes nothing. *)
Theorem forward_computes_expression h g (output : nat) :
  closed h → acyclic h → unique_ids h → output < length h →
  let g' := setOutput h g output in
  let result := graph_forward h g' in
  result.2 = denote (length h) h output ∧
  (∀ r, reachable h output r →
        value (deref result.1 r) = denote (length h) h r) ∧
  graph_forward result.1 g' = result.
Proof.
  intros Hclosed Hacyc Hu Hout g' result.
  destruct (computeExecutionOrder_spec h output Hclosed Hacyc Hu Hout)
    as ((Hnd & Hvalid & Htopo) & Hreach).
  destruct Hacyc as [rank Hrank].
  set (order := computeExecutionOrder h (Some output)) in *.
  set (h' := foldl forward h order).
  assert (length h' = length h) as Hlen.
  { pose proof (foldl_forward_same h order) as Hsame.
    apply (f_equal length) in Hsame. by rewrite !length_fmap in Hsame. }
  assert (∀ r, r ∈ order → settled h' r) as Hset
    by (by apply forward_pass_settled).
  assert (∀ r, reachable h output r →
            value (deref h' r) = denote (length h) h r) as Hval.
  { intros r Hr.
    apply (settled_denote (height h rank) h h' order).
    - by apply height_ranked.
    - intros x Hx. rewrite Hlen. by apply Hvalid.
    - done.
    - intros x i Hx Hi. apply Hreach. eapply reachable_input; [|done].
      by apply Hreach.
    - intros x. apply foldl_forward_class.
    - intros x Hx. by apply foldl_forward_leaf.
    - done.
    - by apply Hreach.
    - apply height_bound. apply Hvalid. by apply Hreach. }
  split; [|split].
  - apply (Hval output). apply reachable_refl.
  - done.
  - unfold result, graph_forward. cbn [executionOrder outputNode g' setOutput fst].
    fold order. fold h'. by rewrite (foldl_forward_settled h' order).
Qed.

End ForwardPass.

Lemma forward_computes_expression_witness :
  let result := graph_forward shared_heap shared_graph in
  result.2 = lit 8 ∧ graph_forward result.1 shared_graph = result.
Proof.
  intros result.
  destruct (forward_computes_expression shared_heap
              (foldl (addNode shared_heap) new_graph [0; 1; 2; 3]) 3
              shared_heap_closed shared_heap_acyclic shared_heap_unique_ids)
    as (Hout & _ & Hagain); [cbn; lia|].
  split; [|exact Hagain]. etrans; [exact Hout|]. reflexivity.
Defined.

(** ** ComputationGraph.ts: the recursive backward pass *)

Section BackwardPass.
Context {num : Type} `{JSNumber num}.
Implicit Types (h : list (ComputationNode num)) (n : ComputationNode num)
               (g : num) (calls : list (nat * num)).

Lemma same_but_gradients_refl h : same_but_gradients h h.
Proof. done. Qed.

Lemma same_but_gradients_trans h1 h2 h3 :
  same_but_gradients h1 h2 → same_but_gradients h2 h3 →
  same_but_gradients h1 h3.
Proof. unfold same_but_gradients. congruence. Qed.

Lemma same_but_gradients_deref h h' r :
  same_but_gradients h h' →
  set_gradient (lit 0) (deref h' r) = set_gradient (lit 0) (deref h r).
Proof.
  intros Hsame. apply (f_equal (λ l, l !! r)) in Hsame.
  rewrite !list_lookup_fmap in Hsame. unfold deref.
  destruct (h' !! r), (h !! r); simpl in *; congruence.
Qed.

Lemma same_but_gradients_fields h h' r :
  same_but_gradients h h' →
  class (deref h' r) = class (deref h r) ∧
  value (deref h' r) = value (deref h r) ∧
  maxIndex (deref h' r) = maxIndex (deref h r).
Proof.
  intros Hsame. pose proof (same_but_gradients_deref h h' r Hsame) as Hr.
  destruct (deref h' r), (deref h r). by injection Hr as -> -> -> -> -> ->.
Qed.

Lemma same_but_gradients_inputs h h' r :
  same_but_gradients h h' → inputs (deref h' r) = inputs (deref h r).
Proof.
  intros Hsame. unfold inputs.
  by destruct (same_but_gradients_fields h h' r Hsame) as (-> & _).
Qed.

Lemma same_but_gradients_length h h' :
  same_but_gradients h h' → length h' = length h.
Proof.
  intros Hsame. apply (f_equal length) in Hsame.
  by rewrite !length_fmap in Hsame.
Qed.

Lemma insert_same_but_gradients h r n g :
  h !! r = Some n → same_but_gradients h (<[r := set_gradient g n]> h).
Proof.
  intros Hr. unfold same_but_gradients. rewrite list_fmap_insert.
  apply list_insert_id. by rewrite list_lookup_fmap, Hr.
Qed.

(** [backward] writes gradients only. *)
Lemma backward_same fuel h r g : same_but_gradients h (backward fuel h r g).
Proof.
  revert h r g. induction fuel as [|fuel IH]; intros h r g; [done|].
  destruct (h !! r) as [n|] eqn:Hr; [|by simpl; rewrite Hr].
  rewrite (backward_calls fuel h r n g Hr). cbv zeta.
  eapply same_but_gradients_trans; [by apply (insert_same_but_gradients h r n g)|].
  generalize (local_gradients (<[r:=set_gradient g n]> h) n g).
  generalize (<[r:=set_gradient g n]> h).
  intros h1 calls. revert h1.
  induction calls as [|call calls IHc]; intros h1; [done|]. simpl.
  eapply same_but_gradients_trans; [apply IH|apply IHc].
Qed.

(** The calls of the local rule go to the inputs, to each of them. *)
Lemma local_gradients_targets h n g i gi :
  (i, gi) ∈ local_gradients h n g → i ∈ inputs n.
Proof.
  unfold local_gradients, inputs.
  destruct (class n); try case_decide; set_solver.
Qed.

Lemma inputs_targets h n g i :
  i ∈ inputs n → ∃ gi, (i, gi) ∈ local_gradients h n g.
Proof.
  unfold local_gradients, inputs.
  destruct (class n); try case_decide;
    intros Hi; repeat (apply elem_of_cons in Hi as [->|Hi]);
    try (by apply elem_of_nil in Hi);
    eexists; first [by left | by right; left].
Qed.

(** The local rule reads the class, the value and the recorded winner of
    the node and the values of its inputs. *)
Lemma local_gradients_ext h h' n n' g :
  (∀ i, value (deref h' i) = value (deref h i)) →
  class n' = class n → value n' = value n → maxIndex n' = maxIndex n →
  local_gradients h' n' g = local_gradients h n g.
Proof.
  intros Hval Hc Hv Hm. unfold local_gradients.
  rewrite Hc, Hv, Hm. destruct (class n); by rewrite ?Hval.
Qed.

Lemma ranked_deref rank h r i :
  ranked rank h → i ∈ inputs (deref h r) → rank i < rank r.
Proof.
  intros Hrank Hi. destruct (h !! r) as [n|] eqn:Hr.
  - rewrite (deref_lookup h r n Hr) in Hi. by apply (Hrank r n Hr i Hi).
  - unfold deref in Hi. rewrite Hr in Hi. by apply elem_of_nil in Hi.
Qed.

Lemma reachable_rank rank h a b :
  ranked rank h → reachable h a b → rank b ≤ rank a.
Proof.
  intros Hrank Hab. induction Hab as [|r i _ IH Hi]; [done|].
  pose proof (ranked_deref rank h r i Hrank Hi). lia.
Qed.

Lemma reachable_first_step h r x :
  reachable h r x → x ≠ r →
  ∃ i, i ∈ inputs (deref h r) ∧ reachable h i x.
Proof.
  intros Hrx. induction Hrx as [|y i Hry IH Hi]; intros Hne; [done|].
  destruct (decide (y = r)) as [->|Hyr].
  - exists i. split; [done|apply reachable_refl].
  - destruct (IH Hyr) as (j & Hj & Hjy). exists j. split; [done|].
    by eapply reachable_input.
Qed.

(** In a ranked heap it can be told whether a node is reachable from
    another. *)
Lemma reachable_dec rank h x :
  ranked rank h → ∀ fuel r, rank r < fuel → reachable h r x ∨ ¬ reachable h r x.
Proof.
  intros Hrank fuel. induction fuel as [|fuel IH]; intros r Hr; [lia|].
  destruct (decide (x = r)) as [->|Hne]; [left; apply reachable_refl|].
  assert ((∃ i, i ∈ inputs (deref h r) ∧ reachable h i x) ∨
          ¬ (∃ i, i ∈ inputs (deref h r) ∧ reachable h i x)) as [Hvia|Hnot].
  { assert (∀ i, i ∈ inputs (deref h r) → rank i < fuel) as Hranks.
    { intros i Hi. pose proof (ranked_deref rank h r i Hrank Hi). lia. }
    revert Hranks. generalize (inputs (deref h r)). intros l.
    induction l as [|i l IHl]; intros Hranks.
    - right. intros (i & Hi & _). by apply elem_of_nil in Hi.
    - destruct (IH i) as [Hix|Hix]; [apply Hranks; by left| |].
      + left. exists i. split; [by left|done].
      + destruct IHl as [(j & Hj & Hjx)|Hnone];
          [intros j Hj; apply Hranks; by right| |].
        * left. exists j. split; [by right|done].
        * right. intros (j & [->|Hj]%elem_of_cons & Hjx); [done|].
          apply Hnone. by exists j. }
  - left. destruct Hvia as (i & Hi & Hix).
    eapply reachable_trans; [|exact Hix].
    by eapply reachable_input; [apply reachable_refl|].
  - right. intros Hrx. apply Hnot. by apply reachable_first_step.
Qed.

(** [backward] from [r] leaves the nodes that are not reachable from [r]
    as they are. *)
Lemma backward_unreachable h0 fuel h r g x :
  same_but_gradients h0 h → ¬ reachable h0 r x →
  backward fuel h r g !! x = h !! x.
Proof.
  revert h r g. induction fuel as [|fuel IH]; intros h r g Hsame Hx; [done|].
  destruct (h !! r) as [n|] eqn:Hr; [|by simpl; rewrite Hr].
  rewrite (backward_calls fuel h r n g Hr). cbv zeta.
  assert (x ≠ r) as Hne by (intros ->; apply Hx, reachable_refl).
  rewrite <- (list_lookup_insert_ne h r x (set_gradient g n)) by done.
  assert (∀ call, call ∈ local_gradients (<[r:=set_gradient g n]> h) n g →
            ¬ reachable h0 call.1 x) as Hcalls.
  { intros [i gi] Hcall%local_gradients_targets Hix. apply Hx.
    eapply reachable_trans; [|exact Hix].
    eapply reachable_input; [apply reachable_refl|].
    by rewrite <- (same_but_gradients_inputs h0 h r Hsame),
      (deref_lookup h r n Hr). }
  assert (same_but_gradients h0 (<[r:=set_gradient g n]> h)) as Hsame1.
  { eapply same_but_gradients_trans; [done|].
    by apply insert_same_but_gradients. }
  revert Hcalls Hsame1.
  generalize (local_gradients (<[r:=set_gradient g n]> h) n g).
  generalize (<[r:=set_gradient g n]> h).
  intros h1 calls. revert h1.
  induction calls as [|call calls IHc]; intros h1 Hcalls Hsame1; [done|].
  simpl. rewrite IHc.
  - apply IH; [done|]. apply Hcalls. by left.
  - intros c Hc. apply Hcalls. by right.
  - eapply same_but_gradients_trans; [done|apply backward_same].
Qed.

(** X11: graph.backward() writes gradients only, and only of the nodes
    reachable from the output node: the value, the recorded winner, the
    class, the name, the id and the active flag of every node stay as they
    are; without an output node nothing changes. *)
Theorem backward_writes_gradients_only h (gr : ComputationGraph) :
  let h' := graph_backward h gr in
  length h' = length h ∧
  (∀ r, set_gradient (gradient (deref h r)) (deref h' r) = deref h r) ∧
  (∀ output r, outputNode gr = Some output → ¬ reachable h output r →
               h' !! r = h !! r) ∧
  (outputNode gr = None → h' = h).
Proof.
  cbv zeta. unfold graph_backward.
  destruct (outputNode gr) as [o|].
  2:{ split; [done|]. split; [by intros r; destruct (deref h r)|].
      split; [by intros ? ? [=]|done]. }
  pose proof (backward_same (length h) h o (lit 1)) as Hsame.
  split; [by apply same_but_gradients_length|].
  split; [|split; [|done]].
  - intros r. pose proof (same_but_gradients_deref h _ r Hsame) as Hr.
    destruct (deref (backward (length h) h o (lit 1)) r), (deref h r).
    by injection Hr as -> -> -> -> -> ->.
  - intros output r [= <-] Hr. by apply (backward_unreachable h).
Qed.

(** What [backward] from [r] leaves in the nodes below [r]: the gradient
    that one of their consumers computes from the gradient it holds. *)
Lemma backward_contributions h0 rank :
  closed h0 → ranked rank h0 →
  ∀ fuel h r g,
    same_but_gradients h0 h → rank r < fuel → r < length h0 →
    let h' := backward fuel h r g in
    gradient (deref h' r) = g ∧
    ∀ x, reachable h0 r x → x ≠ r →
      ∃ c, reachable h0 r c ∧
           (x, gradient (deref h' x))
           ∈ local_gradients h' (deref h' c) (gradient (deref h' c)).
Proof.
  intros Hclosed Hrank fuel.
  induction fuel as [|fuel IH]; intros h r g Hsame Hfuel Hr; [lia|].
  assert (r < length h) as Hrh
    by (by rewrite (same_but_gradients_length h0 h)).
  pose proof (lookup_deref h r Hrh) as Hlook.
  set (n := deref h r) in *.
  cbv zeta. rewrite (backward_calls fuel h r n g Hlook). cbv zeta.
  set (h1 := <[r:=set_gradient g n]> h).
  set (allcalls := local_gradients h1 n g).
  assert (same_but_gradients h0 h1) as Hsame1.
  { eapply same_but_gradients_trans; [done|].
    by apply insert_same_but_gradients. }
  assert (inputs n = inputs (deref h0 r)) as Hinputs
    by (by rewrite <- (same_but_gradients_inputs h0 h r Hsame)).
  (* the calls, one after the other *)
  assert (∀ calls done_ h2,
    allcalls = done_ ++ calls →
    same_but_gradients h0 h2 →
    h2 !! r = Some (set_gradient g n) →
    (∀ x, x ≠ r → (∃ call, call ∈ done_ ∧ reachable h0 call.1 x) →
       ∃ c, reachable h0 r c ∧
            (x, gradient (deref h2 x))
            ∈ local_gradients h2 (deref h2 c) (gradient (deref h2 c))) →
    let h' := foldl (λ h call, backward fuel h call.1 call.2) h2 calls in
    h' !! r = Some (set_gradient g n) ∧
    ∀ x, x ≠ r → (∃ call, call ∈ allcalls ∧ reachable h0 call.1 x) →
      ∃ c, reachable h0 r c ∧
           (x, gradient (deref h' x))
           ∈ local_gradients h' (deref h' c) (gradient (deref h' c))) as Hloop.
  { induction calls as [|[i gi] calls IHc];
      intros done_ h2 Hall Hsame2 Hr2 Hgood.
    { cbn. rewrite app_nil_r in Hall. by subst done_. }
    cbn [foldl fst snd].
    assert ((i, gi) ∈ allcalls) as Hcall
      by (rewrite Hall; apply elem_of_app; right; by left).
    assert (i ∈ inputs (deref h0 r)) as Hi
      by (rewrite <- Hinputs; by eapply local_gradients_targets).
    assert (rank i < rank r) as Hranki
      by (by eapply (ranked_inputs rank h0 r i)).
    assert (i < length h0) as Hih by (by eapply (closed_inputs h0 r i)).
    assert (reachable h0 r i) as Hri
      by (by eapply reachable_input; [apply reachable_refl|]).
    assert (¬ reachable h0 i r) as Hnotback.
    { intros Hback%(reachable_rank rank); [lia|done]. }
    destruct (IH h2 i gi Hsame2 ltac:(lia) Hih) as (Hgi & Hbelow).
    set (h3 := backward fuel h2 i gi) in *.
    assert (same_but_gradients h0 h3) as Hsame3.
    { eapply same_but_gradients_trans; [done|apply backward_same]. }
    assert (h3 !! r = Some (set_gradient g n)) as Hr3.
    { unfold h3. by rewrite (backward_unreachable h0). }
    assert (∀ y, value (deref h3 y) = value (deref h2 y)) as Hvals.
    { intros y.
      destruct (same_but_gradients_fields h0 h3 y Hsame3) as (_ & -> & _).
      by destruct (same_but_gradients_fields h0 h2 y Hsame2) as (_ & -> & _). }
    apply (IHc (done_ ++ [(i, gi)]) h3);
      [by rewrite <- app_assoc|done|done|].
    intros x Hxr (call & Hin & Hreach).
    destruct (reachable_dec rank h0 x Hrank (S (rank i)) i ltac:(lia))
      as [Hix|Hix].
    - destruct (decide (x = i)) as [->|Hxi].
      + exists r. split; [apply reachable_refl|].
        rewrite Hgi, (deref_lookup h3 r _ Hr3). cbn [gradient set_gradient].
        rewrite (local_gradients_ext h1 h3 n (set_gradient g n));
          [done| |done..].
        intros y.
        destruct (same_but_gradients_fields h0 h3 y Hsame3) as (_ & -> & _).
        by destruct (same_but_gradients_fields h0 h1 y Hsame1) as (_ & -> & _).
      + destruct (Hbelow x Hix Hxi) as (c & Hic & Hc). exists c.
        split; [|done]. by eapply reachable_trans.
    - assert (∃ call, call ∈ done_ ∧ reachable h0 call.1 x) as Hbefore.
      { apply elem_of_app in Hin as [Hin|Hin%list_elem_of_singleton].
        - by exists call.
        - subst call. done. }
      destruct (Hgood x Hxr Hbefore) as (c & Hrc & Hc). exists c.
      split; [done|].
      assert (x ∈ inputs (deref h0 c)) as Hxc.
      { rewrite <- (same_but_gradients_inputs h0 h2 c Hsame2).
        by eapply local_gradients_targets. }
      assert (¬ reachable h0 i c) as Hic.
      { intros Hic. apply Hix. by eapply reachable_input. }
      assert (deref h3 x = deref h2 x) as ->
        by (unfold deref, h3; by rewrite (backward_unreachable h0)).
      assert (deref h3 c = deref h2 c) as ->
        by (unfold deref, h3; by rewrite (backward_unreachable h0)).
      by rewrite (local_gradients_ext h2 h3 (deref h2 c) (deref h2 c)). }
  destruct (Hloop allcalls [] h1) as (Hrfinal & Hgood); [done|done| | |].
  { unfold h1. by apply list_lookup_insert_eq. }
  { intros x _ (call & Hcall & _). by apply elem_of_nil in Hcall. }
  split.
  - by rewrite (deref_lookup _ r _ Hrfinal).
  - intros x Hrx Hxr. apply Hgood; [done|].
    destruct (reachable_first_step h0 r x Hrx Hxr) as (i & Hi & Hix).
    rewrite <- Hinputs in Hi.
    destruct (inputs_targets h1 n g i Hi) as (gi & Hcall).
    by exists (i, gi).
Qed.

(** X12: after graph.backward() on an acyclic graph the output node holds
    the gradient 1, and every other node reachable from it holds the
    contribution of one of its consumers: the gradient that the local rule of
    that consumer, itself reachable from the output, gives this input for the
    gradient the consumer holds at the end.  Whether that is the derivative
    of the output depends on the consumer: one that has several consumers of
    its own holds the contribution of one of them only. *)
Theorem backward_holds_a_contribution h (gr : ComputationGraph) (output : nat) :
  closed h → acyclic h → output < length h → outputNode gr = Some output →
  let h' := graph_backward h gr in
  gradient (deref h' output) = lit 1 ∧
  ∀ x, reachable h output x → x ≠ output →
    ∃ consumer,
      reachable h output consumer ∧
      (x, gradient (deref h' x))
      ∈ local_gradients h' (deref h' consumer) (gradient (deref h' consumer)).
Proof.
  intros Hclosed [rank Hrank] Hout Hgr. cbv zeta.
  unfold graph_backward. rewrite Hgr.
  apply (backward_contributions h (height h rank) Hclosed
           (height_ranked rank h Hclosed Hrank) (length h) h output (lit 1));
    [done|by apply height_bound|done].
Qed.

End BackwardPass.

Lemma backward_holds_a_contribution_witness :
  let h' := graph_backward shared_heap shared_graph in
  gradient (deref h' 3) = lit 1 ∧ gradient (deref h' 1) = lit 2.
Proof.
  intros h'.
  destruct (backward_holds_a_contribution shared_heap shared_graph 3
              shared_heap_closed shared_heap_acyclic) as (Hout & _);
    [cbn; lia|done|].
  split; [exact Hout|reflexivity].
Defined.

(** ** ExecutionEngine.ts: stepping *)

Section EngineSteps.
Context {num : Type} `{JSNumber num}.
Variable backwardLocal :
  list (ComputationNode num) → nat → num →
  list (ComputationNode num) * gmap string num.
Implicit Types (e : ExecutionEngine num) (s step : StepInfo num)
               (h : list (ComputationNode num)).

Lemma fmap_alter_id {A B} (f : A → B) (g : A → A) i (l : list A) :
  (∀ x, f (g x) = f x) → f <$> alter g i l = f <$> l.
Proof.
  intros Hfg. apply list_eq. intros j. rewrite !list_lookup_fmap.
  rewrite list_lookup_alter. destruct (decide (i = j)) as [->|]; [|done].
  destruct (l !! j); simpl; by rewrite ?Hfg.
Qed.

(** What stepForward does when it is not at the end. *)
Lemma stepForward_unfold e step :
  (-1 ≤ currentStepIndex e)%Z →
  (forwardSteps e ++ backwardSteps e) !! Z.to_nat (currentStepIndex e + 1)
  = Some step →
  stepForward backwardLocal e
  = Ok (true,
        let index := (currentStepIndex e + 1)%Z in
        let e1 := mkEngine (heap e) (graph e) (forwardSteps e) (backwardSteps e)
                           index (step_mode step) (pendingGradients e) in
        match nodes (graph e) !! nodeId step with
        | None => e1
        | Some node =>
            if decide (Z.to_nat index < length (forwardSteps e)) then
              step_forward_phase e1 (Z.to_nat index) node
            else
              step_backward_phase backwardLocal e1
                (Z.to_nat index - length (forwardSteps e)) node
        end).
Proof.
  intros Hlo Hstep. unfold stepForward.
  pose proof (lookup_lt_Some _ _ _ Hstep) as Hlt.
  rewrite decide_False by lia. rewrite decide_True by lia. rewrite Hstep.
  cbn [nodes graph forwardSteps]. cbv zeta.
  destruct (nodes (graph e) !! nodeId step) as [node|]; [|done].
  by destruct (decide _).
Qed.

(** A step leaves the step records as they are up to the text it writes,
    and the graph as it is. *)
Lemma stepForward_skeleton e step :
  (-1 ≤ currentStepIndex e)%Z →
  (forwardSteps e ++ backwardSteps e) !! Z.to_nat (currentStepIndex e + 1)
  = Some step →
  ∃ e', stepForward backwardLocal e = Ok (true, e') ∧
        currentStepIndex e' = (currentStepIndex e + 1)%Z ∧
        mode e' = step_mode step ∧
        graph e' = graph e ∧
        skeleton <$> forwardSteps e' = skeleton <$> forwardSteps e ∧
        skeleton <$> backwardSteps e' = skeleton <$> backwardSteps e.
Proof.
  intros Hlo Hstep. rewrite (stepForward_unfold e step Hlo Hstep).
  eexists. split; [reflexivity|]. cbv zeta.
  destruct (nodes (graph e) !! nodeId step) as [node|]; [|done].
  destruct (decide _).
  - cbn. by rewrite fmap_alter_id.
  - unfold step_backward_phase. destruct (backwardLocal _ _ _). cbn.
    by rewrite fmap_alter_id.
Qed.

Lemma skeleton_Forall (l l' : list (StepInfo num)) m :
  skeleton <$> l' = skeleton <$> l →
  Forall (λ s, step_mode s = m) l → Forall (λ s, step_mode s = m) l'.
Proof.
  intros Hsk Hl. apply Forall_lookup. intros i s' Hs'.
  apply (f_equal (λ l, l !! i)) in Hsk. rewrite !list_lookup_fmap, Hs' in Hsk.
  destruct (l !! i) as [s|] eqn:Hs; [|done].
  rewrite <- (Forall_lookup_1 _ _ _ _ Hl Hs). by injection Hsk.
Qed.

Lemma skeleton_length (l l' : list (StepInfo num)) :
  skeleton <$> l' = skeleton <$> l → length l' = length l.
Proof. intros Hsk. apply (f_equal length) in Hsk. by rewrite !length_fmap in Hsk. Qed.

(** A step from a state whose step lists are in order leads to a state
    that is in step. *)
Lemma stepForward_in_step e :
  steps_ok e →
  (currentStepIndex e
   < Z.of_nat (length (forwardSteps e ++ backwardSteps e)) - 1)%Z →
  ∃ e', stepForward backwardLocal e = Ok (true, e') ∧
        currentStepIndex e' = (currentStepIndex e + 1)%Z ∧
        graph e' = graph e ∧
        skeleton <$> forwardSteps e' = skeleton <$> forwardSteps e ∧
        skeleton <$> backwardSteps e' = skeleton <$> backwardSteps e ∧
        in_step e'.
Proof.
  intros ((Hlo & Hhi) & Hfs & Hbs) Hend.
  destruct (lookup_lt_is_Some_2 (forwardSteps e ++ backwardSteps e)
              (Z.to_nat (currentStepIndex e + 1))) as [step Hstep]; [lia|].
  destruct (stepForward_skeleton e step Hlo Hstep)
    as (e' & Hrun & Hidx & Hmode & Hgraph & Hf & Hb).
  exists e'. split; [done|]. split; [done|]. split; [done|].
  split; [done|]. split; [done|].
  pose proof (skeleton_length _ _ Hf) as Hlf.
  pose proof (skeleton_length _ _ Hb) as Hlb.
  split; [split; [|split]|].
  - rewrite length_app, Hlf, Hlb, <- length_app. lia.
  - by eapply skeleton_Forall.
  - by eapply skeleton_Forall.
  - rewrite Hmode. unfold phase. rewrite Hidx, Hlf.
    rewrite decide_False by lia.
    destruct (decide (Z.to_nat (currentStepIndex e + 1) < length (forwardSteps e)))
      as [Hin|Hout].
    + rewrite lookup_app_l in Hstep by done.
      rewrite decide_True by lia. by eapply (Forall_lookup_1 _ _ _ _ Hfs).
    + rewrite lookup_app_r in Hstep by lia.
      rewrite decide_False by lia. by eapply (Forall_lookup_1 _ _ _ _ Hbs).
Qed.

Lemma in_step_bounds e :
  steps_ok e →
  isAtEnd e = isComplete (getState e) ∧
  (isAtEnd e = false ↔
   (currentStepIndex e
    < Z.of_nat (length (forwardSteps e ++ backwardSteps e)) - 1)%Z).
Proof.
  intros ((Hlo & Hhi) & _). unfold isAtEnd, getState. cbn [isComplete].
  rewrite length_app in *. split.
  - apply bool_decide_ext. lia.
  - rewrite bool_decide_eq_false. lia.
Qed.

(** X13: on an engine that is in step (as a new engine is, and as every
    method leaves it), stepForward does not throw; it returns false exactly
    when the engine is at the end, which is when getState reports
    isComplete, and then changes nothing; otherwise it moves the cursor one
    step on, keeps the number of steps and leaves the engine in step. *)
Theorem stepForward_in_range e :
  in_step e →
  ∃ e', stepForward backwardLocal e = Ok (negb (isAtEnd e), e') ∧
        isAtEnd e = isComplete (getState e) ∧
        (isAtEnd e = true → e' = e) ∧
        (isAtEnd e = false →
           currentStepIndex e' = (currentStepIndex e + 1)%Z) ∧
        totalSteps (getState e') = totalSteps (getState e) ∧
        in_step e'.
Proof.
  intros [Hok Hmode]. destruct (in_step_bounds e Hok) as (Hcomplete & Hend).
  destruct (isAtEnd e) eqn:Hat.
  - exists e. split; [|by split_and!].
    apply stepForward_at_end. apply bool_decide_eq_true in Hat.
    rewrite length_app. lia.
  - destruct (stepForward_in_step e Hok) as (e' & Hrun & Hidx & _ & Hf & Hb & Hin);
      [by apply Hend|].
    exists e'. split; [done|]. split; [done|]. split; [done|].
    split; [done|]. split; [|done].
    cbn [totalSteps getState]. rewrite !length_app.
    by rewrite (skeleton_length _ _ Hf), (skeleton_length _ _ Hb).
Qed.

(** A new engine, and an engine after reset, is in step. *)
Lemma reset_in_step e : in_step (reset e).
Proof.
  split; [split; [|split]|].
  - cbn. lia.
  - cbn. apply Forall_fmap, Forall_forall. by intros.
  - cbn. apply Forall_fmap, Forall_forall. by intros.
  - done.
Qed.

End EngineSteps.

Section EngineBackSteps.
Context {num : Type} `{JSNumber num}.
Implicit Types (e : ExecutionEngine num) (h : list (ComputationNode num)).

Lemma alter_same_but_active h r b :
  same_but_active h (alter (set_isActive b) r h).
Proof. unfold same_but_active. by apply fmap_alter_id. Qed.

Lemma same_but_active_value h h' r :
  same_but_active h h' → value (deref h' r) = value (deref h r).
Proof.
  intros Hsame. apply (f_equal (λ l, l !! r)) in Hsame.
  rewrite !list_lookup_fmap in Hsame. unfold deref.
  destruct (h' !! r) as [[]|], (h !! r) as [[]|];
    unfold set_isActive in Hsame; simpl in *; congruence.
Qed.

Lemma deactivate_same g h ids : same_but_active h (deactivate g h ids).
Proof.
  unfold deactivate. revert h. induction ids as [|i ids IH]; intros h; [done|].
  simpl. unfold same_but_active in *. rewrite IH.
  destruct (nodes g !! i); [apply alter_same_but_active|done].
Qed.

(** What stepBackward does when the cursor is at a step. *)
Lemma stepBackward_back e :
  steps_ok e → (0 ≤ currentStepIndex e)%Z →
  ∃ e', stepBackward e = Ok (true, e') ∧
        currentStepIndex e' = (currentStepIndex e - 1)%Z ∧
        pendingGradients e' = pendingGradients e ∧
        graph e' = graph e ∧
        forwardSteps e' = forwardSteps e ∧
        backwardSteps e' = backwardSteps e ∧
        (∀ r, value (deref (heap e') r) = value (deref (heap e) r)) ∧
        in_step e'.
Proof.
  intros ((Hlo & Hhi) & Hfs & Hbs) Hpos. unfold stepBackward.
  rewrite decide_False by lia.
  destruct (lookup_lt_is_Some_2 (forwardSteps e ++ backwardSteps e)
              (Z.to_nat (currentStepIndex e))) as [step ->]; [lia|].
  cbv zeta.
  destruct (decide (currentStepIndex e - 1 < 0)%Z) as [Hfirst|Hlater].
  - eexists. split; [reflexivity|]. cbn. split_and!; try done.
    + intros r. rewrite graph_reset_value.
      apply same_but_active_value, deactivate_same.
    + split; [split; [cbn; lia|done]|].
      unfold phase. cbn. by rewrite decide_True.
  - destruct (lookup_lt_is_Some_2 (forwardSteps e ++ backwardSteps e)
                (Z.to_nat (currentStepIndex e - 1))) as [newStep Hnew]; [lia|].
    rewrite Hnew. eexists. split; [reflexivity|]. cbn. split_and!; try done.
    + intros r. apply same_but_active_value, deactivate_same.
    + split; [split; [cbn; lia|done]|].
      unfold phase. cbn. rewrite decide_False by lia.
      destruct (decide (Z.to_nat (currentStepIndex e - 1) < length (forwardSteps e)))
        as [Hin|Hout].
      * rewrite lookup_app_l in Hnew by done.
        rewrite decide_True by lia. by eapply (Forall_lookup_1 _ _ _ _ Hfs).
      * rewrite lookup_app_r in Hnew by lia.
        rewrite decide_False by lia. by eapply (Forall_lookup_1 _ _ _ _ Hbs).
Qed.

(** X14: on an engine that is in step, stepBackward does not throw; it
    returns false exactly when the engine is at the start, and then changes
    nothing; otherwise it moves the cursor one step back and leaves the
    engine in step.  It undoes no computation: the pending gradients, the
    text of the step records and the value of every node stay as they are. *)
Theorem stepBackward_in_range e :
  in_step e →
  ∃ e', stepBackward e = Ok (negb (isAtStart e), e') ∧
        (isAtStart e = true → e' = e) ∧
        (isAtStart e = false →
           currentStepIndex e' = (currentStepIndex e - 1)%Z) ∧
        pendingGradients e' = pendingGradients e ∧
        getAllSteps e' = getAllSteps e ∧
        (∀ r, value (deref (heap e') r) = value (deref (heap e) r)) ∧
        in_step e'.
Proof.
  intros Hin. unfold isAtStart. case_bool_decide as Hstart.
  - exists e. split; [|by split_and!].
    unfold stepBackward. by rewrite decide_True.
  - destruct (stepBackward_back e (proj1 Hin))
      as (e' & Hrun & Hidx & Hpending & _ & Hf & Hb & Hval & Hin'); [lia|].
    exists e'. split_and!; try done. unfold getAllSteps. by rewrite Hf, Hb.
Qed.

End EngineBackSteps.

Section EngineRoundTrips.
Context {num : Type} `{JSNumber num}.
Variable backwardLocal :
  list (ComputationNode num) → nat → num →
  list (ComputationNode num) * gmap string num.
Implicit Types (e : ExecutionEngine num).

(** X15: on an engine that is in step and not at the end, stepForward
    followed by stepBackward brings the cursor and the mode back to where
    they were, with the same number of steps. *)
Theorem stepForward_stepBackward e :
  in_step e → isAtEnd e = false →
  ∃ e1 e2, stepForward backwardLocal e = Ok (true, e1) ∧
           stepBackward e1 = Ok (true, e2) ∧
           currentStepIndex e2 = currentStepIndex e ∧
           mode e2 = mode e ∧
           totalSteps (getState e2) = totalSteps (getState e).
Proof.
  intros [Hok Hmode] Hend. apply (in_step_bounds e Hok) in Hend.
  destruct (stepForward_in_step backwardLocal e Hok Hend)
    as (e1 & Hrun1 & Hidx1 & _ & Hf1 & Hb1 & Hin1).
  destruct Hok as ((Hlo & Hhi) & _).
  destruct (stepBackward_back e1 (proj1 Hin1))
    as (e2 & Hrun2 & Hidx2 & _ & _ & Hf2 & Hb2 & _ & _ & Hmode2); [lia|].
  exists e1, e2. split; [done|]. split; [done|].
  pose proof (skeleton_length _ _ Hf1) as Hlf.
  pose proof (skeleton_length _ _ Hb1) as Hlb.
  split; [lia|]. split.
  - rewrite Hmode2, Hmode. unfold phase. rewrite Hf2, Hlf, Hidx2, Hidx1.
    by replace (currentStepIndex e + 1 - 1)%Z with (currentStepIndex e) by lia.
  - cbn [totalSteps getState]. by rewrite !length_app, Hf2, Hb2, Hlf, Hlb.
Qed.

(** Steps from the start stay in step. *)
Lemma stepForward_times_in_step e k :
  steps_ok e → currentStepIndex e = (-1)%Z →
  0 < k ≤ length (forwardSteps e ++ backwardSteps e) →
  ∃ e', stepForward_times backwardLocal k e = Ok e' ∧
        currentStepIndex e' = (Z.of_nat k - 1)%Z ∧
        length (forwardSteps e' ++ backwardSteps e')
        = length (forwardSteps e ++ backwardSteps e) ∧
        in_step e'.
Proof.
  intros Hok Hstart Hk. unfold stepForward_times.
  destruct (for_invariant
    (λ i e', steps_ok e' ∧ currentStepIndex e' = (Z.of_nat i - 1)%Z ∧
             length (forwardSteps e') = length (forwardSteps e) ∧
             length (backwardSteps e') = length (backwardSteps e) ∧
             (0 < i → mode e' = phase e'))
    k (λ _ e, r ← stepForward backwardLocal e; Ok r.2) e)
    as (e' & Hfor & Hok' & Hc & Hf & Hb & Hm).
  - split; [done|]. split; [by rewrite Hstart|]. split; [done|].
    split; [done|lia].
  - intros i e1 Hi (Hok1 & Hc1 & Hf1 & Hb1 & _).
    destruct (stepForward_in_step backwardLocal e1 Hok1)
      as (e2 & -> & Hc2 & _ & Hf2 & Hb2 & [Hok2 Hm2]).
    + rewrite length_app, Hf1, Hb1, <- length_app. lia.
    + exists e2. split; [done|]. split; [done|]. split; [lia|].
      by rewrite (skeleton_length _ _ Hf2), (skeleton_length _ _ Hb2).
  - exists e'. split; [done|]. split; [done|].
    split; [by rewrite !length_app, Hf, Hb|].
    split; [done|]. apply Hm. lia.
Qed.

(** X16: on an engine that is in step, whatever it has run, jumpToStep
    does not throw and leaves the engine in step with the same number of
    steps; for a valid step index the cursor ends at that index, and for any
    other index nothing changes. *)
Theorem jumpToStep_lands e (n : Z) :
  in_step e →
  ∃ e', jumpToStep backwardLocal e n = Ok e' ∧
        in_step e' ∧
        totalSteps (getState e') = totalSteps (getState e) ∧
        ((0 ≤ n < Z.of_nat (totalSteps (getState e)))%Z →
           currentStep (getState e') = n) ∧
        (¬ (0 ≤ n < Z.of_nat (totalSteps (getState e)))%Z → e' = e).
Proof.
  intros Hin. cbn [totalSteps getState]. unfold jumpToStep.
  case_decide as Hn.
  - exists e. split_and!; try done. lia.
  - cbv zeta.
    set (e0 := mkEngine (graph_reset (heap e) (graph e)) (graph e)
                 (forwardSteps e) (backwardSteps e) (-1) (mode e)
                 (pendingGradients e)).
    destruct Hin as [((Hlo & Hhi) & Hfs & Hbs) Hmode].
    destruct (stepForward_times_in_step e0 (Z.to_nat (n + 1)))
      as (e' & Hrun & Hidx & Hlen & Hin'); [by split; [cbn; lia|]|done|cbn; lia|].
    exists e'. split_and!; try done.
    + cbn [currentStep getState]. lia.
    + lia.
Qed.

(** The first iteration of a loop whose body does not read the counter. *)
Lemma for_first {S} n (f : S → outcome S) (s : S) :
  for_ (Datatypes.S n) (λ _, f) s = f s ≫= for_ n (λ _, f).
Proof.
  induction n as [|n IH]; [rewrite for_S, for_0; cbn; by destruct (f s)|].
  rewrite for_S, IH. destruct (f s) as [s1| |]; [|done..].
  change (for_ n (λ _, f) s1 ≫= f = for_ (Datatypes.S n) (λ _, f) s1).
  by rewrite for_S.
Qed.

Lemma playAll_steps e (fuel : nat) :
  in_step e →
  (Z.of_nat (length (forwardSteps e ++ backwardSteps e)) - 1
   - currentStepIndex e ≤ Z.of_nat fuel)%Z →
  ∃ e', playAll backwardLocal fuel e = Ok (Some e') ∧
        stepForward_times backwardLocal
          (Z.to_nat (Z.of_nat (length (forwardSteps e ++ backwardSteps e)) - 1
                     - currentStepIndex e)) e = Ok e' ∧
        isAtEnd e' = true ∧
        length (forwardSteps e' ++ backwardSteps e')
        = length (forwardSteps e ++ backwardSteps e) ∧
        in_step e'.
Proof.
  revert e. induction fuel as [|fuel IH]; intros e Hin Hfuel.
  - destruct Hin as [Hok Hmode]. pose proof Hok as ((Hlo & Hhi) & _).
    destruct (in_step_bounds e Hok) as (_ & Hend).
    assert (isAtEnd e = true) as Hat.
    { destruct (isAtEnd e); [done|]. destruct Hend as [Hend _].
      specialize (Hend eq_refl). lia. }
    exists e. cbn. rewrite Hat.
    replace (Z.to_nat _) with 0 by lia. by split_and!.
  - pose proof Hin as [Hok Hmode]. pose proof Hok as ((Hlo & Hhi) & _).
    destruct (in_step_bounds e Hok) as (_ & Hend).
    cbn [playAll]. destruct (isAtEnd e) eqn:Hat.
    + exists e. apply bool_decide_eq_true in Hat. rewrite length_app in *.
      replace (Z.to_nat _) with 0 by lia.
      split_and!; try done.
      unfold isAtEnd. apply bool_decide_eq_true. lia.
    + destruct Hend as [Hend _]. specialize (Hend eq_refl).
      destruct (stepForward_in_step backwardLocal e Hok Hend)
        as (e1 & Hrun & Hidx & _ & Hf & Hb & Hin1).
      pose proof (skeleton_length _ _ Hf) as Hlf.
      pose proof (skeleton_length _ _ Hb) as Hlb.
      assert (length (forwardSteps e1 ++ backwardSteps e1)
              = length (forwardSteps e ++ backwardSteps e)) as Hlen
        by (by rewrite !length_app, Hlf, Hlb).
      destruct (IH e1 Hin1) as (e' & Hplay & Htimes & Hat' & Htot & Hin');
        [lia|].
      exists e'. rewrite Hrun. split; [exact Hplay|].
      split; [|split_and!; try done; lia].
      replace (Z.to_nat (Z.of_nat (length (forwardSteps e ++ backwardSteps e))
                         - 1 - currentStepIndex e))
        with (S (Z.to_nat (Z.of_nat (length (forwardSteps e1 ++ backwardSteps e1))
                           - 1 - currentStepIndex e1))) by lia.
      unfold stepForward_times in *.
      rewrite for_first. by rewrite Hrun.
Qed.

(** X17: playAll ends, after as many steps as are left, at the end of the
    step list; more fuel than there are steps left changes nothing. *)
Theorem playAll_reaches_the_end e (fuel : nat) :
  in_step e →
  (Z.of_nat (totalSteps (getState e)) - 1 - currentStepIndex e ≤ Z.of_nat fuel)%Z →
  ∃ e', playAll backwardLocal fuel e = Ok (Some e') ∧
        stepForward_times backwardLocal
          (Z.to_nat (Z.of_nat (totalSteps (getState e)) - 1 - currentStepIndex e))
          e = Ok e' ∧
        isAtEnd e' = true ∧ isComplete (getState e') = true ∧
        totalSteps (getState e') = totalSteps (getState e) ∧
        in_step e'.
Proof.
  intros Hin Hfuel.
  destruct (playAll_steps e fuel Hin Hfuel)
    as (e' & Hplay & Htimes & Hat & Hlen & Hin').
  exists e'. split_and!; try done.
  by rewrite <- (proj1 (in_step_bounds e' (proj1 Hin'))).
Qed.

End EngineRoundTrips.

Section ForwardPhase.
Context {num : Type} `{JSNumber num}.
Variable backwardLocal :
  list (ComputationNode num) → nat → num →
  list (ComputationNode num) * gmap string num.
Implicit Types (e : ExecutionEngine num) (h : list (ComputationNode num))
               (n : ComputationNode num).

Lemma graph_reset_id h g r : id (deref (graph_reset h g) r) = id (deref h r).
Proof.
  unfold deref. rewrite graph_reset_lookup.
  destruct (h !! r) as [n|]; [|done]. simpl. by destruct (decide _).
Qed.

Lemma forward_node_active h n b :
  forward_node h (set_isActive b n) = set_isActive b (forward_node h n).
Proof.
  unfold forward_node. destruct n as [i c nm v gr act mi]. simpl.
  destruct c; simpl; try done. by destruct (gt _ _).
Qed.

(** [node.forward()] does not read the active flags. *)
Lemma same_but_active_forward h1 h2 x :
  same_but_active h1 h2 → same_but_active (forward h1 x) (forward h2 x).
Proof.
  intros Hsame. pose proof Hsame as Hx.
  apply (f_equal (λ l, l !! x)) in Hx. rewrite !list_lookup_fmap in Hx.
  unfold same_but_active, forward in *.
  destruct (h2 !! x) as [n2|], (h1 !! x) as [n1|]; try done.
  rewrite !list_fmap_insert, Hsame. f_equal.
  assert (set_isActive false n2 = set_isActive false n1) as Hn
    by (simpl in Hx; congruence).
  rewrite <- !forward_node_active, Hn.
  apply forward_node_ext. intros i _.
  by apply (same_but_active_value h1 h2).
Qed.

(** The engine after [k] forward steps from the start. *)
Lemma forward_steps e k :
  (∀ r, r ∈ executionOrder (graph e) →
        nodes (graph e) !! id (deref (heap e) r) = Some r) →
  k ≤ length (executionOrder (graph e)) →
  ∃ e', stepForward_times backwardLocal k (reset e) = Ok e' ∧
        currentStepIndex e' = (Z.of_nat k - 1)%Z ∧
        same_but_active
          (foldl forward (heap (reset e)) (take k (executionOrder (graph e))))
          (heap e').
Proof.
  intros Hreg Hk. unfold stepForward_times.
  set (order := executionOrder (graph e)) in *.
  set (h0 := heap (reset e)).
  destruct (for_invariant
    (λ i e', currentStepIndex e' = (Z.of_nat i - 1)%Z ∧
             graph e' = graph e ∧
             skeleton <$> forwardSteps e' = skeleton <$> forwardSteps (reset e) ∧
             same_but_active (foldl forward h0 (take i order)) (heap e'))
    k (λ _ e, r ← stepForward backwardLocal e; Ok r.2) (reset e))
    as (e' & Hfor & Hidx & _ & _ & Hsame); [done| |by exists e'].
  intros i e1 Hi (Hidx & Hgraph & Hsk & Hsame).
  destruct (lookup_lt_is_Some_2 order i) as [r Hr]; [lia|].
  assert (forwardSteps (reset e) !! i = Some (forward_skeleton h0 r)) as Hstep0.
  { cbn. fold order. by rewrite list_lookup_fmap, Hr. }
  pose proof (f_equal (λ l, l !! i) Hsk) as Hski. cbn beta in Hski.
  rewrite !list_lookup_fmap, Hstep0 in Hski.
  destruct (forwardSteps e1 !! i) as [step|] eqn:Hstep; [|done].
  injection Hski as _ Hid _ _ _ _.
  assert (nodes (graph e1) !! nodeId step = Some r) as Hnode.
  { rewrite Hgraph, Hid. cbn [nodeId forward_skeleton]. unfold h0.
    cbn [heap reset generateSteps]. rewrite graph_reset_id. apply Hreg.
    by eapply list_elem_of_lookup_2. }
  rewrite (stepForward_unfold backwardLocal e1 step).
  - cbv zeta. rewrite Hnode, Hidx.
    replace (Z.to_nat (Z.of_nat i - 1 + 1)) with i by lia.
    rewrite decide_True by (by eapply lookup_lt_Some).
    eexists. split; [reflexivity|]. cbn. split; [lia|]. split; [done|].
    split; [by rewrite fmap_alter_id|].
    rewrite (take_S_r _ _ _ Hr), foldl_app. cbn.
    unfold same_but_active. rewrite fmap_alter_id by done.
    by apply same_but_active_forward.
  - lia.
  - rewrite Hidx. replace (Z.to_nat (Z.of_nat i - 1 + 1)) with i by lia.
    by apply lookup_app_l_Some.
Qed.

(** X18: when every node of the execution order is registered in the
    graph under its id, stepping a new or reset engine through its forward
    steps leaves every node with the value (and every Max node with the
    winner) that graph.forward(), called through executeForward, computes:
    the two heaps differ in the active flags only. *)
Theorem forward_steps_agree_with_forward e :
  (∀ r, r ∈ executionOrder (graph e) →
        nodes (graph e) !! id (deref (heap e) r) = Some r) →
  ∃ e', stepForward_times backwardLocal (length (executionOrder (graph e)))
          (reset e) = Ok e' ∧
        currentStepIndex e' = (Z.of_nat (length (executionOrder (graph e))) - 1)%Z ∧
        same_but_active (heap (executeForward (reset e))) (heap e') ∧
        ∀ r, value (deref (heap e') r)
             = value (deref (heap (executeForward (reset e))) r).
Proof.
  intros Hreg.
  destruct (forward_steps e (length (executionOrder (graph e))) Hreg)
    as (e' & Hrun & Hidx & Hsame); [done|].
  rewrite firstn_all in Hsame.
  exists e'. split; [done|]. split; [done|]. split; [done|].
  intros r. by apply same_but_active_value.
Qed.

(** X19: when no node of the execution order is registered in the graph
    (setOutput without addNode), the engine still has its steps and moves
    through them, but no step computes anything: the nodes, the step records
    and the pending gradients stay as reset left them. *)
Theorem unregistered_steps_compute_nothing e k :
  (∀ r, r ∈ executionOrder (graph e) →
        nodes (graph e) !! id (deref (heap e) r) = None) →
  k ≤ totalSteps (getState (reset e)) →
  ∃ e', stepForward_times backwardLocal k (reset e) = Ok e' ∧
        currentStepIndex e' = (Z.of_nat k - 1)%Z ∧
        heap e' = heap (reset e) ∧
        getAllSteps e' = getAllSteps (reset e) ∧
        pendingGradients e' = ∅.
Proof.
  intros Hreg Hk. cbn [totalSteps getState] in Hk.
  unfold stepForward_times, getAllSteps.
  destruct (for_invariant
    (λ i e', currentStepIndex e' = (Z.of_nat i - 1)%Z ∧
             graph e' = graph e ∧
             heap e' = heap (reset e) ∧
             forwardSteps e' = forwardSteps (reset e) ∧
             backwardSteps e' = backwardSteps (reset e) ∧
             pendingGradients e' = ∅)
    k (λ _ e, r ← stepForward backwardLocal e; Ok r.2) (reset e))
    as (e' & Hfor & Hidx & _ & Hheap & Hf & Hb & Hp); [done| |].
  2:{ exists e'. split_and!; try done. by rewrite Hf, Hb. }
  intros i e1 Hi (Hidx & Hgraph & Hheap & Hf & Hb & Hp).
  destruct (lookup_lt_is_Some_2 (forwardSteps e1 ++ backwardSteps e1) i)
    as [step Hstep]; [rewrite Hf, Hb; lia|].
  assert (∃ r, r ∈ executionOrder (graph e) ∧
               nodeId step = id (deref (heap (reset e)) r)) as (r & Hr & Hid).
  { rewrite Hf, Hb in Hstep. apply list_elem_of_lookup_2 in Hstep. cbn in Hstep.
    apply elem_of_app in Hstep as [Hs|Hs];
      apply list_elem_of_fmap in Hs as (r & -> & Hr); exists r.
    - done.
    - split; [|done]. apply elem_of_reverse. exact Hr. }
  rewrite (stepForward_unfold backwardLocal e1 step);
    [|lia|by rewrite Hidx; replace (Z.to_nat (Z.of_nat i - 1 + 1)) with i by lia].
  cbv zeta. rewrite Hgraph, Hid. cbn [heap reset generateSteps].
  rewrite graph_reset_id, (Hreg r Hr).
  eexists. split; [reflexivity|]. cbn. split_and!; try done. lia.
Qed.

End ForwardPhase.

Section GeneratedSteps.
Context {num : Type} `{JSNumber num}.
Implicit Types (e : ExecutionEngine num).

(** The step lists that generateSteps builds. *)
Lemma generateSteps_steps e :
  let e' := generateSteps e in
  let order := executionOrder (graph e) in
  totalSteps (getState e') = 2 * length order ∧
  nodeId <$> forwardSteps e' = (λ r, id (deref (heap e) r)) <$> order ∧
  nodeId <$> backwardSteps e' = reverse (nodeId <$> forwardSteps e') ∧
  (∀ s, s ∈ getAllSteps e' →
        equation s = "" ∧ values s = ∅ ∧ nodeId s ∈ activeNodeIds s ∧
        length (activeNodeIds s) = S (length (activeEdgeIds s))) ∧
  (∀ k sf sb,
     forwardSteps e' !! k = Some sf →
     backwardSteps e' !! (length order - 1 - k) = Some sb →
     nodeId sb = nodeId sf ∧ nodeName sb = nodeName sf ∧
     (list_to_set (activeNodeIds sb) : gset string)
     = list_to_set (activeNodeIds sf)).
Proof.
  cbv zeta. cbn [generateSteps forwardSteps backwardSteps heap graph].
  split_and!.
  - cbn. rewrite length_app, !length_fmap, length_reverse. lia.
  - by rewrite <- list_fmap_compose.
  - by rewrite <- !list_fmap_compose, fmap_reverse.
  - intros s Hs. unfold getAllSteps in Hs. cbn in Hs.
    apply elem_of_app in Hs as [Hs|Hs];
      apply list_elem_of_fmap in Hs as (r & -> & _); cbn.
    + split_and!; try done; [set_solver|].
      rewrite length_app, !length_fmap. cbn. lia.
    + split_and!; try done; [set_solver|]. by rewrite !length_fmap.
  - intros k sf sb Hsf Hsb.
    rewrite list_lookup_fmap in Hsf. rewrite list_lookup_fmap in Hsb.
    destruct (executionOrder (graph e) !! k) as [r|] eqn:Hr; [|done].
    injection Hsf as <-.
    pose proof (lookup_lt_Some _ _ _ Hr) as Hk.
    rewrite reverse_lookup in Hsb by lia.
    replace (length (executionOrder (graph e))
             - S (length (executionOrder (graph e)) - 1 - k)) with k in Hsb by lia.
    rewrite Hr in Hsb. injection Hsb as <-. cbn.
    split; [done|]. split; [done|]. set_solver.
Qed.

(** X20: the steps after reset() (so, of a new engine), executeForward()
    or executeBackward(): one forward and one backward step for every node of
    the execution order, the backward steps on the same nodes in the opposite
    order; every step record is blank (no equation, no values), lists its own
    node among the active nodes and has one active edge for each other active
    node; and the backward step of a node highlights the same set of nodes as
    its forward step.  executeForward and executeBackward leave the cursor
    and the mode where they are. *)
Theorem generated_steps e e' :
  e' = reset e ∨ e' = executeForward e ∨ e' = executeBackward e →
  let order := executionOrder (graph e) in
  totalSteps (getState e') = 2 * length order ∧
  nodeId <$> forwardSteps e' = (λ r, id (deref (heap e) r)) <$> order ∧
  nodeId <$> backwardSteps e' = reverse (nodeId <$> forwardSteps e') ∧
  (∀ s, s ∈ getAllSteps e' →
        equation s = "" ∧ values s = ∅ ∧ nodeId s ∈ activeNodeIds s ∧
        length (activeNodeIds s) = S (length (activeEdgeIds s))) ∧
  (∀ k sf sb,
     forwardSteps e' !! k = Some sf →
     backwardSteps e' !! (length order - 1 - k) = Some sb →
     nodeId sb = nodeId sf ∧ nodeName sb = nodeName sf ∧
     (list_to_set (activeNodeIds sb) : gset string)
     = list_to_set (activeNodeIds sf)) ∧
  (e' = reset e → currentStepIndex e' = (-1)%Z ∧ mode e' = Idle) ∧
  (e' ≠ reset e →
   currentStepIndex e' = currentStepIndex e ∧ mode e' = mode e).
Proof.
  intros He'. cbv zeta.
  assert (∃ e0, e' = generateSteps e0 ∧ graph e0 = graph e ∧
                ∀ r, id (deref (heap e0) r) = id (deref (heap e) r))
    as (e0 & -> & Hgraph & Hids).
  { destruct He' as [-> | [-> | ->]]; eexists; (split; [reflexivity|]);
      (split; [reflexivity|]); intros r; cbn [heap].
    - apply graph_reset_id.
    - pose proof (same_but_values_deref (heap e) _ r
                    (foldl_forward_same (heap e) (executionOrder (graph e))))
        as Hr. cbn [graph_forward fst].
      destruct (deref (foldl forward (heap e) (executionOrder (graph e))) r),
        (deref (heap e) r). by injection Hr.
    - unfold graph_backward. destruct (outputNode (graph e)) as [o|]; [|done].
      pose proof (same_but_gradients_deref (heap e) _ r
                    (backward_same (length (heap e)) (heap e) o (lit 1))) as Hr.
      destruct (deref (backward (length (heap e)) (heap e) o (lit 1)) r),
        (deref (heap e) r). by injection Hr. }
  destruct (generateSteps_steps e0) as (H1 & H2 & H3 & H4 & H5).
  rewrite Hgraph in H1, H2, H5.
  split_and!; try done.
  - rewrite H2. apply list_fmap_ext. intros _ r _. apply Hids.
  - by intros ->.
  - intros Hne. destruct He' as [He' | [-> | ->]]; [|done..].
    by rewrite He' in Hne.
Qed.

(** X27: what getState and getCurrentStep report agrees on an engine that
    is in step: the steps are those of getAllSteps; there is a current step
    exactly when the engine is not at the start, it is the step at the
    cursor, its mode is the mode of the state and its active nodes are the
    active nodes of the state; at the start the mode is idle and no node is
    active. *)
Theorem state_and_current_step e :
  in_step e →
  steps (getState e) = getAllSteps e ∧
  (getCurrentStep e = None ↔ isAtStart e = true) ∧
  (∀ s, getCurrentStep e = Some s →
        getAllSteps e !! Z.to_nat (currentStep (getState e)) = Some s ∧
        state_mode (getState e) = step_mode s ∧
        activeNodes (getState e) = list_to_set (activeNodeIds s)) ∧
  (isAtStart e = true →
   state_mode (getState e) = Idle ∧ activeNodes (getState e) = ∅).
Proof.
  intros [((Hlo & Hhi) & Hfs & Hbs) Hmode].
  unfold getCurrentStep, getState, getAllSteps, isAtStart.
  cbn [steps state_mode activeNodes currentStep].
  split; [done|].
  destruct (decide (currentStepIndex e < 0)%Z) as [Hstart|Hrun].
  - rewrite decide_False by lia. rewrite bool_decide_eq_true_2 by done.
    rewrite decide_False by lia. split; [done|]. split; [done|].
    intros _. split; [|done]. rewrite Hmode. unfold phase.
    by rewrite decide_True.
  - rewrite decide_True by lia. rewrite bool_decide_eq_false_2 by done.
    rewrite decide_True by lia.
    destruct (lookup_lt_is_Some_2 (forwardSteps e ++ backwardSteps e)
                (Z.to_nat (currentStepIndex e))) as [s Hs]; [lia|].
    rewrite Hs. split; [done|]. split; [|done].
    intros s' [= <-]. split; [done|]. split; [|done].
    rewrite Hmode. unfold phase. rewrite decide_False by done.
    destruct (decide (Z.to_nat (currentStepIndex e) < length (forwardSteps e)))
      as [Hin|Hout].
    + rewrite lookup_app_l in Hs by done.
      rewrite decide_True by lia.
      symmetry. by eapply (Forall_lookup_1 _ _ _ _ Hfs).
    + rewrite lookup_app_r in Hs by lia.
      rewrite decide_False by lia.
      symmetry. by eapply (Forall_lookup_1 _ _ _ _ Hbs).
Qed.

End GeneratedSteps.

(** The engine of the graph [out = m + x], [m = x * y] after its first
    step. *)
Lemma stepForward_in_range_witness :
  ∃ e', stepForward backwardLocal_spec (new_engine shared_heap shared_graph)
        = Ok (true, e') ∧ currentStepIndex e' = 0%Z.
Proof.
  destruct (stepForward_in_range backwardLocal_spec
              (new_engine shared_heap shared_graph)
              (reset_in_step _)) as (e' & Hrun & _ & _ & Hidx & _).
  exists e'. split; [exact Hrun|]. by apply Hidx.
Defined.

Lemma stepBackward_in_range_witness :
  stepBackward (new_engine shared_heap shared_graph)
  = Ok (false, new_engine shared_heap shared_graph).
Proof.
  destruct (stepBackward_in_range (new_engine shared_heap shared_graph)
              (reset_in_step _)) as (e' & Hrun & Hsame & _).
  by rewrite <- (Hsame eq_refl) at 2.
Defined.

Lemma stepForward_stepBackward_witness :
  ∃ e1 e2,
    stepForward backwardLocal_spec (new_engine shared_heap shared_graph)
    = Ok (true, e1) ∧
    stepBackward e1 = Ok (true, e2) ∧
    currentStepIndex e2 = (-1)%Z ∧ mode e2 = Idle.
Proof.
  destruct (stepForward_stepBackward backwardLocal_spec
              (new_engine shared_heap shared_graph) (reset_in_step _) eq_refl)
    as (e1 & e2 & H1 & H2 & Hidx & Hmode & _).
  exists e1, e2. split; [exact H1|]. split; [exact H2|].
  split; [exact Hidx|exact Hmode].
Defined.

Lemma jumpToStep_lands_witness :
  ∃ e', jumpToStep backwardLocal_spec (new_engine shared_heap shared_graph) 2
        = Ok e' ∧
        currentStep (getState e') = 2%Z.
Proof.
  destruct (jumpToStep_lands backwardLocal_spec
              (new_engine shared_heap shared_graph) 2 (reset_in_step _))
    as (e' & Hrun & _ & _ & Hidx & _).
  exists e'. split; [exact Hrun|]. apply Hidx. by split.
Defined.

Lemma playAll_reaches_the_end_witness :
  ∃ e', playAll backwardLocal_spec 8 (new_engine shared_heap shared_graph)
        = Ok (Some e') ∧ currentStepIndex e' = 7%Z.
Proof.
  destruct (playAll_reaches_the_end backwardLocal_spec
              (new_engine shared_heap shared_graph) 8 (reset_in_step _))
    as (e' & Hplay & _ & Hend & _ & Htot & Hin); [done|].
  exists e'. split; [exact Hplay|].
  destruct Hin as [((_ & Hhi) & _) _].
  apply bool_decide_eq_true in Hend. cbn [totalSteps getState] in Htot.
  rewrite length_app in Hhi, Htot.
  change (length (forwardSteps e') + length (backwardSteps e') = 8) in Htot.
  lia.
Defined.

Lemma forward_steps_agree_with_forward_witness :
  ∃ e', stepForward_times backwardLocal_spec 4
          (new_engine shared_heap shared_graph) = Ok e' ∧
        value (deref (heap e') 3) = lit 8.
Proof.
  destruct (forward_steps_agree_with_forward backwardLocal_spec
              (mkEngine shared_heap shared_graph [] [] (-1) Idle ∅))
    as (e' & Hrun & _ & _ & Hval).
  { intros r Hr. cbn in Hr.
    repeat (apply elem_of_cons in Hr as [->|Hr]; [reflexivity|]).
    by apply elem_of_nil in Hr. }
  exists e'. split; [exact Hrun|]. by rewrite Hval.
Defined.

(** The graph [out = m + x] with its output set and no node registered. *)
Lemma unregistered_steps_compute_nothing_witness :
  let e := mkEngine shared_heap (setOutput shared_heap new_graph 3)
                    [] [] (-1) Idle ∅ in
  ∃ e', stepForward_times backwardLocal_spec 8 (reset e) = Ok e' ∧
        currentStepIndex e' = 7%Z ∧ heap e' = shared_heap.
Proof.
  intros e.
  destruct (unregistered_steps_compute_nothing backwardLocal_spec e 8)
    as (e' & Hrun & Hidx & Hheap & _);
    [intros r _; apply lookup_empty|vm_compute; lia|].
  exists e'. split; [exact Hrun|]. split; [exact Hidx|]. by rewrite Hheap.
Defined.

(** ** Loss.ts: the loss functions *)

Section LossShapes.
Context {num : Type} `{JSNumber num}.
Variable Math_log : num → num.
Implicit Types (p t m : Matrix num).

Lemma no_throw_bind {A B} (Q : A → Prop) (P : B → Prop)
    (x : outcome A) (f : A → outcome B) :
  no_throw Q x → (∀ a, Q a → no_throw P (f a)) → no_throw P (x ≫= f).
Proof. intros Hx Hf. destruct x as [a| |]; [by apply Hf|done..]. Qed.

Lemma no_throw_weaken {A} (P Q : A → Prop) (x : outcome A) :
  (∀ a, P a → Q a) → no_throw P x → no_throw Q x.
Proof. intros HPQ Hx. destruct x as [a| |]; [by apply HPQ|done..]. Qed.

Lemma shaped_has_rows r c m : shaped r c m → has_rows m ∧ rows m = r ∧ cols m = c.
Proof. intros (Hr & Hc & Hl & _). unfold has_rows. by rewrite Hl, Hr. Qed.

Lemma scale_no_throw m k :
  has_rows m → no_throw (shaped (rows m) (cols m)) (scale m k).
Proof.
  intros Hm. unfold scale. rewrite zeros_ok.
  apply fill_no_throw; [apply shaped_zeros|].
  intros i j Hi Hj. pose proof (rd_no_throw m i j Hm Hi) as Ha.
  by destruct (rd m i j).
Qed.

Lemma subtract_no_throw p t :
  has_rows p → has_rows t → rows p = rows t → cols p = cols t →
  no_throw (shaped (rows p) (cols p)) (subtract p t).
Proof.
  intros Hp Ht Hr Hc. unfold subtract.
  apply (no_throw_bind (shaped (rows t) (cols t))); [by apply scale_no_throw|].
  intros negated (Hn & Hnr & Hnc)%shaped_has_rows.
  apply add_compatible; congruence.
Qed.

(** The loops of the cross-entropy losses read their operands inside the
    matrices. *)
Lemma read_both_no_throw {A} p t i j (f : num → num → outcome A) :
  has_rows p → has_rows t → rows p = rows t → i < rows p →
  (∀ y x, no_throw (λ _, True) (f y x)) →
  no_throw (λ _, True) (y ← rd t i j; x ← rd p i j; f y x).
Proof.
  intros Hp Ht Hr Hi Hf.
  pose proof (rd_no_throw t i j Ht) as Hy. rewrite <- Hr in Hy.
  specialize (Hy Hi). destruct (rd t i j) as [y| |]; [|done..].
  pose proof (rd_no_throw p i j Hp Hi) as Hx.
  destruct (rd p i j) as [x| |]; [|done..]. apply Hf.
Qed.

Lemma losses_no_throw p t :
  has_rows p → has_rows t → rows p = rows t → cols p = cols t →
  no_throw (λ _, True) (mse_forward p t) ∧
  no_throw (λ _, True) (mse_backward p t) ∧
  no_throw (λ _, True) (bce_forward Math_log p t) ∧
  no_throw (λ _, True) (bce_backward p t) ∧
  no_throw (λ _, True) (cce_forward Math_log p t) ∧
  no_throw (λ _, True) (cce_backward p t).
Proof.
  intros Hp Ht Hr Hc.
  unfold mse_forward, mse_backward, bce_forward, bce_backward, cce_forward,
    cce_backward.
  rewrite !decide_False by (intros []; done). rewrite !zeros_ok. cbv zeta.
  split_and!.
  - eapply no_throw_bind; [by apply subtract_no_throw|].
    intros diff (Hd & Hdr & Hdc)%shaped_has_rows.
    eapply no_throw_bind; [by apply hadamard_compatible|done].
  - eapply no_throw_bind; [by apply subtract_no_throw|].
    intros diff (Hd & Hdr & Hdc)%shaped_has_rows.
    eapply no_throw_weaken; [|by apply scale_no_throw]. done.
  - eapply (no_throw_bind (λ _, True)); [|done].
    apply for_no_throw; [done|]. intros i loss Hi _.
    apply for_no_throw; [done|]. intros j loss' Hj _.
    by apply read_both_no_throw.
  - eapply no_throw_weaken; [|apply fill_no_throw; [apply shaped_zeros|]];
      [done|].
    intros i j Hi Hj. by apply read_both_no_throw.
  - eapply (no_throw_bind (λ _, True)); [|done].
    apply for_no_throw; [done|]. intros i loss Hi _.
    apply for_no_throw; [done|]. intros j loss' Hj _.
    pose proof (rd_no_throw t i j Ht) as Hy. rewrite <- Hr in Hy.
    specialize (Hy Hi). destruct (rd t i j) as [y| |]; [|done..].
    cbn. destruct (gt y (lit 0)); [|done].
    pose proof (rd_no_throw p i j Hp Hi) as Hx.
    by destruct (rd p i j).
  - eapply no_throw_weaken; [|apply fill_no_throw; [apply shaped_zeros|]];
      [done|].
    intros i j Hi Hj. by apply read_both_no_throw.
Qed.

(** X21: each of the three loss functions (mean squared error, binary and
    categorical cross-entropy), in forward and in backward, throws exactly
    when the shapes of the predicted and the target matrix differ, and the
    exception is always the same-shape error. *)
Theorem losses_check_shapes (f : LossFunction num) p t :
  f ∈ [meanSquaredError; binaryCrossEntropy Math_log;
       categoricalCrossEntropy Math_log] →
  has_rows p → has_rows t →
  (throws (loss_forward f p t) ↔ rows p ≠ rows t ∨ cols p ≠ cols t) ∧
  (throws (loss_backward f p t) ↔ rows p ≠ rows t ∨ cols p ≠ cols t) ∧
  (∀ e, loss_forward f p t = Throw e ∨ loss_backward f p t = Throw e →
        e = shape_error).
Proof.
  intros Hf Hp Ht.
  destruct (decide (rows p ≠ rows t ∨ cols p ≠ cols t)) as [Hbad|Hgood].
  - assert (loss_forward f p t = Throw shape_error ∧
            loss_backward f p t = Throw shape_error) as [Hfw Hbw].
    { repeat (apply elem_of_cons in Hf as [->|Hf]);
        [..|by apply elem_of_nil in Hf]; cbn;
        unfold mse_forward, mse_backward, bce_forward, bce_backward,
          cce_forward, cce_backward; by rewrite !decide_True. }
    rewrite Hfw, Hbw. split_and!.
    + split; [done|]. intros _. by eexists.
    + split; [done|]. intros _. by eexists.
    + intros e [[= <-]|[= <-]]; done.
  - assert (rows p = rows t ∧ cols p = cols t) as [Hr Hc].
    { split; apply dec_stable; intros Hne; apply Hgood; [by left|by right]. }
    destruct (losses_no_throw p t Hp Ht Hr Hc)
      as (H1 & H2 & H3 & H4 & H5 & H6).
    assert (no_throw (λ _, True) (loss_forward f p t) ∧
            no_throw (λ _, True) (loss_backward f p t)) as [Hfw Hbw].
    { repeat (apply elem_of_cons in Hf as [->|Hf]);
        [..|by apply elem_of_nil in Hf]; by cbn. }
    split_and!.
    + split; [|done]. intros [e He]. by rewrite He in Hfw.
    + split; [|done]. intros [e He]. by rewrite He in Hbw.
    + intros e [He|He]; [by rewrite He in Hfw|by rewrite He in Hbw].
Qed.

(** X22: getLoss and getActivation return, for each of the names they
    know, the function object that carries this name, and throw an error
    naming the argument for every other name. *)
Theorem lookup_by_name (Math_tanh : num → num) (name : string)
    (alpha : option num) :
  (∀ f, getLoss Math_log name = Ok f → loss_name f = name) ∧
  (throws (getLoss Math_log name) ↔
   name ∉ ["mse"; "binary_crossentropy"; "categorical_crossentropy"]) ∧
  (∀ e, getLoss Math_log name = Throw e →
        e = Error ("Unknown loss function: " +:+ name)) ∧
  (∀ a, getActivation Math_tanh name alpha = Ok a → act_name a = name) ∧
  (throws (getActivation Math_tanh name alpha) ↔
   name ∉ ["sigmoid"; "tanh"; "relu"; "leaky_relu"; "linear"]) ∧
  (∀ e, getActivation Math_tanh name alpha = Throw e →
        e = Error ("Unknown activation function: " +:+ name)).
Proof.
  unfold getLoss, getActivation. split_and!.
  - intros f. repeat case_decide; subst; by intros [= <-].
  - repeat case_decide; subst;
      (split; [intros [e He]; done || set_solver|
               intros Hn; first [by eexists | set_solver]]).
  - intros e. repeat case_decide; subst; by intros [= <-].
  - intros a. repeat case_decide; subst; by intros [= <-].
  - repeat case_decide; subst;
      (split; [intros [e He]; done || set_solver|
               intros Hn; first [by eexists | set_solver]]).
  - intros e. repeat case_decide; subst; by intros [= <-].
Qed.

End LossShapes.

Section RationalLoss.
#[local] Open Scope Qc_scope.
Implicit Types (p t x : Matrix Qc).

Lemma Qc_square_nonneg (a : Qc) : Q2Qc 0 ≤ a * a.
Proof.
  unfold Qcle. change (this (Q2Qc 0)) with 0%Q.
  change (this (a * a)) with (Qred (a * a)). rewrite Qred_correct.
  destruct (Qlt_le_dec a 0) as [Hneg|Hpos].
  - assert (0 <= - a)%Q as Ha.
    { apply Qlt_le_weak in Hneg. by apply Qopp_le_compat in Hneg. }
    apply (Qle_trans _ ((- a) * (- a))%Q); [by apply Qmult_le_0_compat|].
    apply Qle_lteq. right. ring.
  - by apply Qmult_le_0_compat.
Qed.

Lemma Qc_div_nonneg (a b : Qc) : Q2Qc 0 ≤ a → Q2Qc 0 < b → Q2Qc 0 ≤ a / b.
Proof.
  unfold Qcle, Qclt, Qcdiv. change (this (Q2Qc 0)) with 0%Q. intros Ha Hb.
  change (this (a * / b)) with (Qred (a * Qred (/ b))).
  rewrite !Qred_correct.
  apply Qmult_le_0_compat; [done|]. apply Qinv_le_0_compat.
  by apply Qlt_le_weak.
Qed.

Lemma Qc_of_nat_pos (n : nat) :
  (0 < n)%nat → Q2Qc 0 < Q2Qc (inject_Z (Z.of_nat n)).
Proof.
  intros Hn. unfold Qclt. change (this (Q2Qc 0)) with 0%Q.
  change (this (Q2Qc (inject_Z (Z.of_nat n))))
    with (Qred (inject_Z (Z.of_nat n))).
  rewrite Qred_correct. unfold Qlt. cbn. lia.
Qed.

Lemma Qc_sum_nonneg (l : list Qc) :
  Forall (λ a, Q2Qc 0 ≤ a) l → Q2Qc 0 ≤ Qc_sum l.
Proof.
  induction 1 as [|a l Ha _ IH]; [apply Qcle_refl|].
  unfold Qc_sum. cbn [foldr]. fold (Qc_sum l).
  replace (Q2Qc 0) with (Q2Qc 0 + Q2Qc 0) by ring.
  by apply Qcplus_le_compat.
Qed.

(** X23: over the rationals, the mean squared error of two rectangular
    matrices of the same shape with at least one element is never negative,
    and it is 0 when the two matrices are equal. *)
Theorem mse_nonnegative r c p t :
  shaped r c p → shaped r c t → (0 < r * c)%nat →
  ∃ loss, mse_forward p t = Ok loss ∧ Q2Qc 0 ≤ loss ∧
          (p = t → loss = Q2Qc 0).
Proof.
  intros Hp Ht Hn. rewrite (mse_forward_shaped r c p t Hp Ht).
  eexists. split; [reflexivity|]. cbn [nadd ndiv nmul lit Qc_number].
  rewrite foldl_Qcplus, concat_tabulate.
  replace (Q2Qc (inject_Z 0)) with (Q2Qc 0) by (by apply Qc_is_canon).
  rewrite Qcplus_0_l. split.
  - apply Qc_div_nonneg; [|by apply Qc_of_nat_pos].
    apply Qc_sum_nonneg, Forall_forall. intros a Ha.
    apply list_elem_of_bind in Ha as (i & Ha & _).
    apply list_elem_of_bind in Ha as (j & Ha & _).
    apply list_elem_of_singleton in Ha as ->. apply Qc_square_nonneg.
  - intros ->.
    assert (Qc_sum (seq 0 r ≫= λ i, seq 0 c ≫= λ j,
              [difference t t i j * difference t t i j]) = Q2Qc 0) as ->.
    { generalize (seq 0 r). intros li.
      induction li as [|i li IH]; [done|]. cbn [mbind list_bind].
      unfold Qc_sum in *. rewrite foldr_app, IH.
      generalize (seq 0 c). intros lj.
      induction lj as [|j lj IHj]; [done|]. cbn [mbind list_bind app foldr] in *.
      rewrite difference_Qc, IHj. ring. }
    unfold Qcdiv. ring.
Qed.

End RationalLoss.

Lemma losses_check_shapes_witness :
  let p : Matrix Qc := mkMatrix 2 1 [[lit 1]; [lit 0]] in
  let t : Matrix Qc := mkMatrix 1 2 [[lit 1; lit 0]] in
  cce_backward p t = Throw shape_error ∧
  ¬ throws (cce_backward p p).
Proof.
  intros p t.
  destruct (losses_check_shapes (λ x : Qc, x)
              (categoricalCrossEntropy (λ x : Qc, x)) p t)
    as (_ & _ & Herr); [set_solver|done..|].
  destruct (losses_check_shapes (λ x : Qc, x)
              (categoricalCrossEntropy (λ x : Qc, x)) p p)
    as (_ & Hsame & _); [set_solver|done..|].
  split.
  - cbn [loss_backward categoricalCrossEntropy] in Herr.
    assert (throws (cce_backward p t)) as [e He] by (by eexists).
    rewrite He. f_equal. apply Herr. by right.
  - intros Hthrows. apply Hsame in Hthrows. by destruct Hthrows.
Defined.

Lemma mse_nonnegative_witness :
  let p : Matrix Qc := mkMatrix 1 2 [[lit 1; lit 3]] in
  let t : Matrix Qc := mkMatrix 1 2 [[lit 2; lit 1]] in
  ∃ loss, mse_forward p t = Ok loss ∧ (Q2Qc 0 ≤ loss)%Qc.
Proof.
  intros p t.
  destruct (mse_nonnegative 1 2 p t) as (loss & Hloss & Hpos & _);
    [by repeat constructor..|lia|].
  by exists loss.
Defined.

(** ** Activation.ts *)

Section ActivationFacts.
Context {num : Type} `{JSNumber num}.
Implicit Types (x m : Matrix num).

Lemma copy_shaped r c x : shaped r c x → 0 < r → copy x = Ok x.
Proof.
  intros Hx Hr. unfold copy. cbv zeta. rewrite list_fmap_id.
  pose proof Hx as (Hrows & Hcols & _). rewrite Hrows, Hcols.
  rewrite Matrix_new_shaped; [|done|].
  - f_equal. destruct x. cbn in *. by subst.
  - destruct Hx as (_ & _ & Hl & Hall). by repeat split.
Qed.

Lemma no_rows_empty c x : shaped 0 c x → x = mkMatrix 0 c [].
Proof.
  intros (Hr & Hc & Hl & _). destruct x as [rows cols data]. cbn in *.
  subst. by apply nil_length_inv in Hl as ->.
Qed.

(** X24: the linear activation needs a matrix with a row: on a
    rectangular matrix with at least one row its forward returns the matrix
    and its backward the matrix of ones of the same shape, but on a matrix
    without rows both throw a TypeError, where the ReLU activation returns
    the empty matrix. *)
Theorem linear_needs_a_row r c x :
  shaped r c x →
  (0 < r →
   act_forward linear x = Ok x ∧
   ∃ g, act_backward linear x = Ok g ∧ shaped r c g ∧
        ∀ i j, i < r → j < c → cellAt g i j = lit 1) ∧
  (r = 0 →
   act_forward linear x = Throw TypeError ∧
   act_backward linear x = Throw TypeError ∧
   act_forward relu x = Ok x ∧ act_backward relu x = Ok x).
Proof.
  intros Hx. cbn [act_forward act_backward linear relu]. split.
  - intros Hr. split; [by apply (copy_shaped r c)|].
    pose proof Hx as (Hrows & Hcols & _).
    rewrite Hrows, Hcols, ones_tabulate by done.
    eexists. split; [reflexivity|]. split; [apply shaped_tabulate|].
    intros i j Hi Hj. by rewrite cellAt_tabulate.
  - intros ->. rewrite (no_rows_empty c x Hx). split_and!; reflexivity.
Qed.

End ActivationFacts.

Section RationalActivations.
#[local] Open Scope Qc_scope.
Implicit Types (x m : Matrix Qc).

Lemma Qc_rectifier (v : Qc) :
  Math_max (lit 0) v = v * (if gt v (lit 0) then lit 1 else lit 0).
Proof.
  unfold Math_max. cbn [gt lit Qc_number].
  change (Q2Qc (inject_Z 0)) with (Q2Qc 0).
  change (Q2Qc (inject_Z 1)) with 1.
  repeat case_bool_decide; try ring.
  - exfalso. by eapply Qclt_not_le; [|apply Qclt_le_weak].
  - destruct (Qc_dec v (Q2Qc 0)) as [[?|?]| ->]; [done|done|ring].
Qed.

Lemma Qc_rectifier_idem (v : Qc) :
  Math_max (lit 0) (Math_max (lit 0) v) = Math_max (lit 0) v.
Proof.
  unfold Math_max. cbn [gt lit Qc_number].
  by repeat case_bool_decide.
Qed.

Lemma Qc_rectifier_nonneg (v : Qc) : Q2Qc 0 ≤ Math_max (lit 0) v.
Proof.
  unfold Math_max. cbn [gt lit Qc_number].
  change (Q2Qc (inject_Z 0)) with (Q2Qc 0).
  case_bool_decide; [apply Qcle_refl|by apply Qcnot_lt_le].
Qed.

(** X25: over the rationals, on a rectangular matrix the ReLU activation
    returns a matrix without negative elements, applying it again changes
    nothing, and for ReLU as for leaky ReLU the output is the input
    multiplied elementwise by the derivative that backward returns. *)
Theorem rectifiers r c x (alpha : option Qc) :
  shaped r c x →
  (∃ y, act_forward relu x = Ok y ∧ shaped r c y ∧
        (∀ i j, (i < r)%nat → (j < c)%nat → Q2Qc 0 ≤ cellAt y i j) ∧
        act_forward relu y = Ok y) ∧
  act_forward relu x = (g ← act_backward relu x; hadamard x g) ∧
  act_forward (leakyRelu alpha) x
  = (g ← act_backward (leakyRelu alpha) x; hadamard x g).
Proof.
  intros Hx. cbn [act_forward act_backward relu leakyRelu].
  unfold relu_forward, relu_backward.
  rewrite !(map_tabulate r c x) by done. split_and!.
  - eexists. split; [reflexivity|]. split; [apply shaped_tabulate|]. split.
    + intros i j Hi Hj. rewrite cellAt_tabulate by done.
      apply Qc_rectifier_nonneg.
    + rewrite (map_tabulate r c) by apply shaped_tabulate.
      do 2 f_equal. apply tabulate_ext. intros i j Hi Hj.
      rewrite cellAt_tabulate by done. apply Qc_rectifier_idem.
  - change (Ok ?a ≫= ?f) with (f a). cbv beta.
    rewrite (hadamard_shaped r c) by (done || apply shaped_tabulate).
    do 2 f_equal. apply tabulate_ext. intros i j Hi Hj.
    rewrite cellAt_tabulate by done. apply Qc_rectifier.
  - change (Ok ?a ≫= ?f) with (f a). cbv beta.
    rewrite (hadamard_shaped r c) by (done || apply shaped_tabulate).
    do 2 f_equal. apply tabulate_ext. intros i j Hi Hj.
    rewrite cellAt_tabulate by done. cbn [nmul lit Qc_number].
    change (Q2Qc (inject_Z 1)) with 1.
    destruct (gt _ _); ring.
Qed.

End RationalActivations.

Lemma linear_needs_a_row_witness :
  act_forward linear (mkMatrix 0 2 ([] : list (list Qc))) = Throw TypeError ∧
  act_forward linear (mkMatrix 1 2 [[lit 1; lit 2]] : Matrix Qc)
  = Ok (mkMatrix 1 2 [[lit 1; lit 2]]).
Proof.
  split.
  - apply (linear_needs_a_row (num := Qc) 0 2); by repeat constructor.
  - apply (linear_needs_a_row (num := Qc) 1 2); [by repeat constructor|lia].
Defined.

Lemma rectifiers_witness :
  let x : Matrix Qc := mkMatrix 1 2 [[lit (-3); lit 2]] in
  act_forward relu x = (g ← act_backward relu x; hadamard x g) ∧
  act_forward relu x = Ok (mkMatrix 1 2 [[lit 0; lit 2]]).
Proof.
  intros x. split; [|reflexivity].
  apply (rectifiers 1 2 x None). by repeat constructor.
Defined.

Lemma generated_steps_witness :
  totalSteps (getState (executeBackward (new_engine shared_heap shared_graph)))
  = 8 ∧
  nodeId <$> forwardSteps (new_engine shared_heap shared_graph)
  = ["x"; "y"; "m"; "out"].
Proof.
  destruct (generated_steps (new_engine shared_heap shared_graph)
              (executeBackward (new_engine shared_heap shared_graph)))
    as (Htotal & _); [by right; right|].
  destruct (generated_steps (mkEngine shared_heap shared_graph [] [] (-1) Idle ∅)
              (new_engine shared_heap shared_graph))
    as (_ & Hids & _); [by left|].
  split; [exact Htotal|exact Hids].
Defined.

Lemma state_and_current_step_witness :
  getCurrentStep (new_engine shared_heap shared_graph) = None ∧
  state_mode (getState (new_engine shared_heap shared_graph)) = Idle.
Proof.
  destruct (state_and_current_step (new_engine shared_heap shared_graph)
              (reset_in_step _)) as (_ & Hnone & _ & Hidle).
  split; [by apply Hnone|by apply Hidle].
Defined.

(** ** Layer.ts *)

Section LayerFacts.
Context {num : Type} `{JSNumber num}.
Implicit Types (l : Layer num) (x z a b g m : Matrix num).

(** The bias loop adds to every element the bias of its row. *)
Lemma add_bias_tabulate r c b (f : nat → nat → num) :
  shaped r 1 b →
  add_bias b (mkMatrix r c (tabulate r c f))
  = Ok (mkMatrix r c (tabulate r c (λ i j, nadd (f i j) (cellAt b i 0)))).
Proof.
  intros Hb. unfold add_bias. cbn [rows cols].
  destruct (for_invariant
    (λ col res, res = mkMatrix r c (tabulate r c
       (λ i j, if decide (j < col) then nadd (f i j) (cellAt b i 0) else f i j)))
    c (λ col z,
         for_ (rows z) (λ row z,
           v ← rd z row col; w ← rd b row 0; wr z row col (nadd v w)) z)
    (mkMatrix r c (tabulate r c f))) as (res & Hfor & ->).
  - reflexivity.
  - intros col res Hcol ->. cbn [rows].
    destruct (for_invariant
      (λ row res, res = mkMatrix r c (tabulate r c
         (λ i j, if decide (j < col ∨ (j = col ∧ i < row))
                 then nadd (f i j) (cellAt b i 0) else f i j)))
      r (λ row z, v ← rd z row col; w ← rd b row 0; wr z row col (nadd v w))
      (mkMatrix r c (tabulate r c
         (λ i j, if decide (j < col) then nadd (f i j) (cellAt b i 0)
                 else f i j)))) as (res & Hin & ->).
    + f_equal. apply tabulate_ext. intros i j _ _.
      repeat case_decide; try done; exfalso; lia.
    + intros row res Hrow ->.
      rewrite (rd_shaped r c (mkMatrix r c (tabulate r c _)) row col)
        by (done || apply shaped_tabulate).
      change (Ok ?v ≫= ?k) with (k v). cbv beta.
      rewrite (rd_shaped r 1 b) by (done || lia).
      change (Ok ?v ≫= ?k) with (k v). cbv beta.
      rewrite wr_tabulate by done.
      eexists. split; [reflexivity|]. f_equal. apply tabulate_ext.
      intros i j Hi Hj. rewrite cellAt_tabulate by done.
      repeat case_decide; destruct_and?; subst; try done; exfalso; lia.
    + eexists. split; [exact Hin|]. f_equal. apply tabulate_ext.
      intros i j Hi _.
      repeat case_decide; try done; exfalso; lia.
  - rewrite Hfor. do 2 f_equal. apply tabulate_ext. intros i j _ Hj.
    by rewrite decide_True.
Qed.

Lemma pre_activation_shaped l x batch :
  shaped (inputSize l) batch x →
  shaped (outputSize l) batch (pre_activation l x).
Proof.
  intros (_ & Hc & _). unfold pre_activation. rewrite Hc.
  destruct (useBias l); apply shaped_tabulate.
Qed.

(** X28: layer.forward(input) throws the size-mismatch error when the
    input does not have [inputSize] rows.  On a layer with rectangular
    weights ([outputSize] by [inputSize]) and biases ([outputSize] by 1) and a
    rectangular input with [inputSize] rows it computes the pre-activation
    [W x + b] (the bias of a row added to every element of the row; [W x]
    alone when the layer uses no bias), returns what the activation makes of
    it, and caches the input, the pre-activation and the output; weights,
    biases and gradients stay as they are. *)
Theorem layer_forward_result l (input : Matrix num) :
  (rows input ≠ inputSize l →
   Layer_forward l input
   = Throw (Error ("Input size mismatch: expected " +:+ pretty (inputSize l) +:+
                   ", got " +:+ pretty (rows input)))) ∧
  (∀ batch a,
     shaped (outputSize l) (inputSize l) (weights l) →
     shaped (outputSize l) 1 (biases l) →
     shaped (inputSize l) batch input →
     0 < inputSize l → 0 < outputSize l →
     act_forward (activation l) (pre_activation l input) = Ok a →
     shaped (outputSize l) batch a →
     Layer_forward l input
     = Ok (a, mkLayer (inputSize l) (outputSize l) (weights l) (biases l)
                (activation l) (useBias l)
                (Some input) (Some (pre_activation l input)) (Some a)
                (dWeights l) (dBiases l))).
Proof.
  split.
  - intros Hrows. unfold Layer_forward. by rewrite decide_True.
  - intros batch a HW Hb Hx Hin Hout Hact Ha. unfold Layer_forward.
    pose proof Hx as (Hrows & Hcols & _).
    rewrite decide_False by (intros ?; done).
    rewrite (copy_shaped (inputSize l) batch) by done.
    change (Ok ?v ≫= ?k) with (k v). cbv beta.
    rewrite (multiply_tabulate (outputSize l) (inputSize l) batch) by done.
    change (Ok ?v ≫= ?k) with (k v). cbv beta.
    assert ((if useBias l
             then add_bias (biases l)
                    (mkMatrix (outputSize l) batch
                       (tabulate (outputSize l) batch
                          (dot (weights l) input (inputSize l))))
             else Ok (mkMatrix (outputSize l) batch
                        (tabulate (outputSize l) batch
                           (dot (weights l) input (inputSize l)))))
            = Ok (pre_activation l input)) as ->.
    { unfold pre_activation. rewrite Hcols.
      destruct (useBias l); [|done]. by apply add_bias_tabulate. }
    change (Ok ?v ≫= ?k) with (k v). cbv beta.
    rewrite (copy_shaped (outputSize l) batch)
      by (done || by apply pre_activation_shaped).
    change (Ok ?v ≫= ?k) with (k v). cbv beta. rewrite Hact.
    change (Ok ?v ≫= ?k) with (k v). cbv beta.
    by rewrite (copy_shaped (outputSize l) batch).
Qed.

(** The loop over the rows of [dZ] writes the mean of every row. *)
Lemma bias_gradient_tabulate r c (batchSize : num) dZ :
  shaped r c dZ →
  bias_gradient batchSize dZ (mkMatrix r 1 (replicate r (replicate 1 (lit 0))))
  = Ok (mkMatrix r 1
          (tabulate r 1 (λ i _, ndiv (row_sum dZ c i) batchSize))).
Proof.
  intros HdZ. pose proof HdZ as (Hr & Hc & _).
  unfold bias_gradient. rewrite Hr, Hc, replicate_tabulate.
  destruct (for_invariant
    (λ row res, res = mkMatrix r 1 (tabulate r 1
       (λ i _, if decide (i < row) then ndiv (row_sum dZ c i) batchSize
               else lit 0)))
    r (λ row dBiases,
         sum ← for_ c (λ col sum, v ← rd dZ row col; Ok (nadd sum v)) (lit 0);
         wr dBiases row 0 (ndiv sum batchSize))
    (mkMatrix r 1 (tabulate r 1 (λ _ _, lit 0)))) as (res & Hfor & ->).
  - reflexivity.
  - intros row res Hrow ->.
    rewrite (for_foldl c _ (λ sum col, nadd sum (cellAt dZ row col)))
      by (intros col sum Hcol; by rewrite (rd_shaped r c)).
    change (Ok ?v ≫= ?k) with (k v). cbv beta.
    rewrite wr_tabulate by (done || lia).
    eexists. split; [reflexivity|]. f_equal. apply tabulate_ext.
    intros i j Hi Hj. unfold row_sum.
    repeat case_decide; destruct_and?; subst; try done; exfalso; lia.
  - rewrite Hfor. do 2 f_equal. apply tabulate_ext. intros i j Hi _.
    by rewrite decide_True.
Qed.

(** X29: layer.backward(dLoss) throws the forward-first error on a layer
    whose forward was never run.  After a forward, with rectangular weights,
    cached input and dLoss, it returns the gradient for the previous layer,
    of the shape of the input, and stores the gradients of the weights and of
    the biases, of the shapes of the weights and of the biases:
    [dZ = dLoss ⊙ activation'(z)], [dInput = Wᵀ dZ],
    [dWeights = (dZ xᵀ) * (1 / batch)] and [dBiases] the sums of the rows of
    [dZ] divided by the batch size; weights, biases and caches stay as they
    are. *)
Theorem layer_backward_result l (dLoss : Matrix num) :
  (lastInput l = None ∨ lastZ l = None ∨ lastA l = None →
   Layer_backward l dLoss
   = Throw (Error "Forward pass must be called before backward pass")) ∧
  (∀ x z a batch g,
     lastInput l = Some x → lastZ l = Some z → lastA l = Some a →
     shaped (inputSize l) batch x →
     shaped (outputSize l) (inputSize l) (weights l) →
     shaped (outputSize l) batch dLoss →
     act_backward (activation l) z = Ok g →
     shaped (outputSize l) batch g →
     let dZ := pre_activation_gradient dLoss g in
     let batchSize := lit (Z.of_nat batch) in
     ∃ dInput dW dB,
       Layer_backward l dLoss
       = Ok (dInput, mkLayer (inputSize l) (outputSize l) (weights l)
                       (biases l) (activation l) (useBias l)
                       (Some x) (Some z) (Some a) (Some dW) dB) ∧
       shaped (inputSize l) batch dInput ∧
       (∀ i j, i < inputSize l → j < batch →
          cellAt dInput i j = dot_transposed_l (weights l) dZ (outputSize l) i j) ∧
       shaped (outputSize l) (inputSize l) dW ∧
       (∀ i j, i < outputSize l → j < inputSize l →
          cellAt dW i j
          = nmul (dot_transposed_r dZ x batch i j) (ndiv (lit 1) batchSize)) ∧
       (if useBias l then
          ∃ m, dB = Some m ∧ shaped (outputSize l) 1 m ∧
               ∀ i, i < outputSize l →
                    cellAt m i 0 = ndiv (row_sum dZ batch i) batchSize
        else dB = dBiases l)).
Proof.
  split.
  - intros Hnone. unfold Layer_backward.
    destruct (lastInput l), (lastZ l), (lastA l); try done.
    by destruct Hnone as [?|[?|?]].
  - intros x z a batch g Hx Hz Ha Hxs HW HdL Hact Hg dZ batchSize.
    unfold Layer_backward. rewrite Hx, Hz, Ha.
    pose proof HdL as (Hrows & Hcols & _). pose proof Hxs as (_ & Hxc & _).
    rewrite decide_False by (intros ?; done). cbv zeta. rewrite Hact, Hxc.
    change (Ok ?v ≫= ?k) with (k v). cbv beta.
    rewrite (hadamard_shaped (outputSize l) batch) by done.
    change (Ok ?v ≫= ?k) with (k v). cbv beta.
    assert (mkMatrix (outputSize l) batch
              (tabulate (outputSize l) batch
                 (λ i j, nmul (cellAt dLoss i j) (cellAt g i j))) = dZ) as ->
      by (unfold dZ, pre_activation_gradient; by rewrite Hrows, Hcols).
    assert (shaped (outputSize l) batch dZ) as HdZ.
    { unfold dZ, pre_activation_gradient. rewrite Hrows, Hcols.
      apply shaped_tabulate. }
    rewrite (transpose_tabulate (inputSize l) batch x) by done.
    change (Ok ?v ≫= ?k) with (k v). cbv beta.
    rewrite (multiply_tabulate (outputSize l) batch (inputSize l))
      by (done || apply shaped_tabulate).
    change (Ok ?v ≫= ?k) with (k v). cbv beta.
    rewrite (scale_shaped (outputSize l) (inputSize l))
      by apply shaped_tabulate.
    change (Ok ?v ≫= ?k) with (k v). cbv beta.
    assert (∀ (k : option (Matrix num) → outcome (Matrix num * Layer num)),
      ((if useBias l
        then zeros (outputSize l) 1
             ≫= (λ dBiases, Some <$> bias_gradient (lit (Z.of_nat batch)) dZ dBiases)
        else Ok (dBiases l)) ≫= k)
      = k (if useBias l
           then Some (mkMatrix (outputSize l) 1
                        (tabulate (outputSize l) 1
                           (λ i _, ndiv (row_sum dZ batch i) batchSize)))
           else dBiases l)) as Hbias.
    { intros k. destruct (useBias l); [|done]. rewrite zeros_ok.
      change (Ok ?v ≫= ?f) with (f v). cbv beta.
      by rewrite (bias_gradient_tabulate (outputSize l) batch). }
    rewrite Hbias.
    rewrite (transpose_tabulate (outputSize l) (inputSize l) (weights l))
      by done.
    change (Ok ?v ≫= ?k) with (k v). cbv beta.
    rewrite (multiply_tabulate (inputSize l) (outputSize l) batch)
      by (done || apply shaped_tabulate).
    change (Ok ?v ≫= ?k) with (k v). cbv beta.
    eexists _, _, _. split; [reflexivity|].
    split; [apply shaped_tabulate|]. split.
    { intros i j Hi Hj. rewrite cellAt_tabulate by done.
      unfold dot, dot_transposed_l. apply foldl_ext_in.
      intros sum k Hk%elem_of_seq. by rewrite cellAt_tabulate by lia. }
    split; [apply shaped_tabulate|]. split.
    { intros i j Hi Hj. rewrite !cellAt_tabulate by done. f_equal.
      unfold dot, dot_transposed_r. apply foldl_ext_in.
      intros sum k Hk%elem_of_seq. by rewrite cellAt_tabulate by lia. }
    destruct (useBias l); [|done].
    eexists. split; [reflexivity|]. split; [apply shaped_tabulate|].
    intros i Hi. by rewrite cellAt_tabulate by lia.
Qed.

(** X30: layer.updateWeights(learningRate) throws the backward-first
    error on a layer that holds no weight gradient, as after
    resetGradients().  With the gradients of a backward pass it replaces
    every weight [w] by [w + (dw * learningRate) * (-1)], and, when the layer
    uses a bias, every bias likewise; the shapes, the caches and the stored
    gradients stay as they are. *)
Theorem update_weights_result l (learningRate : num) :
  (dWeights l = None →
   updateWeights l learningRate
   = Throw (Error "Backward pass must be called before updating weights")) ∧
  updateWeights (resetGradients l) learningRate
  = Throw (Error "Backward pass must be called before updating weights") ∧
  (∀ dW dB,
     dWeights l = Some dW → dBiases l = Some dB →
     shaped (outputSize l) (inputSize l) (weights l) →
     shaped (outputSize l) (inputSize l) dW →
     shaped (outputSize l) 1 (biases l) →
     shaped (outputSize l) 1 dB →
     ∃ W' b',
       updateWeights l learningRate
       = Ok (mkLayer (inputSize l) (outputSize l) W' b'
               (activation l) (useBias l)
               (lastInput l) (lastZ l) (lastA l) (Some dW) (Some dB)) ∧
       shaped (outputSize l) (inputSize l) W' ∧
       (∀ i j, i < outputSize l → j < inputSize l →
          cellAt W' i j
          = nadd (cellAt (weights l) i j)
                 (nmul (nmul (cellAt dW i j) learningRate) (lit (-1)))) ∧
       (if useBias l then
          shaped (outputSize l) 1 b' ∧
          ∀ i, i < outputSize l →
               cellAt b' i 0
               = nadd (cellAt (biases l) i 0)
                      (nmul (nmul (cellAt dB i 0) learningRate) (lit (-1)))
        else b' = biases l)).
Proof.
  split; [|split].
  - intros Hnone. unfold updateWeights. by rewrite Hnone.
  - done.
  - intros dW dB HdW HdB HW HdWs Hb HdBs. unfold updateWeights.
    rewrite HdW, HdB.
    rewrite (scale_shaped (outputSize l) (inputSize l) dW) by done.
    change (Ok ?v ≫= ?k) with (k v). cbv beta.
    rewrite (subtract_shaped (outputSize l) (inputSize l))
      by (done || apply shaped_tabulate).
    change (Ok ?v ≫= ?k) with (k v). cbv beta.
    assert (∀ i j, i < outputSize l → j < inputSize l →
      difference (weights l)
        (mkMatrix (outputSize l) (inputSize l)
           (tabulate (outputSize l) (inputSize l)
              (λ i j, nmul (cellAt dW i j) learningRate))) i j
      = nadd (cellAt (weights l) i j)
             (nmul (nmul (cellAt dW i j) learningRate) (lit (-1)))) as HWcells.
    { intros i j Hi Hj. unfold difference. by rewrite cellAt_tabulate. }
    destruct (useBias l).
    + rewrite (scale_shaped (outputSize l) 1 dB) by done.
      change (Ok ?v ≫= ?k) with (k v). cbv beta.
      rewrite (subtract_shaped (outputSize l) 1)
        by (done || apply shaped_tabulate).
      change (Ok ?v ≫= ?k) with (k v). cbv beta.
      eexists _, _. split; [reflexivity|].
      split; [apply shaped_tabulate|]. split.
      * intros i j Hi Hj. rewrite cellAt_tabulate by done. by apply HWcells.
      * split; [apply shaped_tabulate|]. intros i Hi.
        rewrite cellAt_tabulate by lia. unfold difference.
        by rewrite cellAt_tabulate by lia.
    + change (Ok ?v ≫= ?k) with (k v). cbv beta.
      eexists _, _. split; [reflexivity|].
      split; [apply shaped_tabulate|]. split; [|done].
      intros i j Hi Hj. rewrite cellAt_tabulate by done. by apply HWcells.
Qed.

End LayerFacts.

(** A layer of two inputs and one output with the ReLU activation, the
    weights [[1, -2]] and the bias [[3]]. *)
Lemma layer_forward_result_witness :
  let l : Layer Qc :=
    mkLayer 2 1 (mkMatrix 1 2 [[lit 1; lit (-2)]]) (mkMatrix 1 1 [[lit 3]])
            relu true None None None None None in
  let input : Matrix Qc := mkMatrix 2 1 [[lit 4]; [lit 1]] in
  ∃ l', Layer_forward l input = Ok (mkMatrix 1 1 [[lit 5]], l') ∧
        lastZ l' = Some (mkMatrix 1 1 [[lit 5]]).
Proof.
  intros l input.
  pose proof (proj2 (layer_forward_result l input) 1 (mkMatrix 1 1 [[lit 5]]))
    as Hrun.
  eexists. split.
  - apply Hrun; [by repeat constructor..|cbn; lia|cbn; lia|reflexivity
                |by repeat constructor].
  - reflexivity.
Defined.

Lemma layer_backward_result_witness :
  let l : Layer Qc :=
    mkLayer 2 1 (mkMatrix 1 2 [[lit 1; lit (-2)]]) (mkMatrix 1 1 [[lit 3]])
            relu true (Some (mkMatrix 2 1 [[lit 4]; [lit 1]]))
            (Some (mkMatrix 1 1 [[lit 5]])) (Some (mkMatrix 1 1 [[lit 5]]))
            None None in
  ∃ dInput l', Layer_backward l (mkMatrix 1 1 [[lit 1]]) = Ok (dInput, l') ∧
               cellAt dInput 1 0 = lit (-2) ∧
               (∃ dW, dWeights l' = Some dW ∧ cellAt dW 0 0 = lit 4).
Proof.
  intros l.
  destruct (proj2 (layer_backward_result l (mkMatrix 1 1 [[lit 1]]))
              (mkMatrix 2 1 [[lit 4]; [lit 1]]) (mkMatrix 1 1 [[lit 5]])
              (mkMatrix 1 1 [[lit 5]]) 1 (mkMatrix 1 1 [[lit 1]]))
    as (dInput & dW & dB & Hrun & _ & HdInput & _ & HdW & _);
    [reflexivity..|by repeat constructor|by repeat constructor
    |by repeat constructor|reflexivity|by repeat constructor|].
  exists dInput. eexists. split; [exact Hrun|]. split.
  - rewrite HdInput by (cbn; lia). reflexivity.
  - exists dW. split; [reflexivity|].
    rewrite HdW by (cbn; lia). reflexivity.
Defined.

Lemma update_weights_result_witness :
  let l : Layer Qc :=
    mkLayer 2 1 (mkMatrix 1 2 [[lit 1; lit (-2)]]) (mkMatrix 1 1 [[lit 3]])
            relu true None None None
            (Some (mkMatrix 1 2 [[lit 4; lit 1]])) (Some (mkMatrix 1 1 [[lit 1]])) in
  ∃ l', updateWeights l (lit 2) = Ok l' ∧
        cellAt (weights l') 0 0 = lit (-7) ∧
        cellAt (biases l') 0 0 = lit 1.
Proof.
  intros l.
  destruct (proj2 (proj2 (update_weights_result l (lit 2)))
              (mkMatrix 1 2 [[lit 4; lit 1]]) (mkMatrix 1 1 [[lit 1]]))
    as (W' & b' & Hrun & _ & HW & _ & Hb); [reflexivity..|by repeat constructor
    |by repeat constructor|by repeat constructor|by repeat constructor|].
  eexists. split; [exact Hrun|]. split.
  - cbn [weights]. rewrite HW by (cbn; lia). reflexivity.
  - cbn [biases]. rewrite Hb by (cbn; lia). reflexivity.
Defined.
